(** * The filesystem MCP server of [mcp_server.py], embedded and verified

    The development follows the source top-down:

    - [PyStr]: Python [str] values (sequences of code points), the string
      functions the server calls ([str.join], [repr], format widths);
    - [Utf8]: the text layer of [Path.read_text] / [Path.write_text]
      ([encoding='utf-8'], default newline handling);
    - [PurePath]: [pathlib] paths, [os.path.isabs], [Path.resolve],
      [PurePath.relative_to];
    - [Py]: exceptions and the state-and-exception monad in which the
      handlers run;
    - [FS]: the filesystem calls the handlers issue;
    - [Server]: [FilesystemMCPServer] itself;
    - [Direct]: the [list_directory] and [write_file] tools of
      [direct_approach.py], which do the same work without the server.

    Modelled host: CPython 3.11 on Linux, UTF-8 filesystem encoding, names
    of at most 255 bytes and paths of fewer than 4096, a tree of regular
    files and directories (no symbolic links, no permission failures), on
    which [Path.resolve] is the lexical walk of [os.path.realpath]. A world
    is the map from absolute paths to entries together with the log of the
    filesystem calls the handlers have made after [Path.resolve]; the
    probes of [Path.resolve] itself and logging output ([logger]) are not
    part of it. *)

From Stdlib Require Import NArith String Ascii DecimalString Lia.
From Stdlib.Strings Require Import Byte.
From stdpp Require Import base option list sorting gmap.

(** ** Python strings *)

Module PyStr.

(** A [str] is a sequence of code points, [0 <= c < 0x110000] in CPython. *)
Definition str : Type := list N.

(** ASCII literals of the source. *)
Definition lit (s : String.string) : str :=
  map N_of_ascii (list_ascii_of_string s).

Arguments lit : simpl never.

Definition LF : N := 10%N.
Definition CR : N := 13%N.
Definition NUL : N := 0%N.

Definition is_surrogate (c : N) : bool := (0xD800 <=? c)%N && (c <=? 0xDFFF)%N.

(** [sep.join(items)] *)
Fixpoint join (sep : str) (items : list str) : str :=
  match items with
  | [] => []
  | [x] => x
  | x :: rest => x ++ sep ++ join sep rest
  end.

(** [s.split(sep)] for a one-character separator. *)
Fixpoint split (sep : N) (s : str) : list str :=
  match s with
  | [] => [[]]
  | c :: s' =>
      if (c =? sep)%N then [] :: split sep s'
      else match split sep s' with
           | w :: ws => (c :: w) :: ws
           | [] => [[c]]
           end
  end.

(** [str(n)] for a non-negative integer. *)
Definition str_of_N (n : N) : str := lit (NilZero.string_of_uint (N.to_uint n)).
Definition str_of_nat (n : nat) : str := str_of_N (N.of_nat n).

(** Format specifications [{x:6}] (a string: left aligned) and [{x:>10}]. *)
Definition ljust (width : nat) (s : str) : str :=
  s ++ replicate (width - length s) 32%N.
Definition rjust (width : nat) (s : str) : str :=
  replicate (width - length s) 32%N ++ s.

Definition hex_digit (d : N) : N :=
  if (d <? 10)%N then (48 + d)%N else (87 + d)%N.

(** [%0<k>x]: the [k] low hexadecimal digits of [n], lower case. *)
Fixpoint hex (k : nat) (n : N) : str :=
  match k with
  | O => []
  | S k' => hex k' (n / 16)%N ++ [hex_digit (n mod 16)%N]
  end.

(** The code points [str.isprintable] refuses, as ranges: the categories
    Cc, Cf, Cs, Co, Cn, Zl, Zp and Zs (but the space) of the Unicode
    database of CPython 3.11 (Unicode 14.0.0). *)
Definition not_printable : list (N * N) :=
  [(0x0, 0x1F); (0x7F, 0xA0); (0xAD, 0xAD); (0x378, 0x379); (0x380, 0x383); (0x38B, 0x38B);
   (0x38D, 0x38D); (0x3A2, 0x3A2); (0x530, 0x530); (0x557, 0x558); (0x58B, 0x58C);
   (0x590, 0x590); (0x5C8, 0x5CF); (0x5EB, 0x5EE); (0x5F5, 0x605); (0x61C, 0x61C);
   (0x6DD, 0x6DD); (0x70E, 0x70F); (0x74B, 0x74C); (0x7B2, 0x7BF); (0x7FB, 0x7FC);
   (0x82E, 0x82F); (0x83F, 0x83F); (0x85C, 0x85D); (0x85F, 0x85F); (0x86B, 0x86F);
   (0x88F, 0x897); (0x8E2, 0x8E2); (0x984, 0x984); (0x98D, 0x98E); (0x991, 0x992);
   (0x9A9, 0x9A9); (0x9B1, 0x9B1); (0x9B3, 0x9B5); (0x9BA, 0x9BB); (0x9C5, 0x9C6);
   (0x9C9, 0x9CA); (0x9CF, 0x9D6); (0x9D8, 0x9DB); (0x9DE, 0x9DE); (0x9E4, 0x9E5);
   (0x9FF, 0xA00); (0xA04, 0xA04); (0xA0B, 0xA0E); (0xA11, 0xA12); (0xA29, 0xA29);
   (0xA31, 0xA31); (0xA34, 0xA34); (0xA37, 0xA37); (0xA3A, 0xA3B); (0xA3D, 0xA3D);
   (0xA43, 0xA46); (0xA49, 0xA4A); (0xA4E, 0xA50); (0xA52, 0xA58); (0xA5D, 0xA5D);
   (0xA5F, 0xA65); (0xA77, 0xA80); (0xA84, 0xA84); (0xA8E, 0xA8E); (0xA92, 0xA92);
   (0xAA9, 0xAA9); (0xAB1, 0xAB1); (0xAB4, 0xAB4); (0xABA, 0xABB); (0xAC6, 0xAC6);
   (0xACA, 0xACA); (0xACE, 0xACF); (0xAD1, 0xADF); (0xAE4, 0xAE5); (0xAF2, 0xAF8);
   (0xB00, 0xB00); (0xB04, 0xB04); (0xB0D, 0xB0E); (0xB11, 0xB12); (0xB29, 0xB29);
   (0xB31, 0xB31); (0xB34, 0xB34); (0xB3A, 0xB3B); (0xB45, 0xB46); (0xB49, 0xB4A);
   (0xB4E, 0xB54); (0xB58, 0xB5B); (0xB5E, 0xB5E); (0xB64, 0xB65); (0xB78, 0xB81);
   (0xB84, 0xB84); (0xB8B, 0xB8D); (0xB91, 0xB91); (0xB96, 0xB98); (0xB9B, 0xB9B);
   (0xB9D, 0xB9D); (0xBA0, 0xBA2); (0xBA5, 0xBA7); (0xBAB, 0xBAD); (0xBBA, 0xBBD);
   (0xBC3, 0xBC5); (0xBC9, 0xBC9); (0xBCE, 0xBCF); (0xBD1, 0xBD6); (0xBD8, 0xBE5);
   (0xBFB, 0xBFF); (0xC0D, 0xC0D); (0xC11, 0xC11); (0xC29, 0xC29); (0xC3A, 0xC3B);
   (0xC45, 0xC45); (0xC49, 0xC49); (0xC4E, 0xC54); (0xC57, 0xC57); (0xC5B, 0xC5C);
   (0xC5E, 0xC5F); (0xC64, 0xC65); (0xC70, 0xC76); (0xC8D, 0xC8D); (0xC91, 0xC91);
   (0xCA9, 0xCA9); (0xCB4, 0xCB4); (0xCBA, 0xCBB); (0xCC5, 0xCC5); (0xCC9, 0xCC9);
   (0xCCE, 0xCD4); (0xCD7, 0xCDC); (0xCDF, 0xCDF); (0xCE4, 0xCE5); (0xCF0, 0xCF0);
   (0xCF3, 0xCFF); (0xD0D, 0xD0D); (0xD11, 0xD11); (0xD45, 0xD45); (0xD49, 0xD49);
   (0xD50, 0xD53); (0xD64, 0xD65); (0xD80, 0xD80); (0xD84, 0xD84); (0xD97, 0xD99);
   (0xDB2, 0xDB2); (0xDBC, 0xDBC); (0xDBE, 0xDBF); (0xDC7, 0xDC9); (0xDCB, 0xDCE);
   (0xDD5, 0xDD5); (0xDD7, 0xDD7); (0xDE0, 0xDE5); (0xDF0, 0xDF1); (0xDF5, 0xE00);
   (0xE3B, 0xE3E); (0xE5C, 0xE80); (0xE83, 0xE83); (0xE85, 0xE85); (0xE8B, 0xE8B);
   (0xEA4, 0xEA4); (0xEA6, 0xEA6); (0xEBE, 0xEBF); (0xEC5, 0xEC5); (0xEC7, 0xEC7);
   (0xECE, 0xECF); (0xEDA, 0xEDB); (0xEE0, 0xEFF); (0xF48, 0xF48); (0xF6D, 0xF70);
   (0xF98, 0xF98); (0xFBD, 0xFBD); (0xFCD, 0xFCD); (0xFDB, 0xFFF); (0x10C6, 0x10C6);
   (0x10C8, 0x10CC); (0x10CE, 0x10CF); (0x1249, 0x1249); (0x124E, 0x124F);
   (0x1257, 0x1257); (0x1259, 0x1259); (0x125E, 0x125F); (0x1289, 0x1289);
   (0x128E, 0x128F); (0x12B1, 0x12B1); (0x12B6, 0x12B7); (0x12BF, 0x12BF);
   (0x12C1, 0x12C1); (0x12C6, 0x12C7); (0x12D7, 0x12D7); (0x1311, 0x1311);
   (0x1316, 0x1317); (0x135B, 0x135C); (0x137D, 0x137F); (0x139A, 0x139F);
   (0x13F6, 0x13F7); (0x13FE, 0x13FF); (0x1680, 0x1680); (0x169D, 0x169F);
   (0x16F9, 0x16FF); (0x1716, 0x171E); (0x1737, 0x173F); (0x1754, 0x175F);
   (0x176D, 0x176D); (0x1771, 0x1771); (0x1774, 0x177F); (0x17DE, 0x17DF);
   (0x17EA, 0x17EF); (0x17FA, 0x17FF); (0x180E, 0x180E); (0x181A, 0x181F);
   (0x1879, 0x187F); (0x18AB, 0x18AF); (0x18F6, 0x18FF); (0x191F, 0x191F);
   (0x192C, 0x192F); (0x193C, 0x193F); (0x1941, 0x1943); (0x196E, 0x196F);
   (0x1975, 0x197F); (0x19AC, 0x19AF); (0x19CA, 0x19CF); (0x19DB, 0x19DD);
   (0x1A1C, 0x1A1D); (0x1A5F, 0x1A5F); (0x1A7D, 0x1A7E); (0x1A8A, 0x1A8F);
   (0x1A9A, 0x1A9F); (0x1AAE, 0x1AAF); (0x1ACF, 0x1AFF); (0x1B4D, 0x1B4F);
   (0x1B7F, 0x1B7F); (0x1BF4, 0x1BFB); (0x1C38, 0x1C3A); (0x1C4A, 0x1C4C);
   (0x1C89, 0x1C8F); (0x1CBB, 0x1CBC); (0x1CC8, 0x1CCF); (0x1CFB, 0x1CFF);
   (0x1F16, 0x1F17); (0x1F1E, 0x1F1F); (0x1F46, 0x1F47); (0x1F4E, 0x1F4F);
   (0x1F58, 0x1F58); (0x1F5A, 0x1F5A); (0x1F5C, 0x1F5C); (0x1F5E, 0x1F5E);
   (0x1F7E, 0x1F7F); (0x1FB5, 0x1FB5); (0x1FC5, 0x1FC5); (0x1FD4, 0x1FD5);
   (0x1FDC, 0x1FDC); (0x1FF0, 0x1FF1); (0x1FF5, 0x1FF5); (0x1FFF, 0x200F);
   (0x2028, 0x202F); (0x205F, 0x206F); (0x2072, 0x2073); (0x208F, 0x208F);
   (0x209D, 0x209F); (0x20C1, 0x20CF); (0x20F1, 0x20FF); (0x218C, 0x218F);
   (0x2427, 0x243F); (0x244B, 0x245F); (0x2B74, 0x2B75); (0x2B96, 0x2B96);
   (0x2CF4, 0x2CF8); (0x2D26, 0x2D26); (0x2D28, 0x2D2C); (0x2D2E, 0x2D2F);
   (0x2D68, 0x2D6E); (0x2D71, 0x2D7E); (0x2D97, 0x2D9F); (0x2DA7, 0x2DA7);
   (0x2DAF, 0x2DAF); (0x2DB7, 0x2DB7); (0x2DBF, 0x2DBF); (0x2DC7, 0x2DC7);
   (0x2DCF, 0x2DCF); (0x2DD7, 0x2DD7); (0x2DDF, 0x2DDF); (0x2E5E, 0x2E7F);
   (0x2E9A, 0x2E9A); (0x2EF4, 0x2EFF); (0x2FD6, 0x2FEF); (0x2FFC, 0x3000);
   (0x3040, 0x3040); (0x3097, 0x3098); (0x3100, 0x3104); (0x3130, 0x3130);
   (0x318F, 0x318F); (0x31E4, 0x31EF); (0x321F, 0x321F); (0xA48D, 0xA48F);
   (0xA4C7, 0xA4CF); (0xA62C, 0xA63F); (0xA6F8, 0xA6FF); (0xA7CB, 0xA7CF);
   (0xA7D2, 0xA7D2); (0xA7D4, 0xA7D4); (0xA7DA, 0xA7F1); (0xA82D, 0xA82F);
   (0xA83A, 0xA83F); (0xA878, 0xA87F); (0xA8C6, 0xA8CD); (0xA8DA, 0xA8DF);
   (0xA954, 0xA95E); (0xA97D, 0xA97F); (0xA9CE, 0xA9CE); (0xA9DA, 0xA9DD);
   (0xA9FF, 0xA9FF); (0xAA37, 0xAA3F); (0xAA4E, 0xAA4F); (0xAA5A, 0xAA5B);
   (0xAAC3, 0xAADA); (0xAAF7, 0xAB00); (0xAB07, 0xAB08); (0xAB0F, 0xAB10);
   (0xAB17, 0xAB1F); (0xAB27, 0xAB27); (0xAB2F, 0xAB2F); (0xAB6C, 0xAB6F);
   (0xABEE, 0xABEF); (0xABFA, 0xABFF); (0xD7A4, 0xD7AF); (0xD7C7, 0xD7CA);
   (0xD7FC, 0xF8FF); (0xFA6E, 0xFA6F); (0xFADA, 0xFAFF); (0xFB07, 0xFB12);
   (0xFB18, 0xFB1C); (0xFB37, 0xFB37); (0xFB3D, 0xFB3D); (0xFB3F, 0xFB3F);
   (0xFB42, 0xFB42); (0xFB45, 0xFB45); (0xFBC3, 0xFBD2); (0xFD90, 0xFD91);
   (0xFDC8, 0xFDCE); (0xFDD0, 0xFDEF); (0xFE1A, 0xFE1F); (0xFE53, 0xFE53);
   (0xFE67, 0xFE67); (0xFE6C, 0xFE6F); (0xFE75, 0xFE75); (0xFEFD, 0xFF00);
   (0xFFBF, 0xFFC1); (0xFFC8, 0xFFC9); (0xFFD0, 0xFFD1); (0xFFD8, 0xFFD9);
   (0xFFDD, 0xFFDF); (0xFFE7, 0xFFE7); (0xFFEF, 0xFFFB); (0xFFFE, 0xFFFF);
   (0x1000C, 0x1000C); (0x10027, 0x10027); (0x1003B, 0x1003B); (0x1003E, 0x1003E);
   (0x1004E, 0x1004F); (0x1005E, 0x1007F); (0x100FB, 0x100FF); (0x10103, 0x10106);
   (0x10134, 0x10136); (0x1018F, 0x1018F); (0x1019D, 0x1019F); (0x101A1, 0x101CF);
   (0x101FE, 0x1027F); (0x1029D, 0x1029F); (0x102D1, 0x102DF); (0x102FC, 0x102FF);
   (0x10324, 0x1032C); (0x1034B, 0x1034F); (0x1037B, 0x1037F); (0x1039E, 0x1039E);
   (0x103C4, 0x103C7); (0x103D6, 0x103FF); (0x1049E, 0x1049F); (0x104AA, 0x104AF);
   (0x104D4, 0x104D7); (0x104FC, 0x104FF); (0x10528, 0x1052F); (0x10564, 0x1056E);
   (0x1057B, 0x1057B); (0x1058B, 0x1058B); (0x10593, 0x10593); (0x10596, 0x10596);
   (0x105A2, 0x105A2); (0x105B2, 0x105B2); (0x105BA, 0x105BA); (0x105BD, 0x105FF);
   (0x10737, 0x1073F); (0x10756, 0x1075F); (0x10768, 0x1077F); (0x10786, 0x10786);
   (0x107B1, 0x107B1); (0x107BB, 0x107FF); (0x10806, 0x10807); (0x10809, 0x10809);
   (0x10836, 0x10836); (0x10839, 0x1083B); (0x1083D, 0x1083E); (0x10856, 0x10856);
   (0x1089F, 0x108A6); (0x108B0, 0x108DF); (0x108F3, 0x108F3); (0x108F6, 0x108FA);
   (0x1091C, 0x1091E); (0x1093A, 0x1093E); (0x10940, 0x1097F); (0x109B8, 0x109BB);
   (0x109D0, 0x109D1); (0x10A04, 0x10A04); (0x10A07, 0x10A0B); (0x10A14, 0x10A14);
   (0x10A18, 0x10A18); (0x10A36, 0x10A37); (0x10A3B, 0x10A3E); (0x10A49, 0x10A4F);
   (0x10A59, 0x10A5F); (0x10AA0, 0x10ABF); (0x10AE7, 0x10AEA); (0x10AF7, 0x10AFF);
   (0x10B36, 0x10B38); (0x10B56, 0x10B57); (0x10B73, 0x10B77); (0x10B92, 0x10B98);
   (0x10B9D, 0x10BA8); (0x10BB0, 0x10BFF); (0x10C49, 0x10C7F); (0x10CB3, 0x10CBF);
   (0x10CF3, 0x10CF9); (0x10D28, 0x10D2F); (0x10D3A, 0x10E5F); (0x10E7F, 0x10E7F);
   (0x10EAA, 0x10EAA); (0x10EAE, 0x10EAF); (0x10EB2, 0x10EFF); (0x10F28, 0x10F2F);
   (0x10F5A, 0x10F6F); (0x10F8A, 0x10FAF); (0x10FCC, 0x10FDF); (0x10FF7, 0x10FFF);
   (0x1104E, 0x11051); (0x11076, 0x1107E); (0x110BD, 0x110BD); (0x110C3, 0x110CF);
   (0x110E9, 0x110EF); (0x110FA, 0x110FF); (0x11135, 0x11135); (0x11148, 0x1114F);
   (0x11177, 0x1117F); (0x111E0, 0x111E0); (0x111F5, 0x111FF); (0x11212, 0x11212);
   (0x1123F, 0x1127F); (0x11287, 0x11287); (0x11289, 0x11289); (0x1128E, 0x1128E);
   (0x1129E, 0x1129E); (0x112AA, 0x112AF); (0x112EB, 0x112EF); (0x112FA, 0x112FF);
   (0x11304, 0x11304); (0x1130D, 0x1130E); (0x11311, 0x11312); (0x11329, 0x11329);
   (0x11331, 0x11331); (0x11334, 0x11334); (0x1133A, 0x1133A); (0x11345, 0x11346);
   (0x11349, 0x1134A); (0x1134E, 0x1134F); (0x11351, 0x11356); (0x11358, 0x1135C);
   (0x11364, 0x11365); (0x1136D, 0x1136F); (0x11375, 0x113FF); (0x1145C, 0x1145C);
   (0x11462, 0x1147F); (0x114C8, 0x114CF); (0x114DA, 0x1157F); (0x115B6, 0x115B7);
   (0x115DE, 0x115FF); (0x11645, 0x1164F); (0x1165A, 0x1165F); (0x1166D, 0x1167F);
   (0x116BA, 0x116BF); (0x116CA, 0x116FF); (0x1171B, 0x1171C); (0x1172C, 0x1172F);
   (0x11747, 0x117FF); (0x1183C, 0x1189F); (0x118F3, 0x118FE); (0x11907, 0x11908);
   (0x1190A, 0x1190B); (0x11914, 0x11914); (0x11917, 0x11917); (0x11936, 0x11936);
   (0x11939, 0x1193A); (0x11947, 0x1194F); (0x1195A, 0x1199F); (0x119A8, 0x119A9);
   (0x119D8, 0x119D9); (0x119E5, 0x119FF); (0x11A48, 0x11A4F); (0x11AA3, 0x11AAF);
   (0x11AF9, 0x11BFF); (0x11C09, 0x11C09); (0x11C37, 0x11C37); (0x11C46, 0x11C4F);
   (0x11C6D, 0x11C6F); (0x11C90, 0x11C91); (0x11CA8, 0x11CA8); (0x11CB7, 0x11CFF);
   (0x11D07, 0x11D07); (0x11D0A, 0x11D0A); (0x11D37, 0x11D39); (0x11D3B, 0x11D3B);
   (0x11D3E, 0x11D3E); (0x11D48, 0x11D4F); (0x11D5A, 0x11D5F); (0x11D66, 0x11D66);
   (0x11D69, 0x11D69); (0x11D8F, 0x11D8F); (0x11D92, 0x11D92); (0x11D99, 0x11D9F);
   (0x11DAA, 0x11EDF); (0x11EF9, 0x11FAF); (0x11FB1, 0x11FBF); (0x11FF2, 0x11FFE);
   (0x1239A, 0x123FF); (0x1246F, 0x1246F); (0x12475, 0x1247F); (0x12544, 0x12F8F);
   (0x12FF3, 0x12FFF); (0x1342F, 0x143FF); (0x14647, 0x167FF); (0x16A39, 0x16A3F);
   (0x16A5F, 0x16A5F); (0x16A6A, 0x16A6D); (0x16ABF, 0x16ABF); (0x16ACA, 0x16ACF);
   (0x16AEE, 0x16AEF); (0x16AF6, 0x16AFF); (0x16B46, 0x16B4F); (0x16B5A, 0x16B5A);
   (0x16B62, 0x16B62); (0x16B78, 0x16B7C); (0x16B90, 0x16E3F); (0x16E9B, 0x16EFF);
   (0x16F4B, 0x16F4E); (0x16F88, 0x16F8E); (0x16FA0, 0x16FDF); (0x16FE5, 0x16FEF);
   (0x16FF2, 0x16FFF); (0x187F8, 0x187FF); (0x18CD6, 0x18CFF); (0x18D09, 0x1AFEF);
   (0x1AFF4, 0x1AFF4); (0x1AFFC, 0x1AFFC); (0x1AFFF, 0x1AFFF); (0x1B123, 0x1B14F);
   (0x1B153, 0x1B163); (0x1B168, 0x1B16F); (0x1B2FC, 0x1BBFF); (0x1BC6B, 0x1BC6F);
   (0x1BC7D, 0x1BC7F); (0x1BC89, 0x1BC8F); (0x1BC9A, 0x1BC9B); (0x1BCA0, 0x1CEFF);
   (0x1CF2E, 0x1CF2F); (0x1CF47, 0x1CF4F); (0x1CFC4, 0x1CFFF); (0x1D0F6, 0x1D0FF);
   (0x1D127, 0x1D128); (0x1D173, 0x1D17A); (0x1D1EB, 0x1D1FF); (0x1D246, 0x1D2DF);
   (0x1D2F4, 0x1D2FF); (0x1D357, 0x1D35F); (0x1D379, 0x1D3FF); (0x1D455, 0x1D455);
   (0x1D49D, 0x1D49D); (0x1D4A0, 0x1D4A1); (0x1D4A3, 0x1D4A4); (0x1D4A7, 0x1D4A8);
   (0x1D4AD, 0x1D4AD); (0x1D4BA, 0x1D4BA); (0x1D4BC, 0x1D4BC); (0x1D4C4, 0x1D4C4);
   (0x1D506, 0x1D506); (0x1D50B, 0x1D50C); (0x1D515, 0x1D515); (0x1D51D, 0x1D51D);
   (0x1D53A, 0x1D53A); (0x1D53F, 0x1D53F); (0x1D545, 0x1D545); (0x1D547, 0x1D549);
   (0x1D551, 0x1D551); (0x1D6A6, 0x1D6A7); (0x1D7CC, 0x1D7CD); (0x1DA8C, 0x1DA9A);
   (0x1DAA0, 0x1DAA0); (0x1DAB0, 0x1DEFF); (0x1DF1F, 0x1DFFF); (0x1E007, 0x1E007);
   (0x1E019, 0x1E01A); (0x1E022, 0x1E022); (0x1E025, 0x1E025); (0x1E02B, 0x1E0FF);
   (0x1E12D, 0x1E12F); (0x1E13E, 0x1E13F); (0x1E14A, 0x1E14D); (0x1E150, 0x1E28F);
   (0x1E2AF, 0x1E2BF); (0x1E2FA, 0x1E2FE); (0x1E300, 0x1E7DF); (0x1E7E7, 0x1E7E7);
   (0x1E7EC, 0x1E7EC); (0x1E7EF, 0x1E7EF); (0x1E7FF, 0x1E7FF); (0x1E8C5, 0x1E8C6);
   (0x1E8D7, 0x1E8FF); (0x1E94C, 0x1E94F); (0x1E95A, 0x1E95D); (0x1E960, 0x1EC70);
   (0x1ECB5, 0x1ED00); (0x1ED3E, 0x1EDFF); (0x1EE04, 0x1EE04); (0x1EE20, 0x1EE20);
   (0x1EE23, 0x1EE23); (0x1EE25, 0x1EE26); (0x1EE28, 0x1EE28); (0x1EE33, 0x1EE33);
   (0x1EE38, 0x1EE38); (0x1EE3A, 0x1EE3A); (0x1EE3C, 0x1EE41); (0x1EE43, 0x1EE46);
   (0x1EE48, 0x1EE48); (0x1EE4A, 0x1EE4A); (0x1EE4C, 0x1EE4C); (0x1EE50, 0x1EE50);
   (0x1EE53, 0x1EE53); (0x1EE55, 0x1EE56); (0x1EE58, 0x1EE58); (0x1EE5A, 0x1EE5A);
   (0x1EE5C, 0x1EE5C); (0x1EE5E, 0x1EE5E); (0x1EE60, 0x1EE60); (0x1EE63, 0x1EE63);
   (0x1EE65, 0x1EE66); (0x1EE6B, 0x1EE6B); (0x1EE73, 0x1EE73); (0x1EE78, 0x1EE78);
   (0x1EE7D, 0x1EE7D); (0x1EE7F, 0x1EE7F); (0x1EE8A, 0x1EE8A); (0x1EE9C, 0x1EEA0);
   (0x1EEA4, 0x1EEA4); (0x1EEAA, 0x1EEAA); (0x1EEBC, 0x1EEEF); (0x1EEF2, 0x1EFFF);
   (0x1F02C, 0x1F02F); (0x1F094, 0x1F09F); (0x1F0AF, 0x1F0B0); (0x1F0C0, 0x1F0C0);
   (0x1F0D0, 0x1F0D0); (0x1F0F6, 0x1F0FF); (0x1F1AE, 0x1F1E5); (0x1F203, 0x1F20F);
   (0x1F23C, 0x1F23F); (0x1F249, 0x1F24F); (0x1F252, 0x1F25F); (0x1F266, 0x1F2FF);
   (0x1F6D8, 0x1F6DC); (0x1F6ED, 0x1F6EF); (0x1F6FD, 0x1F6FF); (0x1F774, 0x1F77F);
   (0x1F7D9, 0x1F7DF); (0x1F7EC, 0x1F7EF); (0x1F7F1, 0x1F7FF); (0x1F80C, 0x1F80F);
   (0x1F848, 0x1F84F); (0x1F85A, 0x1F85F); (0x1F888, 0x1F88F); (0x1F8AE, 0x1F8AF);
   (0x1F8B2, 0x1F8FF); (0x1FA54, 0x1FA5F); (0x1FA6E, 0x1FA6F); (0x1FA75, 0x1FA77);
   (0x1FA7D, 0x1FA7F); (0x1FA87, 0x1FA8F); (0x1FAAD, 0x1FAAF); (0x1FABB, 0x1FABF);
   (0x1FAC6, 0x1FACF); (0x1FADA, 0x1FADF); (0x1FAE8, 0x1FAEF); (0x1FAF7, 0x1FAFF);
   (0x1FB93, 0x1FB93); (0x1FBCB, 0x1FBEF); (0x1FBFA, 0x1FFFF); (0x2A6E0, 0x2A6FF);
   (0x2B739, 0x2B73F); (0x2B81E, 0x2B81F); (0x2CEA2, 0x2CEAF); (0x2EBE1, 0x2F7FF);
   (0x2FA1E, 0x2FFFF); (0x3134B, 0xE00FF); (0xE01F0, 0x10FFFF)]%N.

(** [str.isprintable] on one character *)
Definition isprintable (c : N) : bool :=
  negb (existsb (λ r, (r.1 <=? c)%N && (c <=? r.2)%N) not_printable).

Definition repr_char (quote c : N) : str :=
  if (c =? quote)%N || (c =? 92)%N then [92%N; c]
  else if (c =? 9)%N then lit "\t"
  else if (c =? 10)%N then lit "\n"
  else if (c =? 13)%N then lit "\r"
  else if isprintable c then [c]
  else if (c <=? 0xFF)%N then lit "\x" ++ hex 2 c
  else if (c <=? 0xFFFF)%N then lit "\u" ++ hex 4 c
  else lit "\U" ++ hex 8 c.

Definition has (c : N) (s : str) : bool := existsb (N.eqb c) s.

(** [repr(s)]: single quotes unless [s] has a single quote and no double one. *)
Definition repr (s : str) : str :=
  let quote := if has 39%N s && negb (has 34%N s) then 34%N else 39%N in
  [quote] ++ flat_map (repr_char quote) s ++ [quote].

(** [needle in s] *)
Fixpoint startswith (pre s : str) : bool :=
  match pre, s with
  | [], _ => true
  | a :: pre', b :: s' => (a =? b)%N && startswith pre' s'
  | _ :: _, [] => false
  end.

Fixpoint contains (needle s : str) : bool :=
  startswith needle s ||
  match s with
  | [] => false
  | _ :: s' => contains needle s'
  end.

(** Three-way comparison of sequences, element by element, as Python
    compares [str] with [str] and [list] with [list]. *)
Fixpoint lex_cmp {A} (cmp : A → A → comparison) (x y : list A) : comparison :=
  match x, y with
  | [], [] => Eq
  | [], _ :: _ => Lt
  | _ :: _, [] => Gt
  | a :: x', b :: y' =>
      match cmp a b with
      | Eq => lex_cmp cmp x' y'
      | c => c
      end
  end.

Definition str_cmp : str → str → comparison := lex_cmp N.compare.
Definition str_lt (a b : str) : Prop := str_cmp a b = Lt.

End PyStr.
Export PyStr.

(** ** The UTF-8 text layer *)

Module Utf8.

Local Open Scope N_scope.

Definition byte_of_N (n : N) : byte := default x00 (Byte.of_N n).

(** One code point, as the strict [utf-8] codec writes it; [None] for a
    surrogate (and for a value no [str] holds). *)
Definition encode_char (c : N) : option (list byte) :=
  if c <? 0x80 then Some [byte_of_N c]
  else if c <? 0x800 then
    Some [byte_of_N (0xC0 + c / 64); byte_of_N (0x80 + c mod 64)]
  else if c <? 0x10000 then
    if is_surrogate c then None
    else Some [byte_of_N (0xE0 + c / 4096);
               byte_of_N (0x80 + (c / 64) mod 64);
               byte_of_N (0x80 + c mod 64)]
  else if c <? 0x110000 then
    Some [byte_of_N (0xF0 + c / 262144);
          byte_of_N (0x80 + (c / 4096) mod 64);
          byte_of_N (0x80 + (c / 64) mod 64);
          byte_of_N (0x80 + c mod 64)]
  else None.

(** [s.encode('utf-8')]; [None] stands for [UnicodeEncodeError]. *)
Fixpoint encode (s : str) : option (list byte) :=
  match s with
  | [] => Some []
  | c :: s' =>
      match encode_char c, encode s' with
      | Some bs, Some rest => Some (bs ++ rest)
      | _, _ => None
      end
  end.

(** Payload of a continuation byte [10xxxxxx]. *)
Definition cont (b : byte) : option N :=
  let n := Byte.to_N b in
  if (0x80 <=? n) && (n <=? 0xBF) then Some (n - 0x80) else None.

(** [bs.decode('utf-8')]; [None] stands for [UnicodeDecodeError]: a stray
    or missing continuation byte, an overlong form, a surrogate, a value
    above U+10FFFF. *)
Fixpoint decode (bs : list byte) : option str :=
  match bs with
  | [] => Some []
  | b0 :: t0 =>
      let n0 := Byte.to_N b0 in
      if n0 <? 0x80 then cons n0 <$> decode t0
      else if n0 <? 0xC2 then None
      else if n0 <? 0xE0 then
        match t0 with
        | b1 :: t1 =>
            match cont b1 with
            | Some x1 => cons ((n0 - 0xC0) * 64 + x1) <$> decode t1
            | None => None
            end
        | _ => None
        end
      else if n0 <? 0xF0 then
        match t0 with
        | b1 :: b2 :: t2 =>
            match cont b1, cont b2 with
            | Some x1, Some x2 =>
                let c := (n0 - 0xE0) * 4096 + x1 * 64 + x2 in
                if (c <? 0x800) || is_surrogate c then None
                else cons c <$> decode t2
            | _, _ => None
            end
        | _ => None
        end
      else if n0 <? 0xF5 then
        match t0 with
        | b1 :: b2 :: b3 :: t3 =>
            match cont b1, cont b2, cont b3 with
            | Some x1, Some x2, Some x3 =>
                let c := (n0 - 0xF0) * 262144 + x1 * 4096 + x2 * 64 + x3 in
                if (c <? 0x10000) || (0x110000 <=? c) then None
                else cons c <$> decode t3
            | _, _, _ => None
            end
        | _ => None
        end
      else None
  end.

(** Reading in text mode with [newline=None]: every [\r\n] and every lone
    [\r] reaches the caller as [\n]. *)
Fixpoint universal_newlines (s : str) : str :=
  match s with
  | [] => []
  | c :: s' =>
      if c =? CR then
        match s' with
        | c' :: s'' =>
            if c' =? LF then LF :: universal_newlines s''
            else LF :: universal_newlines s'
        | [] => [LF]
        end
      else c :: universal_newlines s'
  end.

(** Where the codec gives up on [s], as [UnicodeEncodeError] reports it:
    [start] is the first surrogate the error handler does not let through
    ([ok]), [end] the end of the run of surrogates it stands in. *)
Fixpoint surrogate_run (s : str) : nat :=
  match s with
  | c :: s' => if is_surrogate c then S (surrogate_run s') else O
  | [] => O
  end.

Fixpoint bad_run (ok : N → bool) (pos : nat) (s : str) : option (nat * nat) :=
  match s with
  | [] => None
  | c :: s' =>
      if is_surrogate c && negb (ok c) then Some (pos, (pos + surrogate_run s)%nat)
      else bad_run ok (S pos) s'
  end.

(** [errors='strict'] and [errors='surrogateescape'] *)
Definition strict (_ : N) : bool := false.
Definition surrogateescape (c : N) : bool := (0xDC80 <=? c) && (c <=? 0xDCFF).

(** The number of bytes [os.fsencode] makes of a name ([utf-8] with
    [surrogateescape]: an escaped surrogate stands for one byte). *)
Definition width (c : N) : N :=
  if c <? 0x80 then 1
  else if c <? 0x800 then 2
  else if surrogateescape c then 1
  else if c <? 0x10000 then 3
  else 4.

Fixpoint fs_length (s : str) : N :=
  match s with
  | [] => 0
  | c :: s' => width c + fs_length s'
  end.

End Utf8.

(** ** Paths *)

Module PurePath.

(** An absolute POSIX path: its parts below the root [/]. Before
    [Path.resolve] the parts may hold [..]. *)
Definition path : Type := list str.

Definition sep : N := 47%N.
Definition pardir : str := lit "..".
Definition curdir : str := lit ".".

(** [os.path.isabs] *)
Definition isabs (s : str) : bool :=
  match s with
  | c :: _ => (c =? sep)%N
  | [] => false
  end.

(** The parts [pathlib] keeps of a path string: empty ones and [.] go. *)
Definition parts (s : str) : list str :=
  filter (λ x, x ≠ [] ∧ x ≠ curdir) (split sep s).

(** [Path(s)] for an absolute [s], and [base / s] for a relative one. *)
Definition Path (s : str) : path := parts s.
Definition joinpath (base : path) (s : str) : path := base ++ parts s.

(** [str(p)] *)
Definition to_str (p : path) : str := sep :: join [sep] p.

(** [p.name] and [p.parent] *)
Definition name (p : path) : str := List.last p [].
Definition parent (p : path) : path := removelast p.

(** The walk of [os.path.realpath] where nothing is a symbolic link:
    [..] drops the last part reached so far and stays at the root. *)
Fixpoint walk (reached : path) (rest : list str) : path :=
  match rest with
  | [] => reached
  | x :: rest' =>
      if decide (x = pardir) then walk (parent reached) rest'
      else walk (reached ++ [x]) rest'
  end.

(** The prefixes [os.lstat] is called on during that walk. *)
Fixpoint visited (reached : path) (rest : list str) : list path :=
  match rest with
  | [] => []
  | x :: rest' =>
      if decide (x = pardir) then visited (parent reached) rest'
      else (reached ++ [x]) :: visited (reached ++ [x]) rest'
  end.

(** [p.relative_to(other)]: [other]'s parts must be the first parts of [p];
    [None] stands for the [ValueError]. *)
Fixpoint relative_to (p other : path) {struct other} : option path :=
  match other, p with
  | [], _ => Some p
  | o :: other', x :: p' => if decide (x = o) then relative_to p' other' else None
  | _ :: _, [] => None
  end.

(** Order of [Path] objects, used by [sorted]: parts against parts. *)
Definition path_cmp : path → path → comparison := lex_cmp str_cmp.
Definition path_le (p q : path) : Prop := path_cmp p q ≠ Gt.

#[global] Instance path_le_dec p q : Decision (path_le p q).
Proof. unfold path_le. destruct (path_cmp p q); (left; discriminate) || (right; tauto). Defined.

End PurePath.
Export PurePath.

(** ** Exceptions and the monad of the handlers *)

Module Py.

(** The exception classes that occur, with the part of the class tree
    the [except] clauses of the source and of [pathlib] look at. *)
Inductive exn_class :=
| Exception | ValueError | TypeError | KeyError | OSError
| UnicodeEncodeError | UnicodeDecodeError
| FileNotFoundError | FileExistsError | NotADirectoryError | IsADirectoryError.

#[global] Instance exn_class_eq_dec : EqDecision exn_class.
Proof. solve_decision. Defined.

Definition bases (c : exn_class) : list exn_class :=
  match c with
  | Exception => []
  | ValueError | TypeError | KeyError | OSError => [Exception]
  | UnicodeEncodeError | UnicodeDecodeError => [ValueError; Exception]
  | FileNotFoundError | FileExistsError | NotADirectoryError | IsADirectoryError =>
      [OSError; Exception]
  end.

Definition issubclass (c d : exn_class) : bool :=
  bool_decide (c = d) || bool_decide (d ∈ bases c).

(** An exception object: its class and [str(e)]. *)
Record exn := Exn { exn_type : exn_class; exn_str : str }.

(** [KeyError(key)]: its [str] is the [repr] of the key. *)
Definition key_error (key : str) : exn := Exn KeyError (repr key).

(** [OSError(errno, strerror, filename)] *)
Definition os_error (c : exn_class) (errno : N) (strerror filename : str) : exn :=
  Exn c (lit "[Errno " ++ str_of_N errno ++ lit "] " ++ strerror ++ lit ": " ++ repr filename).

(** [UnicodeEncodeError('utf-8', object, start, end, 'surrogates not allowed')] *)
Definition unicode_encode_error (object : str) (start end_ : nat) : exn :=
  Exn UnicodeEncodeError
    (if decide (end_ = S start) then
       let bad := nth start object 0%N in
       lit "'utf-8' codec can't encode character '" ++
       (if (bad <=? 0xFF)%N then lit "\x" ++ hex 2 bad
        else if (bad <=? 0xFFFF)%N then lit "\u" ++ hex 4 bad
        else lit "\U" ++ hex 8 bad) ++
       lit "' in position " ++ str_of_nat start ++ lit ": surrogates not allowed"
     else
       lit "'utf-8' codec can't encode characters in position " ++ str_of_nat start ++
       lit "-" ++ str_of_nat (end_ - 1) ++ lit ": surrogates not allowed").

(** The filesystem as the handlers see it, and the log of the calls they
    make on it. *)
Inductive node := File (data : list byte) | Dir.

Inductive fs_call :=
| Stat (p : path) | OpenRead (p : path) | OpenWrite (p : path)
| Mkdir (p : path) | Listdir (p : path).

Record world := World { files : gmap path node; calls : list fs_call }.

Inductive outcome (A : Type) := Returns (a : A) | Raises (e : exn).
Arguments Returns {A} a.
Arguments Raises {A} e.

Definition M (A : Type) : Type := world → outcome A * world.

#[global] Instance M_ret : MRet M := λ A a w, (Returns a, w).
#[global] Instance M_bind : MBind M := λ A B f m w,
  match m w with
  | (Returns a, w') => f a w'
  | (Raises e, w') => (Raises e, w')
  end.

Definition raise {A} (e : exn) : M A := λ w, (Raises e, w).

(** [try: body / except c1: h1 / except c2: h2 ...]: the first clause whose
    class the exception is an instance of handles it; what a clause raises
    is not handled by its siblings. *)
Fixpoint select {A} (clauses : list (exn_class * (exn → M A))) (e : exn) : M A :=
  match clauses with
  | [] => raise e
  | (c, h) :: rest => if issubclass (exn_type e) c then h e else select rest e
  end.

Definition try_ {A} (body : M A) (clauses : list (exn_class * (exn → M A))) : M A :=
  λ w, match body w with
       | (Returns a, w') => (Returns a, w')
       | (Raises e, w') => select clauses e w'
       end.

Definition get_files : M (gmap path node) := λ w, (Returns (files w), w).
Definition set_node (p : path) (n : node) : M unit :=
  λ w, (Returns (), World (<[p := n]> (files w)) (calls w)).
Definition log (c : fs_call) : M unit :=
  λ w, (Returns (), World (files w) (calls w ++ [c])).

(** A JSON argument as the handlers receive it: a [str], or another
    value, of which only its class name and its [str()] can matter. *)
Inductive value := VStr (s : str) | VOther (class_name as_str : str).

(** [f"{v}"] *)
Definition format (v : value) : str :=
  match v with
  | VStr s => s
  | VOther _ s => s
  end.

(** [len(v)] *)
Definition len (v : value) : M nat :=
  match v with
  | VStr s => mret (length s)
  | VOther c _ =>
      raise (Exn TypeError (lit "object of type '" ++ c ++ lit "' has no len()"))
  end.

End Py.
Export Py.

(** ** Filesystem calls *)

Module FS.

Inductive errno := ENOENT | EEXIST | ENOTDIR | EISDIR | ENAMETOOLONG.

Definition os_error_of (e : errno) (p : path) : exn :=
  match e with
  | ENOENT => os_error FileNotFoundError 2 (lit "No such file or directory") (to_str p)
  | EEXIST => os_error FileExistsError 17 (lit "File exists") (to_str p)
  | ENOTDIR => os_error NotADirectoryError 20 (lit "Not a directory") (to_str p)
  | EISDIR => os_error IsADirectoryError 21 (lit "Is a directory") (to_str p)
  | ENAMETOOLONG => os_error OSError 36 (lit "File name too long") (to_str p)
  end.

(** The limits of the host: a name holds at most [NAME_MAX] bytes, and
    the path given to a system call, with its final NUL, at most
    [PATH_MAX]. *)
Definition NAME_MAX : N := 255.
Definition PATH_MAX : N := 4096.

Definition name_too_long (x : str) : bool := (NAME_MAX <? Utf8.fs_length x)%N.
Definition path_too_long (p : path) : bool := (PATH_MAX <=? Utf8.fs_length (to_str p))%N.

(** The root directory always exists. *)
Definition node_at (fs : gmap path node) (p : path) : option node :=
  match p with
  | [] => Some Dir
  | _ => fs !! p
  end.

(** The kernel's walk through the directories [reached], [reached/x1],
    ... named by a path: each must be a directory, and a name is looked
    up in it only if it is not too long. *)
Fixpoint walk_dirs (fs : gmap path node) (reached : path) (rest : list str) : option errno :=
  match node_at fs reached with
  | Some Dir =>
      match rest with
      | [] => None
      | x :: rest' =>
          if name_too_long x then Some ENAMETOOLONG
          else walk_dirs fs (reached ++ [x]) rest'
      end
  | Some (File _) => Some ENOTDIR
  | None => Some ENOENT
  end.

(** Path lookup as far as the directory of [p]: the length of the whole
    path is checked first, then the directories above [p] are walked, then
    the last name is taken. *)
Definition lookup_parent (fs : gmap path node) (p : path) : option errno :=
  if path_too_long p then Some ENAMETOOLONG
  else
    match walk_dirs fs [] (parent p) with
    | Some e => Some e
    | None => if name_too_long (name p) then Some ENAMETOOLONG else None
    end.

(** Path lookup: the directory of [p], then [p] itself. *)
Definition namei (fs : gmap path node) (p : path) : errno + node :=
  match lookup_parent fs p with
  | Some e => inl e
  | None =>
      match node_at fs p with
      | Some n => inr n
      | None => inl ENOENT
      end
  end.

(** The argument conversion of [os.lstat]: the name is encoded with the
    filesystem encoding ([utf-8], [surrogateescape]) and must hold no NUL. *)
Definition path_arg_error (s : str) : option exn :=
  match Utf8.bad_run Utf8.surrogateescape 0 s with
  | Some (a, b) => Some (unicode_encode_error s a b)
  | None =>
      if has NUL s then Some (Exn ValueError (lit "embedded null byte")) else None
  end.

(** [p.resolve()]: [os.path.realpath] probes each prefix it reaches with
    [os.lstat], and [resolve] the result with [os.stat]; none is a link, so
    the result is the lexical walk. What the probes raise for a name that
    cannot be passed to the system ([path_arg_error]) comes out; their
    [OSError]s do not. The probes are not entered in the call log. *)
Definition resolve (p : path) : M path :=
  match omap (λ q, path_arg_error (to_str q)) (visited [] p) with
  | e :: _ => raise e
  | [] => mret (walk [] p)
  end.

(** [os.fspath] and [os.path.isabs] *)
Definition fspath (v : value) : M str :=
  match v with
  | VStr s => mret s
  | VOther c _ =>
      raise (Exn TypeError (lit "expected str, bytes or os.PathLike object, not " ++ c))
  end.

Definition os_path_isabs (v : value) : M bool := s ← fspath v; mret (isabs s).

(** [p.relative_to(other)] *)
Definition Path_relative_to (p other : path) : M path :=
  match relative_to p other with
  | Some rel => mret rel
  | None =>
      raise (Exn ValueError
               (repr (to_str p) ++ lit " is not in the subpath of " ++ repr (to_str other)))
  end.

(** [os.stat(p)]; the result stands for the [stat_result]. *)
Definition os_stat (p : path) : M node :=
  log (Stat p);;
  fs ← get_files;
  match namei fs p with
  | inl e => raise (os_error_of e p)
  | inr n => mret n
  end.

(** [stat_result.st_size]: the length of a regular file. What a directory
    reports depends on the filesystem; the server never reads it. *)
Definition st_size (n : node) : N :=
  match n with
  | File data => N.of_nat (length data)
  | Dir => 4096%N
  end.

(** [pathlib._IGNORED_ERRNOS], the errnos that mean "not there" (of which
    EBADF and ELOOP do not arise here), and [pathlib._ignore_error]: an
    [OSError] made from an errno has the class of that errno. *)
Definition _IGNORED_ERRNOS : list errno := [ENOENT; ENOTDIR].

#[global] Instance errno_eq_dec : EqDecision errno.
Proof. solve_decision. Defined.

Definition _ignore_error (e : exn) : bool :=
  bool_decide (exn_type e = FileNotFoundError) ||
  bool_decide (exn_type e = NotADirectoryError).

Definition stat_test (test : node → bool) (p : path) : M bool :=
  try_ (n ← os_stat p; mret (test n))
       [(OSError, λ e, if _ignore_error e then mret false else raise e)].

(** [p.exists()], [p.is_file()], [p.is_dir()] *)
Definition exists_ : path → M bool := stat_test (λ _, true).
Definition is_file : path → M bool :=
  stat_test (λ n, match n with File _ => true | Dir => false end).
Definition is_dir : path → M bool :=
  stat_test (λ n, match n with Dir => true | File _ => false end).

(** [p.read_text(encoding='utf-8')] *)
Definition read_text (p : path) : M str :=
  log (OpenRead p);;
  fs ← get_files;
  match namei fs p with
  | inl e => raise (os_error_of e p)
  | inr Dir => raise (os_error_of EISDIR p)
  | inr (File data) =>
      match Utf8.decode data with
      | Some s => mret (Utf8.universal_newlines s)
      | None =>
          (* byte, position and reason of the message are not modelled:
             [_read_file] replaces this exception *)
          raise (Exn UnicodeDecodeError (lit "'utf-8' codec can't decode bytes"))
      end
  end.

(** [open(p, 'w', encoding='utf-8')] creates or truncates the file, then
    [f.write(data)] encodes; on POSIX [\n] is written as it is. *)
Definition open_w (p : path) : M unit :=
  log (OpenWrite p);;
  fs ← get_files;
  match lookup_parent fs p with
  | Some e => raise (os_error_of e p)
  | None =>
      match node_at fs p with
      | Some Dir => raise (os_error_of EISDIR p)
      | _ => set_node p (File [])
      end
  end.

Definition write (p : path) (data : str) : M nat :=
  match Utf8.encode data with
  | Some bytes => set_node p (File bytes);; mret (length data)
  | None =>
      match Utf8.bad_run Utf8.strict 0 data with
      | Some (a, b) => raise (unicode_encode_error data a b)
      | None => raise (unicode_encode_error data 0 (length data))
      end
  end.

(** [p.write_text(data, encoding='utf-8')] *)
Definition write_text (p : path) (data : value) : M nat :=
  match data with
  | VOther c _ => raise (Exn TypeError (lit "data must be str, not " ++ c))
  | VStr s => open_w p;; write p s
  end.

(** [os.mkdir(p)] *)
Definition os_mkdir (p : path) : M unit :=
  log (Mkdir p);;
  fs ← get_files;
  match lookup_parent fs p with
  | Some e => raise (os_error_of e p)
  | None =>
      match node_at fs p with
      | Some _ => raise (os_error_of EEXIST p)
      | None => set_node p Dir
      end
  end.

(** [Path.mkdir(parents, exist_ok)]. The path is taken by its parts in
    reverse, so that the call on [self.parent] is a structural one. *)
Definition mkdir_exists (self : path) (exist_ok : bool) (e : exn) : M unit :=
  d ← is_dir self;
  if negb exist_ok || negb d then raise e else mret ().

Fixpoint mkdir_rev (rself : list str) (parents exist_ok : bool) : M unit :=
  let self := rev rself in
  try_ (os_mkdir self)
    [(FileNotFoundError, λ e,
        match rself with
        | [] => raise e
        | _ :: rparent =>
            if negb parents then raise e
            else
              mkdir_rev rparent true true;;
              try_ (os_mkdir self)
                [(FileNotFoundError, λ e', raise e');
                 (OSError, mkdir_exists self exist_ok)]
        end);
     (OSError, mkdir_exists self exist_ok)].

Definition mkdir (self : path) (parents exist_ok : bool) : M unit :=
  mkdir_rev (rev self) parents exist_ok.

(** The names in directory [d], in the order the map yields them. *)
Definition child_name (d : path) (entry : path * node) : option str :=
  match relative_to entry.1 d with
  | Some [x] => Some x
  | _ => None
  end.

(** [p.iterdir()], consumed at once *)
Definition iterdir (p : path) : M (list path) :=
  log (Listdir p);;
  fs ← get_files;
  match namei fs p with
  | inl e => raise (os_error_of e p)
  | inr (File _) => raise (os_error_of ENOTDIR p)
  | inr Dir => mret ((λ x, p ++ [x]) <$> omap (child_name p) (map_to_list fs))
  end.

End FS.
Export FS.

(** ** The server *)

Module Server.

(** [mcp.types.TextContent] and [mcp.types.Tool], by the fields the server sets. *)
Record TextContent := mkTextContent { type : str; text : str }.

Record Tool := mkTool {
  name : str;
  description : str;
  properties : list (str * (str * str));   (* name, JSON type, description *)
  required : list str
}.

Record FilesystemMCPServer := mkServer { allowed_directory : path }.

(** [FilesystemMCPServer.__init__]; [cwd] is the process's working
    directory, against which [Path.resolve] completes a relative path. *)
Definition __init__ (cwd : path) (allowed_directory : str) : M FilesystemMCPServer :=
  root ← resolve (if isabs allowed_directory then Path allowed_directory
                  else joinpath cwd allowed_directory);
  mret (mkServer root).

Definition _validate_path (self : FilesystemMCPServer) (file_path : value) : M path :=
  absolute ← os_path_isabs file_path;
  full_path ← (if absolute : bool then resolve (Path (format file_path))
               else resolve (joinpath (allowed_directory self) (format file_path)));
  try_ (Path_relative_to full_path (allowed_directory self);; mret ())
    [(ValueError, λ _,
        raise (Exn ValueError
                 (lit "Access denied: " ++ format file_path ++
                  lit " is outside allowed directory " ++
                  to_str (allowed_directory self))))];;
  mret full_path.

Definition read_file_tool : Tool :=
  mkTool (lit "read_file")
    (lit "Read the complete contents of a text file. Returns file content as string.")
    [(lit "path", (lit "string", lit "Path to the file to read (relative or absolute)"))]
    [lit "path"].

Definition list_directory_tool : Tool :=
  mkTool (lit "list_directory")
    (lit "List all files and directories in a given directory path.")
    [(lit "path", (lit "string",
       lit "Directory path to list (relative or absolute). Use '.' for current directory."))]
    [lit "path"].

Definition write_file_tool : Tool :=
  mkTool (lit "write_file")
    (lit "Write content to a file. Creates file if it doesn't exist, overwrites if it does.")
    [(lit "path", (lit "string", lit "Path where to write the file"));
     (lit "content", (lit "string", lit "Content to write to the file"))]
    [lit "path"; lit "content"].

Definition list_tools : list Tool :=
  [read_file_tool; list_directory_tool; write_file_tool].

Definition _read_file (self : FilesystemMCPServer) (path : value) : M (list TextContent) :=
  file_path ← _validate_path self path;
  found ← exists_ file_path;
  if negb found then
    raise (Exn FileNotFoundError (lit "File not found: " ++ format path))
  else
    regular ← is_file file_path;
    if negb regular then
      raise (Exn ValueError (lit "Not a file: " ++ format path))
    else
      try_ (content ← read_text file_path;
            mret [mkTextContent (lit "text") content])
        [(UnicodeDecodeError, λ _,
            raise (Exn ValueError (lit "File is not a text file: " ++ format path)))].

(** One round of the loop of [_list_directory]. *)
Definition list_item (item : path) : M str :=
  d ← is_dir item;
  let item_type := if d : bool then lit "DIR" else lit "FILE" in
  f ← is_file item;
  size ← (if f : bool then st ← os_stat item; mret (st_size st) else mret 0%N);
  mret (ljust 6 item_type ++ lit " " ++ rjust 10 (str_of_N size) ++
        lit " bytes  " ++ PurePath.name item).

Fixpoint for_each {A B} (body : A → M B) (l : list A) : M (list B) :=
  match l with
  | [] => mret []
  | x :: l' => y ← body x; ys ← for_each body l'; mret (y :: ys)
  end.

Definition sorted (l : list path) : list path := merge_sort path_le l.

Definition _list_directory (self : FilesystemMCPServer) (path : value) : M (list TextContent) :=
  dir_path ← _validate_path self path;
  found ← exists_ dir_path;
  if negb found then
    raise (Exn FileNotFoundError (lit "Directory not found: " ++ format path))
  else
    d ← is_dir dir_path;
    if negb d then
      raise (Exn ValueError (lit "Not a directory: " ++ format path))
    else
      entries ← iterdir dir_path;
      items ← for_each list_item (sorted entries);
      let result := lit "Contents of " ++ to_str dir_path ++ [58%N; LF] ++ join [LF] items in
      mret [mkTextContent (lit "text") result].

Definition _write_file (self : FilesystemMCPServer) (path content : value) : M (list TextContent) :=
  file_path ← _validate_path self path;
  mkdir (parent file_path) true true;;
  write_text file_path content;;
  n ← len content;
  mret [mkTextContent (lit "text")
          (lit "Successfully wrote " ++ str_of_nat n ++ lit " characters to " ++
           PurePath.name file_path)].

(** [arguments[key]] *)
Definition getitem (arguments : gmap str value) (key : str) : M value :=
  match arguments !! key with
  | Some v => mret v
  | None => raise (key_error key)
  end.

(** The body of the [try] of [call_tool]. *)
Definition dispatch (self : FilesystemMCPServer) (name : str) (arguments : gmap str value)
  : M (list TextContent) :=
  if decide (name = lit "read_file") then
    path ← getitem arguments (lit "path");
    _read_file self path
  else if decide (name = lit "list_directory") then
    path ← getitem arguments (lit "path");
    _list_directory self path
  else if decide (name = lit "write_file") then
    path ← getitem arguments (lit "path");
    content ← getitem arguments (lit "content");
    _write_file self path content
  else raise (Exn ValueError (lit "Unknown tool: " ++ name)).

Definition call_tool (self : FilesystemMCPServer) (name : str) (arguments : gmap str value)
  : M (list TextContent) :=
  try_ (dispatch self name arguments)
    [(Exception, λ e, mret [mkTextContent (lit "text") (lit "Error: " ++ exn_str e)])].

End Server.
Export Server.

(** ** The tools of [direct_approach.py] *)

Module Direct.

(** The tools get their arguments as [str] (LangChain checks them against
    the signature). [DOCUMENTS_DIR] is [Path(Config.DOCUMENTS_DIR)], which
    [Config] makes absolute with [os.path.abspath]. A [return] in the
    [except] clause of the inner [try] is the [Some] answer below. *)
Definition outside : str := lit "Error: Access denied - path outside allowed directory".

Definition list_directory (DOCUMENTS_DIR : path) (path : str) : M str :=
  try_
    (let dir_path :=
       if decide (path = lit ".") then DOCUMENTS_DIR
       else if isabs path then Path path
       else joinpath DOCUMENTS_DIR path in
     dir_path ← resolve dir_path;
     allowed_dir ← resolve DOCUMENTS_DIR;
     answer ← try_ (Path_relative_to dir_path allowed_dir;; mret None)
                [(ValueError, λ _, mret (Some outside))];
     match answer with
     | Some denied => mret denied
     | None =>
         found ← exists_ dir_path;
         if negb found then mret (lit "Error: Directory not found: " ++ path)
         else
           d ← is_dir dir_path;
           if negb d then mret (lit "Error: Not a directory: " ++ path)
           else
             entries ← iterdir dir_path;
             items ← for_each list_item (sorted entries);
             mret (lit "Contents of " ++ to_str dir_path ++ [58%N; LF] ++ join [LF] items)
     end)
    [(Exception, λ e, mret (lit "Error listing directory: " ++ exn_str e))].

Definition write_file (DOCUMENTS_DIR : path) (path content : str) : M str :=
  try_
    (let file_path :=
       if isabs path then Path path else joinpath DOCUMENTS_DIR path in
     file_path ← resolve file_path;
     allowed_dir ← resolve DOCUMENTS_DIR;
     answer ← try_ (Path_relative_to file_path allowed_dir;; mret None)
                [(ValueError, λ _, mret (Some outside))];
     match answer with
     | Some denied => mret denied
     | None =>
         mkdir (parent file_path) true true;;
         write_text file_path (VStr content);;
         n ← len (VStr content);
         mret (lit "Successfully wrote " ++ str_of_nat n ++ lit " characters to " ++
               PurePath.name file_path)
     end)
    [(Exception, λ e, mret (lit "Error writing file: " ++ exn_str e))].

End Direct.

(** ** Vocabulary of the statements *)

(** The path [_validate_path] hands to [resolve] for a requested string. *)
Definition candidate (self : FilesystemMCPServer) (p : str) : path :=
  if isabs p then Path p else joinpath (allowed_directory self) p.

(** [q] is [root] or lies below it, part by part. *)
Definition within (root q : path) : Prop := ∃ rel, q = root ++ rel.

(** The exception of a sandbox violation. *)
Definition access_denied (self : FilesystemMCPServer) (p : str) : exn :=
  Exn ValueError
    (lit "Access denied: " ++ p ++ lit " is outside allowed directory " ++
     to_str (allowed_directory self)).

(** The result [call_tool] gives for a failure with message [msg]. *)
Definition failure (msg : str) : list TextContent :=
  [mkTextContent (lit "text") (lit "Error: " ++ msg)].

(** The world after further calls have been logged. *)
Definition logged (w : world) (cs : list fs_call) : world :=
  World (files w) (calls w ++ cs).

(** What [resolve] answers; it reads nothing of the modelled world. *)
Definition resolved (p : path) : outcome path :=
  match omap (λ q, path_arg_error (to_str q)) (visited [] p) with
  | e :: _ => Raises e
  | [] => Returns (walk [] p)
  end.

(** One text content, the shape of every result. *)
Definition text_result (l : list TextContent) : Prop :=
  ∃ s, l = [mkTextContent (lit "text") s].

Definition returns_text (m : M (list TextContent)) : Prop :=
  ∀ w l w', m w = (Returns l, w') → text_result l.

(** Servers and worlds of the scenarios. *)
Definition ascii_bytes (s : String.string) : list byte :=
  map byte_of_ascii (list_ascii_of_string s).

Definition root_server : FilesystemMCPServer := mkServer [lit "root"].
Definition data_server : FilesystemMCPServer := mkServer [lit "data"].

Definition empty_world : world := World ∅ [].

(** [/data] holding [x.txt] (10 bytes) and the directory [y]. *)
Definition data_world : world :=
  World (<[ [lit "data"; lit "y"] := Dir ]>
         (<[ [lit "data"; lit "x.txt"] := File (ascii_bytes "0123456789") ]>
          (<[ [lit "data"] := Dir ]> ∅))) [].

(** [/data] holding [note.txt], whose text reads like a failure. *)
Definition note_world : world :=
  World (<[ [lit "data"; lit "note.txt"] := File (ascii_bytes "Error: File not found: b.txt") ]>
         (<[ [lit "data"] := Dir ]> ∅)) [].

(** The argument mappings [{"path": p}] and [{"path": p, "content": c}]. *)
Definition path_arg (p : value) : gmap str value := {[ lit "path" := p ]}.
Definition write_args (p c : value) : gmap str value :=
  <[ lit "content" := c ]> {[ lit "path" := p ]}.

(** A name of 256 bytes, one more than the host takes. *)
Definition long_name : str := replicate 256 97%N.

(** [/data] holding [a.txt], a text file with a Windows line ending. *)
Definition crlf_world : world :=
  World (<[ [lit "data"; lit "a.txt"] := File [x78; x0d; x0a; x79] ]>
         (<[ [lit "data"] := Dir ]> ∅)) [].

(** [write_file("sub/out.txt", 5)] on [data_world]. *)
Definition mistyped_request : outcome (list TextContent) * world :=
  call_tool data_server (lit "write_file")
    (write_args (VStr (lit "sub/out.txt")) (VOther (lit "int") (lit "5"))) data_world.

(** The result of a successful [write_file]. *)
Definition written (s : str) (q : path) : list TextContent :=
  [mkTextContent (lit "text")
     (lit "Successfully wrote " ++ str_of_nat (length s) ++ lit " characters to " ++
      PurePath.name q)].

(** [write_file("a.txt", "x\ry")] and [write_file("sub/out.txt", "hello")]
    on [data_world]. *)
Definition cr_written : outcome (list TextContent) * world :=
  _write_file data_server (VStr (lit "a.txt")) (VStr [120; CR; 121]%N) data_world.

Definition hello_written : outcome (list TextContent) * world :=
  _write_file data_server (VStr (lit "sub/out.txt")) (VStr (lit "hello")) data_world.

(** A directory under [/data] whose absolute path has 4090 bytes, in parts
    of 200 bytes: the path of a file [f] in it has 4092, under [PATH_MAX];
    that of its entry [0123456789] has 4101. The system call of such an
    entry names it from a directory nearer by, as [os.chdir] or a
    descriptor allows; its absolute path the host refuses. *)
Definition deep_dir : path :=
  [lit "data"] ++ replicate 20 (replicate 200 100%N) ++ [replicate 64 101%N].

Definition deep_world : world :=
  World (<[ deep_dir ++ [lit "0123456789"] := File (ascii_bytes "sib") ]>
           (list_to_map ((λ n, (take n deep_dir, Dir)) <$> seq 1 (length deep_dir)))) [].

(** [write_file] of [hello] to the file [f] of [deep_dir]. *)
Definition deep_written : outcome (list TextContent) * world :=
  _write_file data_server (VStr (to_str (deep_dir ++ [lit "f"]))) (VStr (lit "hello"))
    deep_world.


(** The line of the listing for the entry [x] of directory [d]: its kind,
    its size in bytes (0 unless it is a regular file), its name. *)
Definition entry_line (fs : gmap path node) (d : path) (x : str) : str :=
  match fs !! (d ++ [x]) with
  | Some Dir => lit "DIR   " ++ lit " " ++ rjust 10 (lit "0") ++ lit " bytes  " ++ x
  | Some (File data) =>
      lit "FILE  " ++ lit " " ++ rjust 10 (str_of_nat (length data)) ++ lit " bytes  " ++ x
  | None => lit "FILE  " ++ lit " " ++ rjust 10 (lit "0") ++ lit " bytes  " ++ x
  end.

(** The names of the entries of [d], as the map yields them. *)
Definition names_in (fs : gmap path node) (d : path) : list str :=
  omap (child_name d) (map_to_list fs).

(** A path the host accepts by its lengths: fewer than [PATH_MAX] bytes
    in all, and no name of more than [NAME_MAX]. *)
Definition in_limits (p : path) : Prop :=
  path_too_long p = false ∧ Forall (λ x, name_too_long x = false) p.

#[global] Instance in_limits_dec (p : path) : Decision (in_limits p).
Proof. unfold in_limits. apply _. Defined.

(** Canonical paths, and what a computation may do to the world. *)

(** A part as [pathlib] keeps it: not empty, not [.], without a slash. *)
Definition plain (x : str) : Prop := x ≠ [] ∧ x ≠ curdir ∧ sep ∉ x.

(** A canonical absolute path: plain parts, none of them [..]. *)
Definition canonical (q : path) : Prop := Forall (λ x, plain x ∧ x ≠ pardir) q.

(** A server as [__init__] leaves it: its root is canonical and every
    directory on the way to it has a name the filesystem calls take. *)
Definition initialised (self : FilesystemMCPServer) : Prop :=
  canonical (allowed_directory self) ∧
  resolved (allowed_directory self) = Returns (allowed_directory self).

(** A computation that leaves the files as they are, whatever it answers. *)
Definition keeps_files {A} (m : M A) : Prop :=
  ∀ w o w', m w = (o, w') → files w' = files w.

(** [r] is in the sandbox or on the way to it. *)
Definition near (root r : path) : Prop := within root r ∨ r `prefix_of` root.

(** A call the sandbox allows: any call inside it; on the way to the root
    only [mkdir] and [stat]. *)
Definition call_ok (root : path) (c : fs_call) : Prop :=
  match c with
  | Mkdir p | Stat p => near root p
  | OpenRead p | OpenWrite p | Listdir p => within root p
  end.

(** Between [w] and [w'] nothing happened outside the sandbox but calls
    [call_ok] and new directories on the way to the root. *)
Definition confined (root : path) (w w' : world) : Prop :=
  (∃ cs, calls w' = calls w ++ cs ∧ Forall (call_ok root) cs) ∧
  (∀ r n, files w !! r = Some n → within root r ∨ files w' !! r = Some n) ∧
  (∀ r n, files w' !! r = Some n →
          within root r ∨ files w !! r = Some n ∨ (n = Dir ∧ r `prefix_of` root)).

Definition stays_confined {A} (root : path) (m : M A) : Prop :=
  ∀ w o w', m w = (o, w') → confined root w w'.

(** A tree in which the host can name every entry by its absolute path. *)
Definition all_in_limits (fs : gmap path node) : Prop :=
  ∀ r n, fs !! r = Some n → in_limits r.

Definition keeps_in_limits {A} (m : M A) : Prop :=
  ∀ w o w', m w = (o, w') → all_in_limits (files w) → all_in_limits (files w').

(** A string tool and [call_tool] giving the same text. *)
Definition same_answer (a : outcome str * world)
    (b : outcome (list TextContent) * world) : Prop :=
  ∃ t, a.1 = Returns t ∧ b.1 = Returns [mkTextContent (lit "text") t].

(** A call that opens, lists or makes something does so in the sandbox
    (or makes a directory on the way to it); [stat] touches nothing. *)
Definition touches_inside (root : path) (c : fs_call) : Prop :=
  match c with
  | Stat _ => True
  | Mkdir p => near root p
  | OpenRead p | OpenWrite p | Listdir p => within root p
  end.

(** * Properties *)

(** ** Running the monad *)

Section Run.

Context {A B : Type}.

Lemma run_bind (m : M A) (f : A → M B) w :
  (m ≫= f) w =
    match m w with
    | (Returns a, w') => f a w'
    | (Raises e, w') => (Raises e, w')
    end.
Proof. reflexivity. Qed.

Lemma run_bind_returns (m : M A) (f : A → M B) w a w' :
  m w = (Returns a, w') → (m ≫= f) w = f a w'.
Proof. intros H. rewrite run_bind, H. reflexivity. Qed.

Lemma run_bind_raises (m : M A) (f : A → M B) w e w' :
  m w = (Raises e, w') → (m ≫= f) w = (Raises e, w').
Proof. intros H. rewrite run_bind, H. reflexivity. Qed.

Lemma run_try (body : M A) clauses w :
  try_ body clauses w =
    match body w with
    | (Returns a, w') => (Returns a, w')
    | (Raises e, w') => select clauses e w'
    end.
Proof. reflexivity. Qed.

End Run.

Lemma issubclass_Exception c : issubclass c Exception = true.
Proof. destruct c; reflexivity. Qed.

Lemma logged_nil w : logged w [] = w.
Proof. destruct w. unfold logged. simpl. by rewrite app_nil_r. Qed.

Lemma logged_logged w cs cs' : logged (logged w cs) cs' = logged w (cs ++ cs').
Proof. unfold logged. simpl. by rewrite app_assoc. Qed.

(** ** Path validation *)

Lemma relative_to_Some p other rel :
  relative_to p other = Some rel ↔ p = other ++ rel.
Proof.
  revert p. induction other as [|o other IH]; intros p; simpl.
  - split; [intros [= ->]; done | intros ->; done].
  - destruct p as [|x p']; [split; [discriminate | intros H; discriminate H]|].
    case_decide as Hx.
    + subst x. rewrite IH. split; [intros ->; done | intros H; by simplify_eq].
    + split; [discriminate | intros H; simplify_eq].
Qed.

Lemma relative_to_None p other :
  relative_to p other = None ↔ ¬ within other p.
Proof.
  split.
  - intros H [rel Hrel]. apply relative_to_Some in Hrel. congruence.
  - intros H. destruct (relative_to p other) as [rel|] eqn:E; [|done].
    exfalso. apply H. exists rel. by apply relative_to_Some.
Qed.

Lemma resolve_run p w : resolve p w = (resolved p, w).
Proof.
  unfold resolve, resolved.
  destruct (omap _ (visited [] p)); reflexivity.
Qed.

Lemma validate_run self p w :
  _validate_path self (VStr p) w =
    match resolved (candidate self p) with
    | Raises e => (Raises e, w)
    | Returns q =>
        match relative_to q (allowed_directory self) with
        | Some _ => (Returns q, w)
        | None => (Raises (access_denied self p), w)
        end
    end.
Proof.
  unfold _validate_path, os_path_isabs, candidate. simpl fspath.
  rewrite run_bind. rewrite run_bind. unfold mret at 1, M_ret at 1. cbv beta iota.
  unfold mret at 1, M_ret at 1. cbv beta iota.
  rewrite run_bind. simpl format.
  destruct (isabs p); rewrite resolve_run;
    (destruct (resolved _) as [q|e]; [|reflexivity]);
    rewrite run_bind, run_try, run_bind; unfold Path_relative_to;
    destruct (relative_to q (allowed_directory self)); reflexivity.
Qed.

Lemma validate_other self c s w :
  _validate_path self (VOther c s) w =
    (Raises (Exn TypeError (lit "expected str, bytes or os.PathLike object, not " ++ c)), w).
Proof. reflexivity. Qed.

(** Validation never touches the world, whatever it answers. *)
Lemma validate_world self v w : (_validate_path self v w).2 = w.
Proof.
  destruct v as [p|c s]; [|reflexivity].
  rewrite validate_run.
  destruct (resolved _) as [q|e]; [|reflexivity].
  destruct (relative_to _ _); reflexivity.
Qed.

Lemma validate_denied self p q w :
  resolve (candidate self p) w = (Returns q, w) →
  ¬ within (allowed_directory self) q →
  _validate_path self (VStr p) w = (Raises (access_denied self p), w).
Proof.
  intros Hres Hout. rewrite resolve_run in Hres.
  rewrite validate_run.
  assert (resolved (candidate self p) = Returns q) as -> by congruence.
  apply relative_to_None in Hout. by rewrite Hout.
Qed.

(** ** Dispatch *)

Lemma dispatch_read_file self arguments :
  dispatch self (lit "read_file") arguments =
    (path ← getitem arguments (lit "path"); _read_file self path).
Proof. reflexivity. Qed.

Lemma dispatch_list_directory self arguments :
  dispatch self (lit "list_directory") arguments =
    (path ← getitem arguments (lit "path"); _list_directory self path).
Proof. reflexivity. Qed.

Lemma dispatch_write_file self arguments :
  dispatch self (lit "write_file") arguments =
    (path ← getitem arguments (lit "path");
     content ← getitem arguments (lit "content");
     _write_file self path content).
Proof. reflexivity. Qed.

Lemma dispatch_unknown self name arguments w :
  name ∉ (Server.name <$> list_tools) →
  dispatch self name arguments w = (Raises (Exn ValueError (lit "Unknown tool: " ++ name)), w).
Proof.
  intros Hname. unfold dispatch.
  repeat case_decide; try reflexivity; subst name; exfalso; apply Hname;
    unfold list_tools; simpl; set_solver.
Qed.

Lemma getitem_Some arguments key v w :
  arguments !! key = Some v → getitem arguments key w = (Returns v, w).
Proof. intros H. unfold getitem. by rewrite H. Qed.

Lemma getitem_None arguments key w :
  arguments !! key = None → getitem arguments key w = (Raises (key_error key), w).
Proof. intros H. unfold getitem. by rewrite H. Qed.

(** [call_tool] turns whatever its body raises into a result. *)
Lemma call_tool_raises self name arguments w e w' :
  dispatch self name arguments w = (Raises e, w') →
  call_tool self name arguments w = (Returns (failure (exn_str e)), w').
Proof.
  intros H. unfold call_tool. rewrite run_try, H. simpl select.
  by rewrite issubclass_Exception.
Qed.

Lemma call_tool_returns self name arguments w r w' :
  dispatch self name arguments w = (Returns r, w') →
  call_tool self name arguments w = (Returns r, w').
Proof. intros H. unfold call_tool. by rewrite run_try, H. Qed.

Lemma returns_text_bind {A} (m : M A) f :
  (∀ a, returns_text (f a)) → returns_text (m ≫= f).
Proof.
  intros Hf w l w'. rewrite run_bind.
  destruct (m w) as [[a|e] w1]; [apply Hf | discriminate].
Qed.

Lemma returns_text_raise e : returns_text (raise e).
Proof. intros w l w'. discriminate. Qed.

Lemma returns_text_ret s : returns_text (mret [mkTextContent (lit "text") s]).
Proof. intros w l w' [= <- _]. by exists s. Qed.

Lemma returns_text_try body c h :
  returns_text body → (∀ e, returns_text (h e)) → returns_text (try_ body [(c, h)]).
Proof.
  intros Hb Hh w l w'. rewrite run_try.
  destruct (body w) as [[a|e] w1] eqn:E.
  - intros [= <- <-]. eapply Hb, E.
  - simpl. destruct (issubclass _ _); [apply Hh | discriminate].
Qed.

Lemma read_file_returns_text self v : returns_text (_read_file self v).
Proof.
  unfold _read_file.
  apply returns_text_bind; intros q. apply returns_text_bind; intros found.
  destruct (negb found); [apply returns_text_raise|].
  apply returns_text_bind; intros regular.
  destruct (negb regular); [apply returns_text_raise|].
  apply returns_text_try.
  - apply returns_text_bind; intros s. apply returns_text_ret.
  - intros e. apply returns_text_raise.
Qed.

Lemma list_directory_returns_text self v : returns_text (_list_directory self v).
Proof.
  unfold _list_directory.
  apply returns_text_bind; intros q. apply returns_text_bind; intros found.
  destruct (negb found); [apply returns_text_raise|].
  apply returns_text_bind; intros d.
  destruct (negb d); [apply returns_text_raise|].
  apply returns_text_bind; intros entries. apply returns_text_bind; intros items.
  apply returns_text_ret.
Qed.

Lemma write_file_returns_text self v c : returns_text (_write_file self v c).
Proof.
  unfold _write_file.
  apply returns_text_bind; intros q. apply returns_text_bind; intros _.
  apply returns_text_bind; intros _. apply returns_text_bind; intros n.
  apply returns_text_ret.
Qed.

Lemma dispatch_returns_text self name arguments :
  returns_text (dispatch self name arguments).
Proof.
  unfold dispatch. repeat case_decide.
  - apply returns_text_bind; intros v. apply read_file_returns_text.
  - apply returns_text_bind; intros v. apply list_directory_returns_text.
  - apply returns_text_bind; intros v. apply returns_text_bind; intros c.
    apply write_file_returns_text.
  - apply returns_text_raise.
Qed.

(** Every call gives one text content: the handler's on a return, the
    rendering of the exception on a raise. *)
Lemma call_tool_total self name arguments w :
  ∃ s, call_tool self name arguments w =
         (Returns [mkTextContent (lit "text") s], (dispatch self name arguments w).2).
Proof.
  destruct (dispatch self name arguments w) as [[r|e] w'] eqn:E.
  - destruct (dispatch_returns_text _ _ _ _ _ _ E) as [s ->].
    exists s. by apply call_tool_returns.
  - eexists. by apply call_tool_raises.
Qed.

(** The constructor resolves the configured directory once. *)
Example init_resolves :
  __init__ [lit "home"] (lit "/srv/../data//./") empty_world = (Returns data_server, empty_world) ∧
  __init__ [lit "home"] (lit "files") empty_world =
    (Returns (mkServer [lit "home"; lit "files"]), empty_world).
Proof. split; vm_compute; reflexivity. Qed.

(** ** Sandbox violations *)

Lemma handlers_stop_at_validation self v content w e :
  _validate_path self v w = (Raises e, w) →
  _read_file self v w = (Raises e, w) ∧
  _list_directory self v w = (Raises e, w) ∧
  _write_file self v content w = (Raises e, w).
Proof.
  intros H. repeat split.
  - unfold _read_file. by apply run_bind_raises.
  - unfold _list_directory. by apply run_bind_raises.
  - unfold _write_file. by apply run_bind_raises.
Qed.

(** C1. A requested path whose canonical form [q] is neither the sandbox
    root nor below it part by part is refused with the access-denied
    [ValueError]; [_read_file], [_list_directory] and [_write_file] stop
    there, with the world as it was: no file is read or written, no
    directory created or listed, no call logged. *)
Theorem sandbox_violation_denied self p q content w :
  resolve (candidate self p) w = (Returns q, w) →
  ¬ within (allowed_directory self) q →
  _validate_path self (VStr p) w = (Raises (access_denied self p), w) ∧
  _read_file self (VStr p) w = (Raises (access_denied self p), w) ∧
  _list_directory self (VStr p) w = (Raises (access_denied self p), w) ∧
  _write_file self (VStr p) content w = (Raises (access_denied self p), w).
Proof.
  intros Hres Hout.
  pose proof (validate_denied _ _ _ _ Hres Hout) as Hv.
  split; [exact Hv|]. by apply handlers_stop_at_validation.
Qed.

(** The sibling [/root-evil] of the sandbox root [/root] is refused. *)
Lemma sandbox_violation_denied_witness :
  ¬ within (allowed_directory root_server) [lit "root-evil"] ∧
  _write_file root_server (VStr (lit "/root-evil")) (VStr (lit "x")) empty_world =
    (Raises (access_denied root_server (lit "/root-evil")), empty_world).
Proof.
  assert (¬ within (allowed_directory root_server) [lit "root-evil"]) as Hout.
  { intros [rel Hrel]. vm_compute in Hrel. discriminate Hrel. }
  split; [exact Hout|].
  apply (sandbox_violation_denied root_server (lit "/root-evil") [lit "root-evil"]
           (VStr (lit "x")) empty_world); [reflexivity | exact Hout].
Defined.

(** ** One result per request *)

(** C2. Whatever the operation name and the arguments, [call_tool] returns:
    it raises nothing, and what it returns is exactly one content. When the
    handler raised [e], that content is the failure built from [e], and
    the world is the one the handler left. *)
Theorem one_result_per_request self name arguments w :
  ∃ t, call_tool self name arguments w =
         (Returns [t], (dispatch self name arguments w).2) ∧
       ∀ e, (dispatch self name arguments w).1 = Raises e → [t] = failure (exn_str e).
Proof.
  destruct (dispatch self name arguments w) as [[r|e] w'] eqn:E.
  - destruct (dispatch_returns_text _ _ _ _ _ _ E) as [s ->].
    eexists. split; [by apply call_tool_returns|]. intros e. discriminate.
  - eexists. split; [by apply call_tool_raises|]. by intros e' [= <-].
Qed.

Lemma one_result_per_request_witness :
  ∃ t, call_tool data_server (lit "read_file") (path_arg (VStr (lit "b.txt"))) note_world =
         (Returns [t], logged note_world [Stat [lit "data"; lit "b.txt"]]) ∧
       [t] = failure (lit "File not found: b.txt").
Proof.
  destruct (one_result_per_request data_server (lit "read_file")
              (path_arg (VStr (lit "b.txt"))) note_world) as (t & Hrun & Hfail).
  exists t. split; [exact Hrun|].
  apply (Hfail (Exn FileNotFoundError (lit "File not found: b.txt"))).
  vm_compute. reflexivity.
Defined.

(** ** Unknown operations *)

(** C8. A name outside the catalogue gives the failure
    [Error: Unknown tool: <name>] as the result of the call; nothing is
    raised to the caller and the world is untouched. *)
Theorem unknown_operation self name arguments w :
  name ∉ (Server.name <$> list_tools) →
  call_tool self name arguments w =
    (Returns (failure (lit "Unknown tool: " ++ name)), w).
Proof.
  intros Hname.
  apply (call_tool_raises _ _ _ _ (Exn ValueError (lit "Unknown tool: " ++ name))).
  by apply dispatch_unknown.
Qed.

Lemma unknown_operation_witness :
  call_tool data_server (lit "delete_file") (path_arg (VStr (lit "x.txt"))) data_world =
    (Returns (failure (lit "Unknown tool: delete_file")), data_world).
Proof.
  apply (unknown_operation data_server (lit "delete_file")).
  refine (bool_decide_unpack _ _). vm_compute. exact I.
Defined.

(** ** Failures are ordinary results *)

(** C10. Every call ends in one content of type [text]. When the handler
    raised [e] its text is [Error: ] followed by [str(e)], and nothing else
    tells it from a success: reading [note.txt], whose content is
    [Error: File not found: b.txt], succeeds with the very result that the
    failed read of the missing [b.txt] gives. *)
Theorem failures_in_band :
  (∀ self name arguments w,
     ∃ s, (call_tool self name arguments w).1 = Returns [mkTextContent (lit "text") s]) ∧
  (∀ self name arguments w e w',
     dispatch self name arguments w = (Raises e, w') →
     call_tool self name arguments w =
       (Returns [mkTextContent (lit "text") (lit "Error: " ++ exn_str e)], w')) ∧
  (∃ payload e w1 w2,
     dispatch data_server (lit "read_file") (path_arg (VStr (lit "note.txt"))) note_world =
       (Returns [mkTextContent (lit "text") payload], w1) ∧
     dispatch data_server (lit "read_file") (path_arg (VStr (lit "b.txt"))) note_world =
       (Raises e, w2) ∧
     (call_tool data_server (lit "read_file") (path_arg (VStr (lit "note.txt"))) note_world).1 =
     (call_tool data_server (lit "read_file") (path_arg (VStr (lit "b.txt"))) note_world).1).
Proof.
  split; [|split].
  - intros self name arguments w.
    destruct (call_tool_total self name arguments w) as [s Hs].
    exists s. by rewrite Hs.
  - intros self name arguments w e w' H. by apply call_tool_raises.
  - exists (lit "Error: File not found: b.txt"),
      (Exn FileNotFoundError (lit "File not found: b.txt")).
    do 2 eexists. repeat split; vm_compute; reflexivity.
Qed.

Lemma failures_in_band_witness :
  call_tool data_server (lit "read_file") (path_arg (VStr (lit "b.txt"))) note_world =
    (Returns [mkTextContent (lit "text") (lit "Error: File not found: b.txt")],
     logged note_world [Stat [lit "data"; lit "b.txt"]]).
Proof.
  destruct failures_in_band as (_ & H & _).
  apply (H data_server (lit "read_file") (path_arg (VStr (lit "b.txt"))) note_world
           (Exn FileNotFoundError (lit "File not found: b.txt"))).
  vm_compute. reflexivity.
Defined.

(** ** What a denial tells *)

(** C3, as the specification has it, fails: the denial of [../etc/passwd]
    by the server of [/data] spells out [/data], which the request did not
    contain. *)
Lemma denial_discloses_root :
  call_tool data_server (lit "read_file") (path_arg (VStr (lit "../etc/passwd"))) empty_world =
    (Returns (failure (lit "Access denied: ../etc/passwd is outside allowed directory /data")),
     empty_world) ∧
  contains (to_str (allowed_directory data_server))
    (lit "Error: Access denied: ../etc/passwd is outside allowed directory /data") = true ∧
  contains (to_str (allowed_directory data_server)) (lit "../etc/passwd") = false.
Proof. repeat split; vm_compute; reflexivity. Qed.

(** C3, amended. For a path refused by the sandbox the failure is
    [Error: Access denied: <p> is outside allowed directory <root>]: [p] is
    the path as it was requested, not its resolved form [q], and [root] is
    the absolute path of the sandbox root. This holds for each catalogued
    operation given its required arguments. *)
Theorem denial_message self tool arguments p q w :
  tool ∈ list_tools →
  (∀ key, key ∈ required tool → is_Some (arguments !! key)) →
  arguments !! lit "path" = Some (VStr p) →
  resolve (candidate self p) w = (Returns q, w) →
  ¬ within (allowed_directory self) q →
  call_tool self (name tool) arguments w =
    (Returns (failure (lit "Access denied: " ++ p ++ lit " is outside allowed directory " ++
                       to_str (allowed_directory self))), w).
Proof.
  intros Htool Hreq Hpath Hres Hout.
  apply (call_tool_raises _ _ _ _ (access_denied self p)).
  destruct (handlers_stop_at_validation self (VStr p) (VStr []) w _
              (validate_denied _ _ _ _ Hres Hout)) as (Hr & Hl & _).
  unfold list_tools in Htool.
  apply elem_of_cons in Htool as [->|Htool]; [|apply elem_of_cons in Htool as [->|Htool]];
    [| |apply list_elem_of_singleton in Htool as ->]; simpl name.
  - rewrite dispatch_read_file.
    rewrite (run_bind_returns _ _ _ _ _ (getitem_Some _ _ _ w Hpath)). exact Hr.
  - rewrite dispatch_list_directory.
    rewrite (run_bind_returns _ _ _ _ _ (getitem_Some _ _ _ w Hpath)). exact Hl.
  - rewrite dispatch_write_file.
    rewrite (run_bind_returns _ _ _ _ _ (getitem_Some _ _ _ w Hpath)).
    destruct (Hreq (lit "content")) as [c Hc]; [simpl; set_solver|].
    rewrite (run_bind_returns _ _ _ _ _ (getitem_Some _ _ _ w Hc)).
    apply handlers_stop_at_validation, (validate_denied _ _ q); assumption.
Qed.

Lemma denial_message_witness :
  call_tool data_server (lit "read_file") (path_arg (VStr (lit "../etc/passwd"))) empty_world =
    (Returns (failure (lit "Access denied: ../etc/passwd is outside allowed directory /data")),
     empty_world).
Proof.
  apply (denial_message data_server read_file_tool (path_arg (VStr (lit "../etc/passwd")))
           (lit "../etc/passwd") [lit "etc"; lit "passwd"] empty_world).
  - unfold list_tools. left.
  - intros key Hkey. apply list_elem_of_singleton in Hkey as ->. vm_compute. eauto.
  - vm_compute. reflexivity.
  - vm_compute. reflexivity.
  - intros [rel Hrel]. vm_compute in Hrel. discriminate Hrel.
Defined.

(** ** Missing and mistyped arguments *)

(** C7, as the specification has it, fails: [write_file] with the number 5
    as [content] creates the missing directory [/data/sub] before it fails,
    and the failure names the type of the value, not the parameter. *)
Lemma mistyped_content_reaches_filesystem :
  mistyped_request.1 = Returns (failure (lit "data must be str, not int")) ∧
  contains (lit "content") (lit "Error: data must be str, not int") = false ∧
  files data_world !! [lit "data"; lit "sub"] = None ∧
  files mistyped_request.2 !! [lit "data"; lit "sub"] = Some Dir ∧
  calls mistyped_request.2 = [Mkdir [lit "data"; lit "sub"]].
Proof. repeat split; vm_compute; reflexivity. Qed.

Lemma required_one (x : str) pre key post :
  [x] = pre ++ key :: post → pre = [] ∧ key = x.
Proof.
  destruct pre as [|y pre]; simpl; intros [= -> H]; [done|].
  destruct pre; discriminate H.
Qed.

Lemma required_two (x y : str) pre key post :
  [x; y] = pre ++ key :: post → (pre = [] ∧ key = x) ∨ (pre = [x] ∧ key = y).
Proof.
  destruct pre as [|z pre]; simpl; intros [= -> H]; [by left|].
  right. apply required_one in H as [-> ->]. done.
Qed.

(** C7, amended. [call_tool] checks no argument against the catalogue; what
    a bad mapping meets is Python's own failure. For a catalogued operation:
    when a required parameter is missing, the first missing one, [key],
    gives the failure [Error: '<key>'], before any filesystem call; when
    [path] is not a string, the failure names the class of the value, not
    the parameter, again before any filesystem call. *)
Theorem invalid_arguments self tool arguments w :
  tool ∈ list_tools →
  (∀ pre key post,
     required tool = pre ++ key :: post →
     (∀ k, k ∈ pre → is_Some (arguments !! k)) →
     arguments !! key = None →
     call_tool self (name tool) arguments w =
       (Returns (failure (lit "'" ++ key ++ lit "'")), w)) ∧
  (∀ c s,
     (∀ k, k ∈ required tool → is_Some (arguments !! k)) →
     arguments !! lit "path" = Some (VOther c s) →
     call_tool self (name tool) arguments w =
       (Returns (failure (lit "expected str, bytes or os.PathLike object, not " ++ c)), w)).
Proof.
  intros Htool. unfold list_tools in Htool.
  apply elem_of_cons in Htool as [->|Htool]; [|apply elem_of_cons in Htool as [->|Htool]];
    [| |apply list_elem_of_singleton in Htool as ->]; simpl name; simpl required; split.
  - intros pre key post Hreq _ Hkey. apply required_one in Hreq as [-> ->].
    apply (call_tool_raises _ _ _ _ (key_error (lit "path"))).
    rewrite dispatch_read_file. apply run_bind_raises. by apply getitem_None.
  - intros c s _ Hpath.
    apply (call_tool_raises _ _ _ _
             (Exn TypeError (lit "expected str, bytes or os.PathLike object, not " ++ c))).
    rewrite dispatch_read_file.
    rewrite (run_bind_returns _ _ _ _ _ (getitem_Some _ _ _ w Hpath)).
    unfold _read_file. apply run_bind_raises. apply validate_other.
  - intros pre key post Hreq _ Hkey. apply required_one in Hreq as [-> ->].
    apply (call_tool_raises _ _ _ _ (key_error (lit "path"))).
    rewrite dispatch_list_directory. apply run_bind_raises. by apply getitem_None.
  - intros c s _ Hpath.
    apply (call_tool_raises _ _ _ _
             (Exn TypeError (lit "expected str, bytes or os.PathLike object, not " ++ c))).
    rewrite dispatch_list_directory.
    rewrite (run_bind_returns _ _ _ _ _ (getitem_Some _ _ _ w Hpath)).
    unfold _list_directory. apply run_bind_raises. apply validate_other.
  - intros pre key post Hreq Hpre Hkey.
    apply required_two in Hreq as [[-> ->]|[-> ->]].
    + apply (call_tool_raises _ _ _ _ (key_error (lit "path"))).
      rewrite dispatch_write_file. apply run_bind_raises. by apply getitem_None.
    + destruct (Hpre (lit "path")) as [v Hv]; [set_solver|].
      apply (call_tool_raises _ _ _ _ (key_error (lit "content"))).
      rewrite dispatch_write_file.
      rewrite (run_bind_returns _ _ _ _ _ (getitem_Some _ _ _ w Hv)).
      apply run_bind_raises. by apply getitem_None.
  - intros c s Hreq Hpath.
    destruct (Hreq (lit "content")) as [v Hv]; [set_solver|].
    apply (call_tool_raises _ _ _ _
             (Exn TypeError (lit "expected str, bytes or os.PathLike object, not " ++ c))).
    rewrite dispatch_write_file.
    rewrite (run_bind_returns _ _ _ _ _ (getitem_Some _ _ _ w Hpath)).
    rewrite (run_bind_returns _ _ _ _ _ (getitem_Some _ _ _ w Hv)).
    unfold _write_file. apply run_bind_raises. apply validate_other.
Qed.

Lemma invalid_arguments_witness :
  call_tool data_server (lit "write_file") (path_arg (VStr (lit "out.txt"))) data_world =
    (Returns (failure (lit "'content'")), data_world).
Proof.
  destruct (invalid_arguments data_server write_file_tool
              (path_arg (VStr (lit "out.txt"))) data_world) as [H _].
  - unfold list_tools. do 2 right. left.
  - apply (H [lit "path"] (lit "content") []).
    + reflexivity.
    + intros k Hk. apply list_elem_of_singleton in Hk as ->. vm_compute. eauto.
    + vm_compute. reflexivity.
Defined.

(** ** The UTF-8 codec: decoding undoes encoding *)

Section Codec.

Local Open Scope N_scope.



Lemma to_N_byte_of_N n : n < 256 → Byte.to_N (Utf8.byte_of_N n) = n.
Proof.
intros H. unfold Utf8.byte_of_N.
destruct (Byte.of_N n) as [b|] eqn:E.
- simpl. by apply Byte.to_of_N.
- apply Byte.of_N_None_iff in E. lia.
Qed.

Lemma cont_byte_of_N x : x < 64 → Utf8.cont (Utf8.byte_of_N (0x80 + x)) = Some x.
Proof.
intros H. unfold Utf8.cont. rewrite to_N_byte_of_N by lia.
destruct (N.leb_spec 0x80 (0x80 + x)); [|lia].
destruct (N.leb_spec (0x80 + x) 0xBF); [|lia].
simpl. f_equal. lia.
Qed.

Lemma split3 c : c = (c / 4096) * 4096 + ((c / 64) mod 64) * 64 + c mod 64.
Proof.
pose proof (N.div_mod c 64). pose proof (N.div_mod (c / 64) 64).
replace (c / 4096) with (c / 64 / 64) by (rewrite N.Div0.div_div; reflexivity).
lia.
Qed.

Lemma split4 c :
c = (c / 262144) * 262144 + ((c / 4096) mod 64) * 4096 + ((c / 64) mod 64) * 64 + c mod 64.
Proof.
pose proof (split3 c). pose proof (N.div_mod (c / 4096) 64).
replace (c / 262144) with (c / 4096 / 64) by (rewrite N.Div0.div_div; reflexivity).
lia.
Qed.

Lemma mod64 x : x mod 64 < 64.
Proof. apply N.mod_lt. lia. Qed.

Lemma decode_cons b0 t0 :
Utf8.decode (b0 :: t0) =
  let n0 := Byte.to_N b0 in
  if n0 <? 0x80 then cons n0 <$> Utf8.decode t0
  else if n0 <? 0xC2 then None
  else if n0 <? 0xE0 then
    match t0 with
    | b1 :: t1 =>
        match Utf8.cont b1 with
        | Some x1 => cons ((n0 - 0xC0) * 64 + x1) <$> Utf8.decode t1
        | None => None
        end
    | _ => None
    end
  else if n0 <? 0xF0 then
    match t0 with
    | b1 :: b2 :: t2 =>
        match Utf8.cont b1, Utf8.cont b2 with
        | Some x1, Some x2 =>
            let c := (n0 - 0xE0) * 4096 + x1 * 64 + x2 in
            if (c <? 0x800) || is_surrogate c then None
            else cons c <$> Utf8.decode t2
        | _, _ => None
        end
    | _ => None
    end
  else if n0 <? 0xF5 then
    match t0 with
    | b1 :: b2 :: b3 :: t3 =>
        match Utf8.cont b1, Utf8.cont b2, Utf8.cont b3 with
        | Some x1, Some x2, Some x3 =>
            let c := (n0 - 0xF0) * 262144 + x1 * 4096 + x2 * 64 + x3 in
            if (c <? 0x10000) || (0x110000 <=? c) then None
            else cons c <$> Utf8.decode t3
        | _, _, _ => None
        end
    | _ => None
    end
  else None.
Proof. reflexivity. Qed.

Lemma decode_encode_char c bs rest :
Utf8.encode_char c = Some bs →
Utf8.decode (bs ++ rest) = cons c <$> Utf8.decode rest.
Proof.
unfold Utf8.encode_char.
destruct (N.ltb_spec c 0x80).
{ intros [= <-]. simpl app. rewrite decode_cons. cbv zeta. rewrite to_N_byte_of_N by lia.
  destruct (N.ltb_spec c 0x80); [done|lia]. }
destruct (N.ltb_spec c 0x800).
{ intros [= <-]. simpl app. rewrite decode_cons. cbv zeta.
  assert (c / 64 < 32) by (apply N.Div0.div_lt_upper_bound; lia).
  assert (2 <= c / 64) by (apply N.div_le_lower_bound; lia).
  rewrite to_N_byte_of_N by lia.
  destruct (N.ltb_spec (0xC0 + c / 64) 0x80); [lia|].
  destruct (N.ltb_spec (0xC0 + c / 64) 0xC2); [lia|].
  destruct (N.ltb_spec (0xC0 + c / 64) 0xE0); [|lia].
  rewrite cont_byte_of_N by apply mod64.
  do 2 f_equal. pose proof (N.div_mod c 64). lia. }
destruct (N.ltb_spec c 0x10000).
{ destruct (is_surrogate c) eqn:Hs; [discriminate|].
  intros [= <-]. simpl app. rewrite decode_cons. cbv zeta.
  assert (c / 4096 < 16) by (apply N.Div0.div_lt_upper_bound; lia).
  assert (0 <= c / 4096) by apply N.le_0_l.
  rewrite to_N_byte_of_N by lia.
  destruct (N.ltb_spec (0xE0 + c / 4096) 0x80); [lia|].
  destruct (N.ltb_spec (0xE0 + c / 4096) 0xC2); [lia|].
  destruct (N.ltb_spec (0xE0 + c / 4096) 0xE0); [lia|].
  destruct (N.ltb_spec (0xE0 + c / 4096) 0xF0); [|lia].
  rewrite !cont_byte_of_N by apply mod64. cbv zeta.
  replace ((0xE0 + c / 4096 - 0xE0) * 4096 + (c / 64) mod 64 * 64 + c mod 64) with c
    by (pose proof (split3 c); lia).
  rewrite Hs. destruct (N.ltb_spec c 0x800); [lia|]. done. }
destruct (N.ltb_spec c 0x110000); [|discriminate].
intros [= <-]. simpl app. rewrite decode_cons. cbv zeta.
assert (c / 262144 < 5) by (apply N.Div0.div_lt_upper_bound; lia).
assert (0 <= c / 262144) by apply N.le_0_l.
rewrite to_N_byte_of_N by lia.
destruct (N.ltb_spec (0xF0 + c / 262144) 0x80); [lia|].
destruct (N.ltb_spec (0xF0 + c / 262144) 0xC2); [lia|].
destruct (N.ltb_spec (0xF0 + c / 262144) 0xE0); [lia|].
destruct (N.ltb_spec (0xF0 + c / 262144) 0xF0); [lia|].
destruct (N.ltb_spec (0xF0 + c / 262144) 0xF5); [|lia].
rewrite !cont_byte_of_N by apply mod64. cbv zeta.
replace ((0xF0 + c / 262144 - 0xF0) * 262144 + (c / 4096) mod 64 * 4096 +
         (c / 64) mod 64 * 64 + c mod 64) with c
  by (pose proof (split4 c); lia).
destruct (N.ltb_spec c 0x10000); [lia|].
destruct (N.leb_spec 0x110000 c); [lia|]. done.
Qed.

Lemma decode_encode s bs : Utf8.encode s = Some bs → Utf8.decode bs = Some s.
Proof.
revert bs. induction s as [|c s IH]; intros bs; simpl.
- by intros [= <-].
- destruct (Utf8.encode_char c) as [b1|] eqn:Ec; [|discriminate].
  destruct (Utf8.encode s) as [b2|]; [|discriminate].
  intros [= <-]. rewrite (decode_encode_char _ _ _ Ec), (IH b2 eq_refl). done.
Qed.

Lemma universal_newlines_id s : CR ∉ s → Utf8.universal_newlines s = s.
Proof.
induction s as [|c s IH]; [done|]. intros H.
apply not_elem_of_cons in H as [Hc Hs]. simpl.
destruct (N.eqb_spec c CR); [congruence|]. by rewrite IH.
Qed.

End Codec.

(** The decoder is complete: it accepts only what [encode] produces. *)

Section Decoder.

Local Open Scope N_scope.

Lemma byte_of_to_N b : Utf8.byte_of_N (Byte.to_N b) = b.
Proof. unfold Utf8.byte_of_N. by rewrite Byte.of_to_N. Qed.

Lemma cont_Some b x : Utf8.cont b = Some x → Byte.to_N b = 0x80 + x ∧ x < 64.
Proof.
  unfold Utf8.cont.
  destruct (N.leb_spec 0x80 (Byte.to_N b)); [|done].
  destruct (N.leb_spec (Byte.to_N b) 0xBF); [|done].
  simpl. intros [= <-]. lia.
Qed.

Lemma divmod64 a x : x < 64 → (a * 64 + x) / 64 = a ∧ (a * 64 + x) mod 64 = x.
Proof.
  intros H. split.
  - symmetry. apply (N.div_unique _ 64 a x); lia.
  - symmetry. apply (N.mod_unique _ 64 a x); lia.
Qed.

Lemma encode_char_2 a x1 :
  2 <= a → a < 32 → x1 < 64 →
  Utf8.encode_char (a * 64 + x1) =
    Some [Utf8.byte_of_N (0xC0 + a); Utf8.byte_of_N (0x80 + x1)].
Proof.
  intros Ha1 Ha2 Hx. unfold Utf8.encode_char.
  destruct (divmod64 a x1 Hx) as [-> ->].
  destruct (N.ltb_spec (a * 64 + x1) 0x80); [lia|].
  destruct (N.ltb_spec (a * 64 + x1) 0x800); [done|lia].
Qed.

Lemma encode_char_3 a x1 x2 :
  a < 16 → x1 < 64 → x2 < 64 →
  0x800 <= a * 4096 + x1 * 64 + x2 →
  is_surrogate (a * 4096 + x1 * 64 + x2) = false →
  Utf8.encode_char (a * 4096 + x1 * 64 + x2) =
    Some [Utf8.byte_of_N (0xE0 + a); Utf8.byte_of_N (0x80 + x1); Utf8.byte_of_N (0x80 + x2)].
Proof.
  intros Ha Hx1 Hx2 Hlow Hs. unfold Utf8.encode_char. rewrite Hs.
  set (c := a * 4096 + x1 * 64 + x2) in *.
  assert (c = (a * 64 + x1) * 64 + x2) as Hc by (unfold c; lia).
  assert (c / 64 = a * 64 + x1) as H64 by (rewrite Hc; by apply divmod64).
  assert (c mod 64 = x2) as -> by (rewrite Hc; by apply divmod64).
  replace (c / 4096) with (c / 64 / 64) by (rewrite N.Div0.div_div; reflexivity).
  rewrite H64. destruct (divmod64 a x1 Hx1) as [-> ->].
  destruct (N.ltb_spec c 0x80); [lia|].
  destruct (N.ltb_spec c 0x800); [lia|].
  destruct (N.ltb_spec c 0x10000); [done|unfold c in *; lia].
Qed.

Lemma encode_char_4 a x1 x2 x3 :
  x1 < 64 → x2 < 64 → x3 < 64 →
  0x10000 <= a * 262144 + x1 * 4096 + x2 * 64 + x3 →
  a * 262144 + x1 * 4096 + x2 * 64 + x3 < 0x110000 →
  Utf8.encode_char (a * 262144 + x1 * 4096 + x2 * 64 + x3) =
    Some [Utf8.byte_of_N (0xF0 + a); Utf8.byte_of_N (0x80 + x1);
          Utf8.byte_of_N (0x80 + x2); Utf8.byte_of_N (0x80 + x3)].
Proof.
  intros Hx1 Hx2 Hx3 Hlow Hhigh. unfold Utf8.encode_char.
  set (c := a * 262144 + x1 * 4096 + x2 * 64 + x3) in *.
  assert (c = ((a * 64 + x1) * 64 + x2) * 64 + x3) as Hc by (unfold c; lia).
  assert (c / 64 = (a * 64 + x1) * 64 + x2) as H64 by (rewrite Hc; by apply divmod64).
  assert (c mod 64 = x3) as -> by (rewrite Hc; by apply divmod64).
  replace (c / 4096) with (c / 64 / 64) by (rewrite N.Div0.div_div; reflexivity).
  replace (c / 262144) with (c / 64 / 64 / 64) by (rewrite !N.Div0.div_div; reflexivity).
  rewrite H64. destruct (divmod64 (a * 64 + x1) x2 Hx2) as [-> ->].
  destruct (divmod64 a x1 Hx1) as [-> ->].
  destruct (N.ltb_spec c 0x80); [lia|].
  destruct (N.ltb_spec c 0x800); [lia|].
  destruct (N.ltb_spec c 0x10000); [lia|].
  destruct (N.ltb_spec c 0x110000); [done|lia].
Qed.

Lemma encode_cons c s bs rest :
  Utf8.encode_char c = Some bs → Utf8.encode s = Some rest →
  Utf8.encode (c :: s) = Some (bs ++ rest).
Proof. intros H1 H2. simpl. by rewrite H1, H2. Qed.

Lemma encode_decode_bounded n bs s :
  (length bs < n)%nat → Utf8.decode bs = Some s → Utf8.encode s = Some bs.
Proof.
  revert bs s. induction n as [|n IH]; intros bs s Hlen; [lia|].
  destruct bs as [|b0 t0]; [by intros [= <-]|].
  rewrite decode_cons. cbv zeta. simpl in Hlen.
  pose proof (byte_of_to_N b0) as Hb0.
  destruct (N.ltb_spec (Byte.to_N b0) 0x80) as [H1|H1].
  { intros Hd. apply fmap_Some in Hd as (s' & Hs' & ->).
    apply IH in Hs'; [|lia].
    rewrite (encode_cons _ _ [b0] t0); [done| |done].
    unfold Utf8.encode_char. destruct (N.ltb_spec (Byte.to_N b0) 0x80); [|lia].
    by rewrite Hb0. }
  destruct (N.ltb_spec (Byte.to_N b0) 0xC2) as [H2|H2]; [done|].
  destruct (N.ltb_spec (Byte.to_N b0) 0xE0) as [H3|H3].
  { destruct t0 as [|b1 t1]; [done|].
    destruct (Utf8.cont b1) as [x1|] eqn:E1; [|done].
    apply cont_Some in E1 as [E1 Hx1].
    intros Hd. apply fmap_Some in Hd as (s' & Hs' & ->).
    apply IH in Hs'; [|simpl in Hlen; lia].
    rewrite (encode_cons _ _ [b0; b1] t1); [done| |done].
    rewrite encode_char_2 by lia.
    replace (0xC0 + (Byte.to_N b0 - 0xC0)) with (Byte.to_N b0) by lia.
    by rewrite <- E1, Hb0, byte_of_to_N. }
  destruct (N.ltb_spec (Byte.to_N b0) 0xF0) as [H4|H4].
  { destruct t0 as [|b1 [|b2 t2]]; [done|done|].
    destruct (Utf8.cont b1) as [x1|] eqn:E1; [|done].
    destruct (Utf8.cont b2) as [x2|] eqn:E2; [|done].
    apply cont_Some in E1 as [E1 Hx1]. apply cont_Some in E2 as [E2 Hx2].
    destruct (N.ltb_spec ((Byte.to_N b0 - 0xE0) * 4096 + x1 * 64 + x2) 0x800) as [?|Hlow];
      [done|].
    destruct (is_surrogate _) eqn:Hs; [done|]. simpl orb. cbv iota.
    intros Hd. apply fmap_Some in Hd as (s' & Hs' & ->).
    apply IH in Hs'; [|simpl in Hlen; lia].
    rewrite (encode_cons _ _ [b0; b1; b2] t2); [done| |done].
    rewrite encode_char_3 by (done || lia).
    replace (0xE0 + (Byte.to_N b0 - 0xE0)) with (Byte.to_N b0) by lia.
    by rewrite <- E1, <- E2, Hb0, !byte_of_to_N. }
  destruct (N.ltb_spec (Byte.to_N b0) 0xF5) as [H5|H5]; [|done].
  destruct t0 as [|b1 [|b2 [|b3 t3]]]; [done|done|done|].
  destruct (Utf8.cont b1) as [x1|] eqn:E1; [|done].
  destruct (Utf8.cont b2) as [x2|] eqn:E2; [|done].
  destruct (Utf8.cont b3) as [x3|] eqn:E3; [|done].
  apply cont_Some in E1 as [E1 Hx1]. apply cont_Some in E2 as [E2 Hx2].
  apply cont_Some in E3 as [E3 Hx3].
  destruct (N.ltb_spec ((Byte.to_N b0 - 0xF0) * 262144 + x1 * 4096 + x2 * 64 + x3) 0x10000)
    as [?|Hlow]; [done|].
  destruct (N.leb_spec 0x110000
              ((Byte.to_N b0 - 0xF0) * 262144 + x1 * 4096 + x2 * 64 + x3))
    as [?|Hhigh]; [done|].
  simpl orb. cbv iota.
  intros Hd. apply fmap_Some in Hd as (s' & Hs' & ->).
  apply IH in Hs'; [|simpl in Hlen; lia].
  rewrite (encode_cons _ _ [b0; b1; b2; b3] t3); [done| |done].
  rewrite encode_char_4 by (done || lia).
  replace (0xF0 + (Byte.to_N b0 - 0xF0)) with (Byte.to_N b0) by lia.
  by rewrite <- E1, <- E2, <- E3, Hb0, !byte_of_to_N.
Qed.

(** The decoder accepts exactly the encodings of texts. *)
Lemma decode_Some_iff bs s : Utf8.decode bs = Some s ↔ Utf8.encode s = Some bs.
Proof.
  split; [|apply decode_encode].
  apply (encode_decode_bounded (S (length bs))). lia.
Qed.

Lemma decode_None_iff bs : Utf8.decode bs = None ↔ ∀ s, Utf8.encode s ≠ Some bs.
Proof.
  split.
  - intros H s Hs. apply decode_encode in Hs. congruence.
  - intros H. destruct (Utf8.decode bs) as [s|] eqn:E; [|done].
    apply decode_Some_iff in E. by destruct (H s).
Qed.

End Decoder.



(** ** How the filesystem calls run *)

Lemma parent_snoc (l : path) x : parent (l ++ [x]) = l.
Proof. unfold parent. by rewrite removelast_last. Qed.

Lemma name_snoc (d : path) x : PurePath.name (d ++ [x]) = x.
Proof. unfold PurePath.name. by rewrite last_last. Qed.

Lemma parent_name (q : path) : q ≠ [] → parent q ++ [PurePath.name q] = q.
Proof.
  intros H. destruct (exists_last H) as (l & x & ->). by rewrite parent_snoc, name_snoc.
Qed.

Lemma parent_prefix (q : path) : parent q `prefix_of` q.
Proof.
  destruct (decide (q = [])) as [->|Hne]; [done|].
  destruct (exists_last Hne) as (l & x & ->). rewrite parent_snoc. by exists [x].
Qed.

Lemma length_parent (q : path) : q ≠ [] → S (length (parent q)) = length q.
Proof.
  intros H. destruct (exists_last H) as (l & x & ->).
  unfold parent. rewrite removelast_last, length_app. simpl. lia.
Qed.

(** *** Lengths *)

Lemma fs_length_app s t :
  Utf8.fs_length (s ++ t) = (Utf8.fs_length s + Utf8.fs_length t)%N.
Proof. induction s as [|c s IH]; simpl; [done|]. rewrite IH. lia. Qed.

Lemma fs_length_cons_sep t : Utf8.fs_length (sep :: t) = (1 + Utf8.fs_length t)%N.
Proof. reflexivity. Qed.

Lemma join_snoc_length (l : path) x :
  Utf8.fs_length (join [sep] (l ++ [x])) =
    (Utf8.fs_length (join [sep] l) + Utf8.fs_length x + (if l is [] then 0 else 1))%N.
Proof.
  induction l as [|y l IH].
  - change (Utf8.fs_length x = (0 + Utf8.fs_length x + 0)%N). lia.
  - destruct l as [|z l].
    + change (Utf8.fs_length (y ++ sep :: x) = (Utf8.fs_length y + Utf8.fs_length x + 1)%N).
      rewrite fs_length_app, fs_length_cons_sep. lia.
    + change (Utf8.fs_length (y ++ sep :: join [sep] ((z :: l) ++ [x])) =
                (Utf8.fs_length (y ++ sep :: join [sep] (z :: l)) + Utf8.fs_length x + 1)%N).
      rewrite !fs_length_app, !fs_length_cons_sep, IH. lia.
Qed.

Lemma to_str_snoc (l : path) x :
  Utf8.fs_length (to_str (l ++ [x])) =
    (Utf8.fs_length (to_str l) + Utf8.fs_length x + (if l is [] then 0 else 1))%N.
Proof. unfold to_str. rewrite !fs_length_cons_sep, join_snoc_length. lia. Qed.

Lemma to_str_prefix (r p : path) :
  r `prefix_of` p → (Utf8.fs_length (to_str r) <= Utf8.fs_length (to_str p))%N.
Proof.
  intros [k ->]. induction k as [|x k IH] using rev_ind.
  - rewrite app_nil_r. lia.
  - rewrite app_assoc, to_str_snoc. lia.
Qed.

Lemma in_limits_prefix (r p : path) : in_limits p → r `prefix_of` p → in_limits r.
Proof.
  intros [Hlen Hnames] Hr. split.
  - unfold path_too_long in *. apply N.leb_gt. apply N.leb_gt in Hlen.
    pose proof (to_str_prefix r p Hr). lia.
  - destruct Hr as [k ->]. by apply Forall_app in Hnames as [? _].
Qed.

Lemma in_limits_parent (p : path) : in_limits p → in_limits (parent p).
Proof. intros H. apply (in_limits_prefix _ p H), parent_prefix. Qed.

Lemma in_limits_name (p : path) : in_limits p → name_too_long (PurePath.name p) = false.
Proof.
  intros [_ H]. destruct (decide (p = [])) as [->|Hne]; [reflexivity|].
  rewrite <- (parent_name p Hne) in H. apply Forall_app in H as [_ H].
  by apply Forall_inv in H.
Qed.

Lemma elem_of_parent (p : path) x : x ∈ parent p → x ∈ p.
Proof.
  intros H. destruct (parent_prefix p) as [k Hk]. rewrite Hk.
  apply elem_of_app. by left.
Qed.

(** *** Path lookup *)

Lemma walk_dirs_errno fs reached rest e :
  walk_dirs fs reached rest = Some e →
  e = ENOENT ∨ e = ENOTDIR ∨
  (e = ENAMETOOLONG ∧ ∃ x, x ∈ rest ∧ name_too_long x = true).
Proof.
  revert reached. induction rest as [|x rest IH]; intros reached; simpl;
    destruct (node_at fs reached) as [[|]|]; try (intros [= <-]; tauto); try discriminate.
  destruct (name_too_long x) eqn:Hx.
  - intros [= <-]. right. right. split; [done|]. exists x. split; [left | done].
  - intros H. destruct (IH _ H) as [?|[?|[? (y & Hy & Hlong)]]]; [tauto..|].
    right. right. split; [done|]. exists y. split; [by right | done].
Qed.

Lemma lookup_parent_errno fs p e :
  lookup_parent fs p = Some e →
  e = ENOENT ∨ e = ENOTDIR ∨ (e = ENAMETOOLONG ∧ ¬ in_limits p).
Proof.
  unfold lookup_parent. destruct (path_too_long p) eqn:Hlen.
  { intros [= <-]. right. right. split; [done|]. intros [H _]. congruence. }
  destruct (walk_dirs fs [] (parent p)) as [e'|] eqn:E.
  - intros [= <-]. destruct (walk_dirs_errno _ _ _ _ E) as [?|[?|[? (x & Hx & Hlong)]]];
      [tauto..|].
    right. right. split; [done|]. intros [_ Hn]. rewrite Forall_forall in Hn.
    rewrite (Hn x) in Hlong; [done | by apply elem_of_parent].
  - destruct (name_too_long (PurePath.name p)) eqn:Hname; [|done].
    intros [= <-]. right. right. split; [done|]. intros Hn.
    apply in_limits_name in Hn. congruence.
Qed.

Lemma namei_errno fs p e :
  namei fs p = inl e →
  e = ENOENT ∨ e = ENOTDIR ∨ (e = ENAMETOOLONG ∧ ¬ in_limits p).
Proof.
  unfold namei. destruct (lookup_parent fs p) as [e'|] eqn:E.
  - intros [= <-]. eapply lookup_parent_errno, E.
  - destruct (node_at fs p); [discriminate|]. intros [= <-]. tauto.
Qed.

Lemma ignored_errno e :
  e = ENOENT ∨ e = ENOTDIR ∨ e = ENAMETOOLONG →
  bool_decide (e ∈ _IGNORED_ERRNOS) = negb (bool_decide (e = ENAMETOOLONG)).
Proof. intros [->|[->| ->]]; reflexivity. Qed.

Lemma files_logged w cs : files (logged w cs) = files w.
Proof. reflexivity. Qed.

Section RunPrimitives.

Context {B : Type}.

Lemma run_log c (f : unit → M B) w : (log c ≫= f) w = f () (logged w [c]).
Proof. reflexivity. Qed.

Lemma run_get_files (f : gmap path node → M B) w : (get_files ≫= f) w = f (files w) w.
Proof. reflexivity. Qed.

Lemma run_set_node p n (f : unit → M B) w :
  (set_node p n ≫= f) w = f () (World (<[p := n]> (files w)) (calls w)).
Proof. reflexivity. Qed.

Lemma run_ret {A} (a : A) (f : A → M B) w : (mret a ≫= f) w = f a w.
Proof. reflexivity. Qed.

Lemma run_raise {A} e (f : A → M B) w : (raise e ≫= f) w = (Raises e, w).
Proof. reflexivity. Qed.

End RunPrimitives.

Lemma os_stat_run p w :
  os_stat p w =
    match namei (files w) p with
    | inl e => (Raises (os_error_of e p), logged w [Stat p])
    | inr n => (Returns n, logged w [Stat p])
    end.
Proof. unfold os_stat. rewrite run_log, run_get_files, files_logged. destruct (namei (files w) p); reflexivity. Qed.

Lemma stat_test_run test p w :
  stat_test test p w =
    (match namei (files w) p with
     | inr n => Returns (test n)
     | inl e =>
         if bool_decide (e ∈ _IGNORED_ERRNOS) then Returns false
         else Raises (os_error_of e p)
     end, logged w [Stat p]).
Proof.
  unfold stat_test. rewrite run_try, run_bind, os_stat_run.
  destruct (namei (files w) p) as [e|n] eqn:E; [|reflexivity].
  apply namei_errno in E as [->|[->|[-> _]]]; reflexivity.
Qed.

Lemma stat_test_missing test p w :
  namei (files w) p = inl ENOENT → stat_test test p w = (Returns false, logged w [Stat p]).
Proof. intros H. by rewrite stat_test_run, H. Qed.

(** Where the entry is there, the tests answer. *)
Lemma stat_test_found test p n w :
  namei (files w) p = inr n → stat_test test p w = (Returns (test n), logged w [Stat p]).
Proof. intros H. by rewrite stat_test_run, H. Qed.

Lemma read_text_run p w :
  read_text p w =
    match namei (files w) p with
    | inl e => (Raises (os_error_of e p), logged w [OpenRead p])
    | inr Dir => (Raises (os_error_of EISDIR p), logged w [OpenRead p])
    | inr (File data) =>
        match Utf8.decode data with
        | Some s => (Returns (Utf8.universal_newlines s), logged w [OpenRead p])
        | None =>
            (Raises (Exn UnicodeDecodeError (lit "'utf-8' codec can't decode bytes")),
             logged w [OpenRead p])
        end
    end.
Proof.
  unfold read_text. rewrite run_log, run_get_files, files_logged.
  destruct (namei (files w) p) as [e|[data|]]; try reflexivity.
  destruct (Utf8.decode data); reflexivity.
Qed.

(** ** Operations that only look *)

Section Keeps.

Context {A B : Type}.

Lemma keeps_ret (a : A) : keeps_files (mret a).
Proof. by intros w o w' [= _ <-]. Qed.

Lemma keeps_raise e : keeps_files (raise e : M A).
Proof. by intros w o w' [= _ <-]. Qed.

Lemma keeps_bind (m : M A) (f : A → M B) :
  keeps_files m → (∀ a, keeps_files (f a)) → keeps_files (m ≫= f).
Proof.
  intros Hm Hf w o w'. rewrite run_bind.
  destruct (m w) as [[a|e] w1] eqn:E.
  - intros H. rewrite (Hf _ _ _ _ H). eapply Hm, E.
  - intros [= _ <-]. eapply Hm, E.
Qed.

Lemma keeps_select (clauses : list (exn_class * (exn → M A))) e :
  (∀ c h, (c, h) ∈ clauses → keeps_files (h e)) → keeps_files (select clauses e).
Proof.
  induction clauses as [|[c h] clauses IH]; intros H; simpl.
  - apply keeps_raise.
  - destruct (issubclass _ _).
    + apply (H c h). left.
    + apply IH. intros c' h' Hin. apply (H c' h'). by right.
Qed.

Lemma keeps_try (body : M A) clauses :
  keeps_files body →
  (∀ c h e, (c, h) ∈ clauses → keeps_files (h e)) →
  keeps_files (try_ body clauses).
Proof.
  intros Hb Hc w o w'. rewrite run_try.
  destruct (body w) as [[a|e] w1] eqn:E.
  - intros [= _ <-]. eapply Hb, E.
  - intros H. rewrite (keeps_select clauses e (λ c h, Hc c h e) _ _ _ H). eapply Hb, E.
Qed.

End Keeps.

Lemma keeps_log c : keeps_files (log c).
Proof. by intros w o w' [= _ <-]. Qed.

Lemma keeps_get_files : keeps_files get_files.
Proof. by intros w o w' [= _ <-]. Qed.

Lemma keeps_validate self v : keeps_files (_validate_path self v).
Proof.
  intros w o w' H. pose proof (validate_world self v w) as Hw. rewrite H in Hw.
  simpl in Hw. by subst.
Qed.

Lemma keeps_os_stat p : keeps_files (os_stat p).
Proof.
  intros w o w'. rewrite os_stat_run.
  destruct (namei (files w) p); by intros [= _ <-].
Qed.

Lemma keeps_stat_test test p : keeps_files (stat_test test p).
Proof. intros w o w'. rewrite stat_test_run. by intros [= _ <-]. Qed.

Lemma keeps_read_text p : keeps_files (read_text p).
Proof.
  intros w o w'. rewrite read_text_run.
  destruct (namei (files w) p) as [e|[data|]]; [by intros [= _ <-]| |by intros [= _ <-]].
  destruct (Utf8.decode data); by intros [= _ <-].
Qed.

Lemma keeps_iterdir p : keeps_files (iterdir p).
Proof.
  unfold iterdir. apply keeps_bind; [apply keeps_log|]. intros _.
  apply keeps_bind; [apply keeps_get_files|]. intros fs.
  destruct (namei fs p) as [e|[data|]]; (apply keeps_raise || apply keeps_ret).
Qed.

Lemma keeps_list_item item : keeps_files (list_item item).
Proof.
  unfold list_item, is_dir, is_file.
  apply keeps_bind; [apply keeps_stat_test|]. intros d.
  apply keeps_bind; [apply keeps_stat_test|]. intros f.
  apply keeps_bind; [|intros; apply keeps_ret].
  destruct f; [|apply keeps_ret].
  apply keeps_bind; [apply keeps_os_stat | intros; apply keeps_ret].
Qed.

Lemma keeps_for_each {A B} (body : A → M B) l :
  (∀ x, keeps_files (body x)) → keeps_files (for_each body l).
Proof.
  intros Hb. induction l as [|x l IH]; simpl; [apply keeps_ret|].
  apply keeps_bind; [apply Hb|]. intros y.
  apply keeps_bind; [apply IH|]. intros ys. apply keeps_ret.
Qed.

Lemma keeps_read_file self v : keeps_files (_read_file self v).
Proof.
  unfold _read_file, exists_, is_file.
  apply keeps_bind; [apply keeps_validate|]. intros q.
  apply keeps_bind; [apply keeps_stat_test|]. intros found.
  destruct (negb found); [apply keeps_raise|].
  apply keeps_bind; [apply keeps_stat_test|]. intros regular.
  destruct (negb regular); [apply keeps_raise|].
  apply keeps_try.
  - apply keeps_bind; [apply keeps_read_text | intros; apply keeps_ret].
  - intros c h e Hin. apply list_elem_of_singleton in Hin as [= -> ->]. apply keeps_raise.
Qed.

Lemma keeps_list_directory self v : keeps_files (_list_directory self v).
Proof.
  unfold _list_directory, exists_, is_dir.
  apply keeps_bind; [apply keeps_validate|]. intros q.
  apply keeps_bind; [apply keeps_stat_test|]. intros found.
  destruct (negb found); [apply keeps_raise|].
  apply keeps_bind; [apply keeps_stat_test|]. intros d.
  destruct (negb d); [apply keeps_raise|].
  apply keeps_bind; [apply keeps_iterdir|]. intros entries.
  apply keeps_bind; [apply keeps_for_each, keeps_list_item|]. intros items.
  apply keeps_ret.
Qed.

Lemma keeps_getitem arguments key : keeps_files (getitem arguments key).
Proof. unfold getitem. destruct (arguments !! key); [apply keeps_ret | apply keeps_raise]. Qed.

(** X5. Only [write_file] writes: a call of any other name, catalogued or
    not, with any arguments, leaves every file and directory as it was,
    whether it succeeds or fails. *)
Theorem only_write_file_writes self name arguments w :
  name ≠ lit "write_file" →
  files (call_tool self name arguments w).2 = files w.
Proof.
  intros Hname.
  assert (keeps_files (call_tool self name arguments)) as H.
  { unfold call_tool. apply keeps_try.
    - unfold dispatch. repeat case_decide; try done.
      + apply keeps_bind; [apply keeps_getitem | intros; apply keeps_read_file].
      + apply keeps_bind; [apply keeps_getitem | intros; apply keeps_list_directory].
      + apply keeps_raise.
    - intros c h e Hin. apply list_elem_of_singleton in Hin as [= -> ->]. apply keeps_ret. }
  destruct (call_tool self name arguments w) as [o w'] eqn:E. exact (H _ _ _ E).
Qed.

Lemma only_write_file_writes_witness :
  files (call_tool data_server (lit "list_directory") (path_arg (VStr (lit "."))) data_world).2 =
    files data_world.
Proof.
  apply (only_write_file_writes data_server (lit "list_directory")).
  vm_compute. discriminate.
Defined.

(** ** Reading *)

Lemma read_file_run self p q w :
  _validate_path self (VStr p) w = (Returns q, w) →
  _read_file self (VStr p) w =
    match namei (files w) q with
    | inl e =>
        (Raises (if bool_decide (e ∈ _IGNORED_ERRNOS)
                 then Exn FileNotFoundError (lit "File not found: " ++ p)
                 else os_error_of e q),
         logged w [Stat q])
    | inr Dir =>
        (Raises (Exn ValueError (lit "Not a file: " ++ p)), logged w [Stat q; Stat q])
    | inr (File data) =>
        match Utf8.decode data with
        | None =>
            (Raises (Exn ValueError (lit "File is not a text file: " ++ p)),
             logged w [Stat q; Stat q; OpenRead q])
        | Some s =>
            (Returns [mkTextContent (lit "text") (Utf8.universal_newlines s)],
             logged w [Stat q; Stat q; OpenRead q])
        end
    end.
Proof.
  intros Hv. unfold _read_file.
  rewrite (run_bind_returns _ _ _ _ _ Hv).
  unfold exists_, is_file.
  rewrite run_bind, stat_test_run.
  destruct (namei (files w) q) as [e|n] eqn:E.
  { by destruct (bool_decide (e ∈ _IGNORED_ERRNOS)). }
  cbn [negb].
  rewrite run_bind, stat_test_run, files_logged, E.
  destruct n as [data|]; [|rewrite logged_logged; reflexivity].
  cbn [negb].
  rewrite run_try, run_bind, read_text_run, logged_logged, files_logged, E.
  destruct (Utf8.decode data) as [s|]; rewrite logged_logged; reflexivity.
Qed.

(** C4, as the specification has it, fails in its last case: [a.txt] holds
    the four bytes [x], CR, LF, [y], valid UTF-8 for a text of four
    characters, and [read_file] answers with three. *)
Lemma read_file_alters_line_endings :
  namei (files crlf_world) [lit "data"; lit "a.txt"] = inr (File [x78; x0d; x0a; x79]) ∧
  Utf8.decode [x78; x0d; x0a; x79] = Some [120; CR; LF; 121]%N ∧
  (_read_file data_server (VStr (lit "a.txt")) crlf_world).1 =
    Returns [mkTextContent (lit "text") [120; LF; 121]%N] ∧
  (_read_file data_server (VStr (lit "a.txt")) crlf_world).1 ≠
    Returns [mkTextContent (lit "text") [120; CR; LF; 121]%N].
Proof.
  split; [vm_compute; reflexivity|]. split; [vm_compute; reflexivity|].
  split; [vm_compute; reflexivity|]. intros H. vm_compute in H. discriminate H.
Qed.

(** C4, amended. For a path the sandbox accepts, resolved to [q]:
    [read_file] raises [File not found] when path lookup finds no entry at
    [q] (ENOENT, ENOTDIR); when the host refuses the path for its length (a
    name over [NAME_MAX] bytes, the path not under [PATH_MAX]) the
    [OSError] of [Path.exists] comes out as it is; [Not a file] when the
    entry is a directory, [File is not a text file] when the bytes of the
    file are not UTF-8 (the encoding of no text); otherwise it returns the
    whole decoded text with every CR LF and every lone CR given as LF, which
    is the text itself when it holds no CR. The files are left as they
    were. *)
Theorem read_file_outcome self p q w :
  _validate_path self (VStr p) w = (Returns q, w) →
  (_read_file self (VStr p) w).1 =
    match namei (files w) q with
    | inl e =>
        Raises (if bool_decide (e ∈ _IGNORED_ERRNOS)
                then Exn FileNotFoundError (lit "File not found: " ++ p)
                else os_error_of e q)
    | inr Dir => Raises (Exn ValueError (lit "Not a file: " ++ p))
    | inr (File data) =>
        match Utf8.decode data with
        | None => Raises (Exn ValueError (lit "File is not a text file: " ++ p))
        | Some s => Returns [mkTextContent (lit "text") (Utf8.universal_newlines s)]
        end
    end ∧
  files (_read_file self (VStr p) w).2 = files w ∧
  (∀ e, namei (files w) q = inl e →
        e ∈ _IGNORED_ERRNOS ∨ (e = ENAMETOOLONG ∧ ¬ in_limits q)) ∧
  (∀ data, Utf8.decode data = None ↔ ∀ s, Utf8.encode s ≠ Some data) ∧
  (∀ s, CR ∉ s → Utf8.universal_newlines s = s).
Proof.
  intros Hv. rewrite (read_file_run self p q w Hv). split; [|split; [|split]].
  - destruct (namei (files w) q) as [e|[data|]]; [done| |done].
    by destruct (Utf8.decode data).
  - destruct (namei (files w) q) as [e|[data|]]; [done| |done].
    by destruct (Utf8.decode data).
  - intros e He. apply namei_errno in He as [->|[->|?]]; [left; set_solver..|by right].
  - split; [apply decode_None_iff | apply universal_newlines_id].
Qed.

Lemma read_file_outcome_witness :
  (_read_file data_server (VStr (lit "x.txt")) data_world).1 =
    Returns [mkTextContent (lit "text") (lit "0123456789")].
Proof.
  destruct (read_file_outcome data_server (lit "x.txt") [lit "data"; lit "x.txt"] data_world)
    as [H _]; [vm_compute; reflexivity|].
  rewrite H. vm_compute. reflexivity.
Defined.


(** ** Writing *)

Lemma open_w_run p w :
  open_w p w =
    match lookup_parent (files w) p with
    | Some e => (Raises (os_error_of e p), logged w [OpenWrite p])
    | None =>
        match node_at (files w) p with
        | Some Dir => (Raises (os_error_of EISDIR p), logged w [OpenWrite p])
        | _ => (Returns (), World (<[p := File []]> (files w)) (calls w ++ [OpenWrite p]))
        end
    end.
Proof.
  unfold open_w. rewrite run_log, run_get_files, files_logged.
  destruct (lookup_parent (files w) p); [reflexivity|].
  destruct (node_at (files w) p) as [[|]|]; reflexivity.
Qed.

Lemma write_returns p s w n w' :
  write p s w = (Returns n, w') →
  ∃ bytes, Utf8.encode s = Some bytes ∧ n = length s ∧
           w' = World (<[p := File bytes]> (files w)) (calls w).
Proof.
  unfold write. destruct (Utf8.encode s) as [bytes|].
  - rewrite run_set_node. intros [= <- <-]. by exists bytes.
  - destruct (Utf8.bad_run _ _ _) as [[a b]|]; discriminate.
Qed.


Lemma validate_returns self v w o w' :
  _validate_path self v w = (o, w') → w' = w.
Proof. intros H. pose proof (validate_world self v w) as Hw. rewrite H in Hw. exact Hw. Qed.

Lemma validate_any_world self v w w' :
  (_validate_path self v w').1 = (_validate_path self v w).1.
Proof.
  destruct v as [p|c s]; [|reflexivity].
  rewrite !validate_run.
  destruct (resolved _) as [q|e]; [|reflexivity].
  destruct (relative_to _ _); reflexivity.
Qed.

Lemma validate_transfer self v w w' q :
  _validate_path self v w = (Returns q, w) →
  _validate_path self v w' = (Returns q, w').
Proof.
  intros H.
  pose proof (validate_any_world self v w w') as H1.
  pose proof (validate_world self v w') as H2.
  rewrite H in H1. destruct (_validate_path self v w') as [o w0].
  simpl in *. congruence.
Qed.

Lemma write_file_returns_inv self p s w r w' :
  _write_file self (VStr p) (VStr s) w = (Returns r, w') →
  ∃ q w1 bytes,
    _validate_path self (VStr p) w = (Returns q, w) ∧
    mkdir (parent q) true true w = (Returns (), w1) ∧
    lookup_parent (files w1) q = None ∧
    node_at (files w1) q ≠ Some Dir ∧
    Utf8.encode s = Some bytes ∧
    w' = World (<[q := File bytes]> (files w1)) (calls w1 ++ [OpenWrite q]) ∧
    r = written s q.
Proof.
  unfold _write_file. rewrite run_bind.
  destruct (_validate_path self (VStr p) w) as [[q|e] w0] eqn:Hv; [|discriminate].
  apply validate_returns in Hv as Hw0. subst w0.
  rewrite run_bind.
  destruct (mkdir (parent q) true true w) as [[[]|e] w1] eqn:Hm; [|discriminate].
  rewrite run_bind. unfold write_text. rewrite run_bind, open_w_run.
  destruct (lookup_parent (files w1) q) eqn:Hwalk; [discriminate|].
  destruct (node_at (files w1) q) as [[data|]|] eqn:Hnode; try discriminate.
  - destruct (write q s _) as [[n|e] w2] eqn:Hwr; [|discriminate].
    apply write_returns in Hwr as (bytes & Henc & -> & ->).
    unfold len. rewrite run_ret. cbn [files calls]. rewrite insert_insert_eq.
    intros [= <- <-]. exists q, w1, bytes. rewrite Hnode. by repeat split.
  - destruct (write q s _) as [[n|e] w2] eqn:Hwr; [|discriminate].
    apply write_returns in Hwr as (bytes & Henc & -> & ->).
    unfold len. rewrite run_ret. cbn [files calls]. rewrite insert_insert_eq.
    intros [= <- <-]. exists q, w1, bytes. rewrite Hnode. by repeat split.
Qed.


(** The walk looks only at the directories it goes through. *)
Lemma node_at_insert_ne fs q n r : r ≠ q → node_at (<[q := n]> fs) r = node_at fs r.
Proof. intros H. destruct r; [reflexivity|]. simpl. by rewrite lookup_insert_ne. Qed.

Lemma node_at_insert_eq fs q n : q ≠ [] → node_at (<[q := n]> fs) q = Some n.
Proof. intros H. destruct q; [done|]. simpl. by rewrite lookup_insert_eq. Qed.

Lemma walk_dirs_insert fs q n reached rest :
  length reached + length rest < length q →
  walk_dirs (<[q := n]> fs) reached rest = walk_dirs fs reached rest.
Proof.
  revert reached. induction rest as [|x rest IH]; intros reached Hlen; simpl in *.
  - rewrite node_at_insert_ne; [done|]. intros ->. lia.
  - rewrite node_at_insert_ne by (intros ->; lia).
    destruct (node_at fs reached) as [[|]|]; try done.
    destruct (name_too_long x); [done|].
    apply IH. rewrite length_app. simpl. lia.
Qed.

Lemma lookup_parent_insert fs q n p :
  length (parent p) < length q →
  lookup_parent (<[q := n]> fs) p = lookup_parent fs p.
Proof.
  intros H. unfold lookup_parent. by rewrite walk_dirs_insert by (simpl; lia).
Qed.

Lemma namei_written fs q n :
  q ≠ [] → lookup_parent fs q = None → namei (<[q := n]> fs) q = inr n.
Proof.
  intros Hq Hwalk. unfold namei.
  rewrite lookup_parent_insert, Hwalk by (pose proof (length_parent q Hq); lia).
  by rewrite node_at_insert_eq.
Qed.

(** ** Writing, then reading *)

(** C9, as the specification has it, fails: the three characters [x], CR,
    [y] encode without error and are written as they are, and reading the
    file back gives [x], LF, [y]. *)
Lemma written_cr_reads_as_lf :
  Utf8.encode [120; CR; 121]%N = Some [x78; x0d; x79] ∧
  cr_written.1 = Returns (written [120; CR; 121]%N [lit "data"; lit "a.txt"]) ∧
  files cr_written.2 !! [lit "data"; lit "a.txt"] = Some (File [x78; x0d; x79]) ∧
  (_read_file data_server (VStr (lit "a.txt")) cr_written.2).1 =
    Returns [mkTextContent (lit "text") [120; LF; 121]%N] ∧
  (_read_file data_server (VStr (lit "a.txt")) cr_written.2).1 ≠
    Returns [mkTextContent (lit "text") [120; CR; 121]%N].
Proof.
  split; [vm_compute; reflexivity|]. split; [vm_compute; reflexivity|].
  split; [vm_compute; reflexivity|]. split; [vm_compute; reflexivity|].
  intros H. vm_compute in H. discriminate H.
Qed.

Lemma universal_newlines_bounded n s :
  length s ≤ n → CR ∉ Utf8.universal_newlines s.
Proof.
  revert s. induction n as [|n IH]; intros s Hlen.
  - destruct s; [apply not_elem_of_nil | simpl in Hlen; lia].
  - destruct s as [|c s]; [apply not_elem_of_nil|]. simpl in Hlen.
    cbn [Utf8.universal_newlines].
    destruct (N.eqb_spec c CR) as [->|Hc].
    + destruct s as [|c' s].
      * intros H. apply list_elem_of_singleton in H. discriminate H.
      * simpl in Hlen. destruct (c' =? LF)%N; apply not_elem_of_cons;
          (split; [discriminate | apply IH; simpl; lia]).
    + apply not_elem_of_cons. split; [congruence | apply IH; lia].
Qed.

Lemma universal_newlines_no_CR s : CR ∉ Utf8.universal_newlines s.
Proof. by apply (universal_newlines_bounded (length s)). Qed.

(** C9, amended. When [write_file(p, s)] has succeeded (so [s] held no
    surrogate), [read_file(p)] on the world it left returns [s] with every
    CR LF and every lone CR given as LF, whatever [s] is: no carriage
    return comes back, and the text is exactly [s] when [s] holds none.
    Reading changes no file. *)
Theorem write_then_read self p s r w w' :
  _write_file self (VStr p) (VStr s) w = (Returns r, w') →
  (_read_file self (VStr p) w').1 =
    Returns [mkTextContent (lit "text") (Utf8.universal_newlines s)] ∧
  (CR ∉ Utf8.universal_newlines s) ∧
  (CR ∉ s →
   (_read_file self (VStr p) w').1 = Returns [mkTextContent (lit "text") s]) ∧
  files (_read_file self (VStr p) w').2 = files w'.
Proof.
  intros Hw.
  apply write_file_returns_inv in Hw
    as (q & w1 & bytes & Hv & Hm & Hwalk & Hnode & Henc & -> & _).
  assert (q ≠ []) as Hq by (intros ->; by apply Hnode).
  rewrite (read_file_run self p q _ (validate_transfer _ _ _ _ _ Hv)).
  cbn [files]. rewrite (namei_written _ _ _ Hq Hwalk).
  rewrite (decode_encode _ _ Henc). split; [done|].
  split; [apply universal_newlines_no_CR|]. split; [|done].
  intros Hcr. by rewrite (universal_newlines_id _ Hcr).
Qed.

Lemma write_then_read_witness :
  (_read_file data_server (VStr (lit "a.txt")) cr_written.2).1 =
    Returns [mkTextContent (lit "text") (Utf8.universal_newlines [120; CR; 121]%N)].
Proof.
  refine (proj1 (write_then_read data_server (lit "a.txt") [120; CR; 121]%N
                   (written [120; CR; 121]%N [lit "data"; lit "a.txt"])
                   data_world cr_written.2 _)).
  vm_compute. reflexivity.
Defined.


(** ** Creating directories *)

Lemma walk_dirs_None fs reached rest :
  walk_dirs fs reached rest = None ↔
  (∀ r, r `prefix_of` rest → node_at fs (reached ++ r) = Some Dir) ∧
  Forall (λ x, name_too_long x = false) rest.
Proof.
  revert reached. induction rest as [|x rest IH]; intros reached; simpl.
  - split.
    + intros H. split; [|constructor]. intros r Hr.
      apply prefix_nil_inv in Hr as ->. rewrite app_nil_r.
      destruct (node_at fs reached) as [[|]|]; done.
    + intros [H _]. specialize (H [] (prefix_nil _)). rewrite app_nil_r in H. by rewrite H.
  - split.
    + intros H.
      destruct (node_at fs reached) as [[|]|] eqn:E; try done.
      destruct (name_too_long x) eqn:Hx; [done|].
      apply (IH (reached ++ [x])) in H as [H Hrest].
      split; [|by constructor]. intros r Hr.
      destruct r as [|y r]; [by rewrite app_nil_r|].
      apply prefix_cons_inv_1 in Hr as Hy. subst y.
      apply prefix_cons_inv_2 in Hr.
      specialize (H r Hr). by rewrite <- app_assoc in H.
    + intros [H Hshort]. apply Forall_cons in Hshort as [Hx Hrest].
      pose proof (H [] (prefix_nil _)) as H0. rewrite app_nil_r in H0.
      rewrite H0, Hx. apply IH. split; [|done].
      intros r Hr. rewrite <- app_assoc. simpl.
      apply H. by apply prefix_cons.
Qed.

Lemma walk_dirs_None_dirs fs reached rest r :
  walk_dirs fs reached rest = None → r `prefix_of` rest →
  node_at fs (reached ++ r) = Some Dir.
Proof. intros H. by apply (proj1 (proj1 (walk_dirs_None _ _ _) H)). Qed.


(** On a path the host accepts by its lengths, looking up the parent is
    the walk through the directories above. *)
Lemma lookup_parent_in_limits fs p :
  in_limits p → lookup_parent fs p = walk_dirs fs [] (parent p).
Proof.
  intros H. unfold lookup_parent. rewrite (in_limits_name p H). destruct H as [-> _].
  by destruct (walk_dirs fs [] (parent p)).
Qed.

Lemma lookup_parent_None fs p :
  lookup_parent fs p = None ↔
  in_limits p ∧ ∀ r, r `prefix_of` parent p → node_at fs r = Some Dir.
Proof.
  split.
  - intros H. assert (in_limits p) as Hp.
    { destruct (lookup_parent fs p) as [e|] eqn:E; [done|]. unfold lookup_parent in E.
      destruct (path_too_long p) eqn:Hlen; [done|]. split; [done|].
      destruct (walk_dirs fs [] (parent p)) eqn:Hwalk; [done|].
      destruct (name_too_long (PurePath.name p)) eqn:Hname; [done|].
      apply walk_dirs_None in Hwalk as [_ Hshort].
      destruct (decide (p = [])) as [->|Hne]; [constructor|].
      rewrite <- (parent_name p Hne). apply Forall_app. split; [done|].
      by apply Forall_singleton. }
    split; [done|]. rewrite (lookup_parent_in_limits _ _ Hp) in H.
    intros r Hr. by apply (walk_dirs_None_dirs _ [] _ _ H).
  - intros [Hp Hdirs]. rewrite (lookup_parent_in_limits _ _ Hp).
    apply walk_dirs_None. split; [done|].
    by destruct (in_limits_parent p Hp).
Qed.

Lemma prefix_snoc_inv {A} (r l : list A) x :
  r `prefix_of` l ++ [x] → r `prefix_of` l ∨ r = l ++ [x].
Proof.
  intros [k Hk]. induction k as [|y k' _] using rev_ind.
  - right. by rewrite app_nil_r in Hk.
  - left. rewrite app_assoc in Hk. apply app_inj_tail in Hk as [-> _]. by exists k'.
Qed.

Lemma os_mkdir_run p w :
  os_mkdir p w =
    match lookup_parent (files w) p with
    | Some e => (Raises (os_error_of e p), logged w [Mkdir p])
    | None =>
        match node_at (files w) p with
        | Some _ => (Raises (os_error_of EEXIST p), logged w [Mkdir p])
        | None => (Returns (), World (<[p := Dir]> (files w)) (calls w ++ [Mkdir p]))
        end
    end.
Proof.
  unfold os_mkdir. rewrite run_log, run_get_files, files_logged.
  destruct (lookup_parent (files w) p); [reflexivity|].
  destruct (node_at (files w) p); reflexivity.
Qed.


Section Select.

Context {A : Type} (h1 h2 : exn → M A).



End Select.

Lemma mkdir_rev_cons x rparent parents exist_ok :
  mkdir_rev (x :: rparent) parents exist_ok =
    let self := rev (x :: rparent) in
    try_ (os_mkdir self)
      [(FileNotFoundError, λ e,
          if negb parents then raise e
          else
            mkdir_rev rparent true true;;
            try_ (os_mkdir self)
              [(FileNotFoundError, λ e', raise e');
               (OSError, mkdir_exists self exist_ok)]);
       (OSError, mkdir_exists self exist_ok)].
Proof. reflexivity. Qed.

Lemma node_at_cons fs (r : path) : r ≠ [] → node_at fs r = fs !! r.
Proof. by destruct r. Qed.

Lemma mkdir_rev_nil parents exist_ok :
  mkdir_rev [] parents exist_ok =
    try_ (os_mkdir [])
      [(FileNotFoundError, λ e, raise e); (OSError, mkdir_exists [] exist_ok)].
Proof. reflexivity. Qed.






(** ** Writing a file *)





(** ** The order of [sorted] *)

Section Lex.

Context {A : Type} (cmp : A → A → comparison).
Hypothesis cmp_refl : ∀ a, cmp a a = Eq.
Hypothesis cmp_eq : ∀ a b, cmp a b = Eq → a = b.
Hypothesis cmp_opp : ∀ a b, cmp b a = CompOpp (cmp a b).
Hypothesis cmp_trans : ∀ a b c, cmp a b = Lt → cmp b c = Lt → cmp a c = Lt.

Lemma lex_cmp_refl x : lex_cmp cmp x x = Eq.
Proof. induction x as [|a x IH]; simpl; [done|]. by rewrite cmp_refl. Qed.

Lemma lex_cmp_eq x y : lex_cmp cmp x y = Eq → x = y.
Proof.
  revert y. induction x as [|a x IH]; intros [|b y]; simpl; try done.
  destruct (cmp a b) eqn:E; try done.
  intros H. apply cmp_eq in E as ->. by rewrite (IH y H).
Qed.

Lemma lex_cmp_opp x y : lex_cmp cmp y x = CompOpp (lex_cmp cmp x y).
Proof.
  revert y. induction x as [|a x IH]; intros [|b y]; simpl; try done.
  rewrite (cmp_opp a b). destruct (cmp a b); simpl; [apply IH | done | done].
Qed.

Lemma lex_cmp_trans x y z :
  lex_cmp cmp x y = Lt → lex_cmp cmp y z = Lt → lex_cmp cmp x z = Lt.
Proof.
  revert y z. induction x as [|a x IH]; intros [|b y] [|c z]; simpl; try done.
  destruct (cmp a b) eqn:Eab; try done.
  - apply cmp_eq in Eab as ->. destruct (cmp b c); try done. apply IH.
  - intros _. destruct (cmp b c) eqn:Ebc; try done.
    + apply cmp_eq in Ebc as ->. by rewrite Eab.
    + by rewrite (cmp_trans _ _ _ Eab Ebc).
Qed.

Lemma lex_cmp_app_same pre x y :
  lex_cmp cmp (pre ++ x) (pre ++ y) = lex_cmp cmp x y.
Proof. induction pre as [|a pre IH]; simpl; [done|]. by rewrite cmp_refl. Qed.

End Lex.

Lemma N_compare_trans a b c : (a ?= b)%N = Lt → (b ?= c)%N = Lt → (a ?= c)%N = Lt.
Proof. rewrite !N.compare_lt_iff. lia. Qed.

Lemma str_cmp_refl x : str_cmp x x = Eq.
Proof. apply lex_cmp_refl, N.compare_refl. Qed.

Lemma str_cmp_eq x y : str_cmp x y = Eq → x = y.
Proof. apply lex_cmp_eq. intros a b. apply N.compare_eq. Qed.

Lemma str_cmp_opp x y : str_cmp y x = CompOpp (str_cmp x y).
Proof. apply lex_cmp_opp. intros a b. apply N.compare_antisym. Qed.

Lemma str_cmp_trans x y z : str_cmp x y = Lt → str_cmp y z = Lt → str_cmp x z = Lt.
Proof.
  apply lex_cmp_trans; [intros a b; apply N.compare_eq | apply N_compare_trans].
Qed.

Lemma path_cmp_eq p q : path_cmp p q = Eq → p = q.
Proof. apply lex_cmp_eq, str_cmp_eq. Qed.

Lemma path_cmp_opp p q : path_cmp q p = CompOpp (path_cmp p q).
Proof. apply lex_cmp_opp, str_cmp_opp. Qed.

Lemma path_cmp_trans p q r : path_cmp p q = Lt → path_cmp q r = Lt → path_cmp p r = Lt.
Proof. apply lex_cmp_trans; [apply str_cmp_eq | apply str_cmp_trans]. Qed.

Lemma path_cmp_siblings d x y : path_cmp (d ++ [x]) (d ++ [y]) = str_cmp x y.
Proof.
  unfold path_cmp. rewrite lex_cmp_app_same by apply str_cmp_refl.
  simpl. by destruct (str_cmp x y).
Qed.

Lemma path_le_total : Total path_le.
Proof.
  intros p q. unfold path_le. rewrite (path_cmp_opp p q).
  destruct (path_cmp p q); simpl; [left | left | right]; done.
Qed.

Lemma path_le_trans : Transitive path_le.
Proof.
  intros p q r. unfold path_le. intros Hpq Hqr.
  destruct (path_cmp p q) eqn:E1; [| |done].
  - by apply path_cmp_eq in E1 as ->.
  - destruct (path_cmp q r) eqn:E2; [| |done].
    + apply path_cmp_eq in E2 as <-. by rewrite E1.
    + by rewrite (path_cmp_trans _ _ _ E1 E2).
Qed.

Lemma sorted_strongly l : StronglySorted path_le (sorted l).
Proof. apply StronglySorted_merge_sort; [apply path_le_trans | apply path_le_total]. Qed.

Lemma sorted_perm l : sorted l ≡ₚ l.
Proof. apply merge_sort_Permutation. Qed.

(** Distinct siblings in [path_le] order have their names in strict order. *)
Lemma sorted_names d (names : list str) :
  NoDup names →
  StronglySorted path_le ((λ x, d ++ [x]) <$> names) →
  StronglySorted str_lt names.
Proof.
  induction names as [|x names IH]; intros Hnd Hs; [constructor|].
  apply NoDup_cons in Hnd as [Hx Hnd].
  rewrite fmap_cons in Hs. apply StronglySorted_inv in Hs as [Hs Hall].
  constructor; [by apply IH|].
  apply Forall_forall. intros y Hy.
  rewrite Forall_fmap, Forall_forall in Hall. specialize (Hall y Hy).
  simpl in Hall. unfold path_le in Hall. rewrite path_cmp_siblings in Hall.
  unfold str_lt. destruct (str_cmp x y) eqn:E; [|done|done].
  apply str_cmp_eq in E as ->. done.
Qed.

(** ** Listing a directory *)

Lemma child_name_Some d k n x : child_name d (k, n) = Some x ↔ k = d ++ [x].
Proof.
  unfold child_name. simpl. split.
  - destruct (relative_to k d) as [[|y [|z rel]]|] eqn:E; try done.
    intros [= ->]. by apply relative_to_Some.
  - intros ->. by rewrite (proj2 (relative_to_Some (d ++ [x]) d [x]) eq_refl).
Qed.

Lemma elem_of_names_in fs d x : x ∈ names_in fs d ↔ is_Some (fs !! (d ++ [x])).
Proof.
  unfold names_in. rewrite list_elem_of_omap. split.
  - intros ([k n] & Hin & Hc). apply child_name_Some in Hc as ->.
    apply elem_of_map_to_list in Hin. by exists n.
  - intros [n Hn]. exists (d ++ [x], n). split.
    + by apply elem_of_map_to_list.
    + by apply child_name_Some.
Qed.

Lemma NoDup_child_names d (l : list (path * node)) :
  NoDup l.*1 → NoDup (omap (child_name d) l).
Proof.
  induction l as [|[k n] l IH]; simpl; [constructor|].
  intros Hnd. apply NoDup_cons in Hnd as [Hk Hnd].
  destruct (child_name d (k, n)) as [x|] eqn:E; [|by apply IH].
  apply child_name_Some in E as ->.
  constructor; [|by apply IH].
  intros Hin. apply list_elem_of_omap in Hin as ([k' n'] & Hin & Hc).
  apply child_name_Some in Hc as ->.
  apply Hk. apply list_elem_of_fmap. by exists (d ++ [x], n').
Qed.

Lemma NoDup_names_in fs d : NoDup (names_in fs d).
Proof. apply NoDup_child_names, NoDup_fst_map_to_list. Qed.

Lemma iterdir_run d w :
  namei (files w) d = inr Dir →
  iterdir d w = (Returns ((λ x, d ++ [x]) <$> names_in (files w) d), logged w [Listdir d]).
Proof.
  intros H. unfold iterdir. rewrite run_log, run_get_files, files_logged, H. reflexivity.
Qed.

Lemma namei_inr fs p n :
  namei fs p = inr n ↔ lookup_parent fs p = None ∧ node_at fs p = Some n.
Proof.
  unfold namei. destruct (lookup_parent fs p); [by split; [|intros []]|].
  destruct (node_at fs p); split; try done.
  - by intros [= ->].
  - by intros [_ [= ->]].
  - by intros [].
Qed.

Lemma namei_in_limits fs p n : namei fs p = inr n → in_limits p.
Proof. intros H. apply namei_inr in H as [H _]. by apply lookup_parent_None in H as [? _]. Qed.

Lemma namei_dir_walk fs d : namei fs d = inr Dir → walk_dirs fs [] d = None.
Proof.
  intros H. apply namei_inr in H as [Hwalk Hn].
  apply lookup_parent_None in Hwalk as [[_ Hshort] Hdirs].
  apply walk_dirs_None. split; [|done]. intros r Hr. simpl.
  destruct (decide (d = [])) as [->|Hne].
  - by apply prefix_nil_inv in Hr as ->.
  - destruct (exists_last Hne) as (l & x & ->). rewrite parent_snoc in Hdirs.
    apply prefix_snoc_inv in Hr as [Hr| ->]; [by apply Hdirs | done].
Qed.

Lemma namei_child fs d x :
  walk_dirs fs [] d = None →
  in_limits (d ++ [x]) →
  namei fs (d ++ [x]) =
    match fs !! (d ++ [x]) with
    | Some n => inr n
    | None => inl ENOENT
    end.
Proof.
  intros H Hx. unfold namei. rewrite (lookup_parent_in_limits _ _ Hx), parent_snoc, H.
  rewrite node_at_cons by (by destruct d). done.
Qed.

Lemma list_item_run d x w :
  walk_dirs (files w) [] d = None →
  in_limits (d ++ [x]) →
  ∃ cs, list_item (d ++ [x]) w = (Returns (entry_line (files w) d x), logged w cs).
Proof.
  intros Hwalk Hx. unfold list_item, is_dir, is_file, entry_line.
  pose proof (namei_child _ _ _ Hwalk Hx) as Hn. rewrite name_snoc.
  destruct (files w !! (d ++ [x])) as [[data|]|] eqn:E.
  - rewrite run_bind, (stat_test_found _ _ _ _ Hn).
    rewrite run_bind, (stat_test_found _ _ (File data)) by (by rewrite files_logged).
    rewrite !run_bind, os_stat_run, !files_logged, Hn.
    rewrite !logged_logged. eexists. reflexivity.
  - rewrite run_bind, (stat_test_found _ _ _ _ Hn).
    rewrite run_bind, (stat_test_found _ _ Dir) by (by rewrite files_logged).
    rewrite run_ret, logged_logged. eexists. reflexivity.
  - rewrite run_bind, (stat_test_missing _ _ _ Hn).
    rewrite run_bind, stat_test_missing by (by rewrite files_logged).
    rewrite run_ret, logged_logged. eexists. reflexivity.
Qed.

Lemma for_each_list_item d names w :
  walk_dirs (files w) [] d = None →
  Forall (λ x, in_limits (d ++ [x])) names →
  ∃ cs, for_each list_item ((λ x, d ++ [x]) <$> names) w =
          (Returns (entry_line (files w) d <$> names), logged w cs).
Proof.
  intros Hwalk Hnames. revert w Hwalk.
  induction Hnames as [|x names Hx Hnames IH]; intros w Hwalk.
  - exists []. by rewrite logged_nil.
  - rewrite fmap_cons. cbn [for_each].
    destruct (list_item_run d x w Hwalk Hx) as (cs1 & H1).
    rewrite (run_bind_returns _ _ _ _ _ H1).
    destruct (IH (logged w cs1)) as (cs2 & H2); [by rewrite files_logged|].
    rewrite (run_bind_returns _ _ _ _ _ H2).
    rewrite files_logged, logged_logged. by exists (cs1 ++ cs2).
Qed.

Lemma list_directory_run self p q w :
  _validate_path self (VStr p) w = (Returns q, w) →
  namei (files w) q = inr Dir →
  (∀ x, is_Some (files w !! (q ++ [x])) → in_limits (q ++ [x])) →
  ∃ names cs,
    _list_directory self (VStr p) w =
      (Returns [mkTextContent (lit "text")
                  (lit "Contents of " ++ to_str q ++ [58%N; LF] ++
                   join [LF] (entry_line (files w) q <$> names))],
       logged w cs) ∧
    StronglySorted str_lt names ∧
    ∀ x, x ∈ names ↔ is_Some (files w !! (q ++ [x])).
Proof.
  intros Hv Hdir Hchildren. unfold _list_directory.
  rewrite (run_bind_returns _ _ _ _ _ Hv).
  unfold exists_, is_dir. rewrite run_bind, stat_test_run, Hdir. cbn [negb].
  rewrite run_bind, stat_test_run, files_logged, Hdir. cbn [negb].
  rewrite run_bind, iterdir_run by (by rewrite !files_logged).
  rewrite !files_logged, !logged_logged.
  set (paths := (λ x, q ++ [x]) <$> names_in (files w) q).
  destruct (Permutation_map_inv (λ x : str, q ++ [x]) (l1 := sorted paths)
              (names_in (files w) q))
    as (names & Hsorted & Hperm).
  { apply sorted_perm. }
  rewrite Hsorted.
  assert (∀ x, x ∈ names ↔ is_Some (files w !! (q ++ [x]))) as Hnames.
  { intros x. rewrite <- Hperm. apply elem_of_names_in. }
  destruct (for_each_list_item q names (logged w [Stat q; Stat q; Listdir q]))
    as (cs & Hrun).
  { rewrite files_logged. by apply namei_dir_walk. }
  { apply Forall_forall. intros x Hx. by apply Hchildren, Hnames. }
  rewrite (run_bind_returns _ _ _ _ _ Hrun), files_logged, logged_logged.
  exists names. eexists. split; [reflexivity|]. split; [|done].
  apply (sorted_names q).
  - rewrite <- Hperm. apply NoDup_names_in.
  - change (StronglySorted path_le (map (λ x, q ++ [x]) names)).
    rewrite <- Hsorted. apply sorted_strongly.
Qed.

Lemma list_directory_errors self p q w :
  _validate_path self (VStr p) w = (Returns q, w) →
  (∀ e, namei (files w) q = inl e →
     _list_directory self (VStr p) w =
       (Raises (if bool_decide (e ∈ _IGNORED_ERRNOS)
                then Exn FileNotFoundError (lit "Directory not found: " ++ p)
                else os_error_of e q),
        logged w [Stat q])) ∧
  (∀ data, namei (files w) q = inr (File data) →
     _list_directory self (VStr p) w =
       (Raises (Exn ValueError (lit "Not a directory: " ++ p)),
        logged w [Stat q; Stat q])).
Proof.
  intros Hv. split.
  - intros e He. unfold _list_directory.
    rewrite (run_bind_returns _ _ _ _ _ Hv).
    unfold exists_. rewrite run_bind, stat_test_run, He.
    by destruct (bool_decide (e ∈ _IGNORED_ERRNOS)).
  - intros data Hf. unfold _list_directory.
    rewrite (run_bind_returns _ _ _ _ _ Hv).
    unfold exists_, is_dir. rewrite run_bind, stat_test_run, Hf. cbn [negb].
    rewrite run_bind, stat_test_run, files_logged, Hf, logged_logged. reflexivity.
Qed.

(** C6, as the specification has it, fails in its first case: nothing
    exists at a name of 256 bytes, for the host takes none over 255, and
    [list_directory] answers such a path not with [Directory not found] but
    with the [OSError] that [Path.exists] lets through. *)
Lemma long_name_is_not_reported_missing :
  _validate_path data_server (VStr long_name) data_world =
    (Returns [lit "data"; long_name], data_world) ∧
  files data_world !! [lit "data"; long_name] = None ∧
  namei (files data_world) [lit "data"; long_name] = inl ENAMETOOLONG ∧
  (call_tool data_server (lit "list_directory") (path_arg (VStr long_name)) data_world).1 =
    Returns (failure (lit "[Errno 36] File name too long: '/data/" ++ long_name ++ lit "'")) ∧
  (call_tool data_server (lit "list_directory") (path_arg (VStr long_name)) data_world).1 ≠
    Returns (failure (lit "Directory not found: " ++ long_name)).
Proof.
  split; [vm_compute; reflexivity|]. split; [vm_compute; reflexivity|].
  split; [vm_compute; reflexivity|]. split; [vm_compute; reflexivity|].
  intros H. vm_compute in H. discriminate H.
Qed.

(** C6, amended. For a path the sandbox accepts, resolved to [q]:
    [list_directory] raises [Directory not found] when path lookup finds no
    entry at [q] (ENOENT, ENOTDIR); when the host refuses [q] for its
    length the [OSError] of [Path.exists] comes out as it is; [Not a
    directory] when the entry is a regular file. Otherwise, where the host
    accepts the path of every entry of [q], it returns the header
    [Contents of <q>:] and one line per entry of [q], the names being
    exactly those of the immediate children, in strictly increasing
    lexicographic order, each line giving kind, size in bytes (0 for a
    directory) and name. The files are left as they were. *)
Theorem list_directory_outcome self p q w :
  _validate_path self (VStr p) w = (Returns q, w) →
  (∀ e, namei (files w) q = inl e →
     (_list_directory self (VStr p) w).1 =
       Raises (if bool_decide (e ∈ _IGNORED_ERRNOS)
               then Exn FileNotFoundError (lit "Directory not found: " ++ p)
               else os_error_of e q) ∧
     (e ∈ _IGNORED_ERRNOS ∨ (e = ENAMETOOLONG ∧ ¬ in_limits q))) ∧
  (∀ data, namei (files w) q = inr (File data) →
     (_list_directory self (VStr p) w).1 =
       Raises (Exn ValueError (lit "Not a directory: " ++ p))) ∧
  (namei (files w) q = inr Dir →
   (∀ x, is_Some (files w !! (q ++ [x])) → in_limits (q ++ [x])) →
     ∃ names,
       (_list_directory self (VStr p) w).1 =
         Returns [mkTextContent (lit "text")
                    (lit "Contents of " ++ to_str q ++ [58%N; LF] ++
                     join [LF] (entry_line (files w) q <$> names))] ∧
       StronglySorted str_lt names ∧
       ∀ x, x ∈ names ↔ is_Some (files w !! (q ++ [x]))) ∧
  files (_list_directory self (VStr p) w).2 = files w.
Proof.
  intros Hv. destruct (list_directory_errors self p q w Hv) as [H1 H2].
  split; [|split; [|split]].
  - intros e He. split; [by rewrite (H1 e He)|].
    apply namei_errno in He as [->|[->|?]]; [left; set_solver..|by right].
  - intros data Hd. by rewrite (H2 data Hd).
  - intros Hd Hc. destruct (list_directory_run self p q w Hv Hd Hc)
      as (names & cs & -> & Hs & Hn). by exists names.
  - destruct (_list_directory self (VStr p) w) as [o w'] eqn:E.
    exact (keeps_list_directory self (VStr p) _ _ _ E).
Qed.

Lemma list_directory_outcome_witness :
  ∃ names,
    (_list_directory data_server (VStr (lit ".")) data_world).1 =
      Returns [mkTextContent (lit "text")
                 (lit "Contents of /data" ++ [58%N; LF] ++
                  join [LF] (entry_line (files data_world) [lit "data"] <$> names))] ∧
    StronglySorted str_lt names ∧
    ∀ x, x ∈ names ↔ is_Some (files data_world !! ([lit "data"] ++ [x])).
Proof.
  destruct (list_directory_outcome data_server (lit ".") [lit "data"] data_world)
    as (_ & _ & H & _); [vm_compute; reflexivity|].
  apply H; [vm_compute; reflexivity|].
  intros x Hx. apply elem_of_names_in in Hx.
  let l := eval vm_compute in (names_in (files data_world) [lit "data"]) in
  change (names_in (files data_world) [lit "data"]) with l in Hx.
  repeat (apply elem_of_cons in Hx as [->|Hx]);
    [split; [vm_compute; reflexivity | repeat constructor]..|].
  by apply elem_of_nil in Hx.
Defined.

(** The listing of [/data] holding [x.txt] (10 bytes) and the directory [y]. *)
Example list_directory_scenario :
  (_list_directory data_server (VStr (lit ".")) data_world).1 =
    Returns [mkTextContent (lit "text")
               (lit "Contents of /data:" ++ [LF] ++
                lit "FILE           10 bytes  x.txt" ++ [LF] ++
                lit "DIR             0 bytes  y")].
Proof. vm_compute. reflexivity. Qed.

(** * Beyond the handlers' outcomes *)

(** ** Parsing and printing paths *)

Lemma split_cons_sep s : split sep (sep :: s) = [] :: split sep s.
Proof. reflexivity. Qed.

Lemma split_nonempty c s : split c s ≠ [].
Proof.
  destruct s as [|a s]; simpl; [done|].
  destruct (a =? c)%N; [done|]. by destruct (split c s).
Qed.

Lemma split_sep_free c s : Forall (λ x, c ∉ x) (split c s).
Proof.
  induction s as [|a s IH]; simpl.
  - constructor; [apply not_elem_of_nil | constructor].
  - destruct (N.eqb_spec a c) as [->|Hne].
    + constructor; [apply not_elem_of_nil | done].
    + destruct (split c s) as [|w ws]; [|apply Forall_cons in IH as [Hw Hws]].
      * constructor; [|constructor]. by apply not_elem_of_cons, conj; [|apply not_elem_of_nil].
      * constructor; [|done]. apply not_elem_of_cons. split; [congruence | done].
Qed.

Lemma split_app_sep c x s : c ∉ x → split c (x ++ c :: s) = x :: split c s.
Proof.
  induction x as [|a x IH]; intros Hx; simpl.
  - by rewrite N.eqb_refl.
  - apply not_elem_of_cons in Hx as [Ha Hx].
    destruct (N.eqb_spec a c) as [->|_]; [done|]. by rewrite IH.
Qed.

Lemma split_no_sep c x : c ∉ x → split c x = [x].
Proof.
  induction x as [|a x IH]; intros Hx; simpl; [done|].
  apply not_elem_of_cons in Hx as [Ha Hx].
  destruct (N.eqb_spec a c) as [->|_]; [done|]. by rewrite IH.
Qed.

Lemma split_join c (l : list str) :
  l ≠ [] → Forall (λ x, c ∉ x) l → split c (join [c] l) = l.
Proof.
  induction l as [|x l IH]; [done|]. intros _ Hl.
  apply Forall_cons in Hl as [Hx Hl].
  destruct l as [|y l]; [by apply split_no_sep|].
  change (join [c] (x :: y :: l)) with (x ++ c :: join [c] (y :: l)).
  rewrite split_app_sep by done. by rewrite IH.
Qed.

Lemma filter_all {A} (P : A → Prop) `{∀ x, Decision (P x)} (l : list A) :
  Forall P l → filter P l = l.
Proof.
  induction 1 as [|x l Hx Hl IH]; [done|]. rewrite filter_cons_True by done. by rewrite IH.
Qed.

Lemma parts_plain s : Forall plain (parts s).
Proof.
  unfold parts. apply Forall_forall. intros x Hx.
  apply list_elem_of_filter in Hx as [[Hne Hdot] Hin].
  repeat split; [done..|].
  pose proof (split_sep_free sep s) as H. rewrite Forall_forall in H. by apply H.
Qed.

Lemma parts_to_str q : Forall plain q → parts (to_str q) = q.
Proof.
  intros Hq. unfold parts, to_str. rewrite split_cons_sep.
  rewrite filter_cons_False by (intros [? _]; done).
  destruct (decide (q = [])) as [->|Hne]; [done|].
  rewrite split_join; [|done|].
  - apply filter_all. eapply Forall_impl; [exact Hq|]. intros x (? & ? & ?). done.
  - eapply Forall_impl; [exact Hq|]. intros x (? & ? & ?). done.
Qed.

Lemma isabs_to_str q : isabs (to_str q) = true.
Proof. reflexivity. Qed.

(** ** The walk of [resolve] *)

Lemma walk_snoc_free reached rest :
  pardir ∉ rest → walk reached rest = reached ++ rest.
Proof.
  revert reached. induction rest as [|x rest IH]; intros reached Hrest; simpl.
  - by rewrite app_nil_r.
  - apply not_elem_of_cons in Hrest as [Hx Hrest].
    rewrite decide_False by done. rewrite IH by done. by rewrite <- app_assoc.
Qed.

Lemma Forall_parent {P : str → Prop} (q : path) : Forall P q → Forall P (parent q).
Proof.
  intros H. destruct (decide (q = [])) as [->|Hne]; [done|].
  destruct (exists_last Hne) as (l & x & ->). rewrite parent_snoc.
  by apply Forall_app in H as [H _].
Qed.

Lemma walk_canonical reached rest :
  canonical reached → Forall plain rest → canonical (walk reached rest).
Proof.
  revert reached. induction rest as [|x rest IH]; intros reached Hr Hrest; simpl; [done|].
  apply Forall_cons in Hrest as [Hx Hrest].
  case_decide as Hpar.
  - apply IH; [by apply Forall_parent | done].
  - apply IH; [|done]. apply Forall_app. split; [done|]. constructor; [done|constructor].
Qed.

Lemma canonical_no_pardir q : canonical q → pardir ∉ q.
Proof.
  intros H Hin. unfold canonical in H. rewrite Forall_forall in H.
  by destruct (H _ Hin) as [_ ?].
Qed.

Lemma canonical_plain q : canonical q → Forall plain q.
Proof. intros H. eapply Forall_impl; [exact H|]. by intros x [? _]. Qed.

(** Every prefix that the walk keeps was probed on the way, unless it was
    reached before. *)
Lemma walk_prefix_visited reached rest r :
  r `prefix_of` walk reached rest →
  r `prefix_of` reached ∨ r ∈ visited reached rest.
Proof.
  revert reached. induction rest as [|x rest IH]; intros reached Hr; simpl in *.
  - by left.
  - case_decide as Hpar.
    + destruct (IH _ Hr) as [H|H]; [|by right].
      left. destruct (decide (reached = [])) as [->|Hne]; [done|].
      destruct (exists_last Hne) as (l & y & ->). rewrite parent_snoc in H.
      by apply prefix_app_r.
    + destruct (IH _ Hr) as [H|H]; [|right; by apply elem_of_cons; right].
      apply prefix_snoc_inv in H as [H| ->]; [by left|].
      right. apply elem_of_cons. by left.
Qed.

Lemma visited_snoc_free reached rest r :
  pardir ∉ rest → r ∈ visited reached rest →
  r `prefix_of` reached ++ rest ∧ r ≠ [].
Proof.
  revert reached. induction rest as [|x rest IH]; intros reached Hrest; simpl.
  - intros H. by apply elem_of_nil in H.
  - apply not_elem_of_cons in Hrest as [Hx Hrest].
    rewrite decide_False by done. intros H. apply elem_of_cons in H as [->|H].
    + split; [|by destruct reached].
      rewrite (cons_middle x reached rest), app_assoc. by apply prefix_app_r.
    + destruct (IH _ Hrest H) as [H1 H2]. split; [|done].
      by rewrite <- app_assoc in H1.
Qed.

Lemma resolved_Returns p q :
  resolved p = Returns q ↔
  q = walk [] p ∧ ∀ r, r ∈ visited [] p → path_arg_error (to_str r) = None.
Proof.
  unfold resolved.
  destruct (omap _ (visited [] p)) as [|e l] eqn:E.
  - split.
    + intros [= <-]. split; [done|]. intros r Hr.
      destruct (path_arg_error (to_str r)) as [e|] eqn:Er; [|done].
      assert (e ∈ omap (λ q, path_arg_error (to_str q)) (visited [] p)) as Hin
        by (apply list_elem_of_omap; eauto).
      rewrite E in Hin. by apply elem_of_nil in Hin.
    + by intros [-> _].
  - split; [done|]. intros [_ H].
    assert (e ∈ omap (λ q, path_arg_error (to_str q)) (visited [] p)) as Hin
      by (rewrite E; left).
    apply list_elem_of_omap in Hin as (r & Hr & He). rewrite (H r Hr) in He. done.
Qed.

Lemma walk_no_pardir reached rest :
  pardir ∉ reached → pardir ∉ walk reached rest.
Proof.
  revert reached. induction rest as [|x rest IH]; intros reached Hr; simpl; [done|].
  case_decide as Hpar.
  - apply IH. intros Hin. apply Hr.
    destruct (decide (reached = [])) as [->|Hne]; [done|].
    destruct (exists_last Hne) as (l & y & ->). rewrite parent_snoc in Hin.
    apply elem_of_app. by left.
  - apply IH. intros Hin. apply elem_of_app in Hin as [?|Hin]; [done|].
    apply list_elem_of_singleton in Hin. done.
Qed.

(** Resolving what [resolve] returned changes nothing. *)
Lemma resolved_idempotent p q : resolved p = Returns q → resolved q = Returns q.
Proof.
  intros H. apply resolved_Returns in H as [-> Hok].
  assert (pardir ∉ walk [] p) as Hfree by (apply walk_no_pardir, not_elem_of_nil).
  apply resolved_Returns. split.
  - by rewrite (walk_snoc_free [] (walk [] p)).
  - intros r Hr. apply (visited_snoc_free [] _ _ Hfree) in Hr as [Hpre Hne].
    simpl in Hpre. apply walk_prefix_visited in Hpre as [Hnil|Hin]; [|by apply Hok].
    by apply prefix_nil_inv in Hnil.
Qed.

(** ** What validation accepts *)

Lemma validate_Returns self v w q w' :
  _validate_path self v w = (Returns q, w') ↔
  w' = w ∧ ∃ p, v = VStr p ∧ resolved (candidate self p) = Returns q ∧
                within (allowed_directory self) q.
Proof.
  destruct v as [p|c s].
  - rewrite validate_run. destruct (resolved (candidate self p)) as [q0|e] eqn:E.
    + destruct (relative_to q0 (allowed_directory self)) as [rel|] eqn:Er.
      * apply relative_to_Some in Er. split.
        -- intros [= <- <-]. split; [done|]. exists p. repeat split; [done|]. by exists rel.
        -- intros (-> & p' & [= <-] & Hres & _). rewrite E in Hres. by injection Hres as <-.
      * apply relative_to_None in Er. split; [done|].
        intros (_ & p' & [= <-] & Hres & Hin). rewrite E in Hres. by injection Hres as <-.
    + split; [done|]. intros (_ & p' & [= <-] & Hres & _). by rewrite E in Hres.
  - rewrite validate_other. split; [done|]. intros (_ & p & ? & _). done.
Qed.

Lemma candidate_plain self p :
  canonical (allowed_directory self) → Forall plain (candidate self p).
Proof.
  intros Hroot. unfold candidate, Path, joinpath.
  destruct (isabs p); [apply parts_plain|].
  apply Forall_app. split; [by apply canonical_plain | apply parts_plain].
Qed.

Lemma validated_canonical self v w q w' :
  canonical (allowed_directory self) →
  _validate_path self v w = (Returns q, w') → canonical q.
Proof.
  intros Hroot H. apply validate_Returns in H as (_ & p & _ & Hres & _).
  apply resolved_Returns in Hres as [-> _].
  apply walk_canonical; [constructor | by apply candidate_plain].
Qed.

Lemma init_initialised cwd s w self w' :
  canonical cwd → __init__ cwd s w = (Returns self, w') → w' = w ∧ initialised self.
Proof.
  intros Hcwd. unfold __init__. rewrite run_bind, resolve_run.
  destruct (resolved _) as [root|e] eqn:E; [|done].
  intros [= <- <-]. split; [done|]. split; simpl.
  - apply resolved_Returns in E as [-> _].
    apply walk_canonical; [constructor|].
    unfold Path, joinpath. destruct (isabs s); [apply parts_plain|].
    apply Forall_app. split; [by apply canonical_plain | apply parts_plain].
  - by apply resolved_idempotent in E.
Qed.

(** X1. What [_validate_path] returns lies in the sandbox: a returned path
    is what [Path.resolve] made of a requested string, and is the root or
    below it; no file or directory has changed. *)
Theorem validated_inside self v w q w' :
  _validate_path self v w = (Returns q, w') →
  files w' = files w ∧ within (allowed_directory self) q ∧
  ∃ p, v = VStr p ∧ (resolve (candidate self p) w).1 = Returns q.
Proof.
  intros H. apply validate_Returns in H as (-> & p & -> & Hres & Hin).
  split; [done|]. split; [done|]. exists p. split; [done|].
  by rewrite resolve_run, Hres.
Qed.

Lemma validated_inside_witness :
  within (allowed_directory data_server) [lit "data"; lit "x.txt"].
Proof.
  refine (proj1 (proj2 (validated_inside data_server (VStr (lit "y/../x.txt")) data_world
                          [lit "data"; lit "x.txt"] data_world _))).
  vm_compute. reflexivity.
Defined.

(** X2. [__init__] leaves the world alone and a canonical root: plain
    parts, no [..], each directory on the way nameable; the root itself is
    then accepted, as [.] and by its own absolute path. *)
Theorem init_root self cwd s w w' :
  canonical cwd →
  __init__ cwd s w = (Returns self, w') →
  w' = w ∧ canonical (allowed_directory self) ∧
  resolve (allowed_directory self) w = (Returns (allowed_directory self), w) ∧
  _validate_path self (VStr (lit ".")) w = (Returns (allowed_directory self), w) ∧
  _validate_path self (VStr (to_str (allowed_directory self))) w =
    (Returns (allowed_directory self), w).
Proof.
  intros Hcwd H. apply init_initialised in H as (-> & Hcan & Hres); [|done].
  split; [done|]. split; [done|]. split; [by rewrite resolve_run, Hres|].
  assert (within (allowed_directory self) (allowed_directory self)) as Hin
    by (exists []; by rewrite app_nil_r).
  split; apply validate_Returns; (split; [done|]); eexists; (split; [reflexivity|]);
    (split; [|done]).
  - unfold candidate, joinpath. change (parts (lit ".")) with (@nil str).
    change (isabs (lit ".")) with false. cbv iota. by rewrite app_nil_r.
  - unfold candidate, Path. rewrite isabs_to_str.
    by rewrite parts_to_str by (by apply canonical_plain).
Qed.

Lemma init_root_witness :
  canonical (allowed_directory data_server) ∧
  _validate_path data_server (VStr (lit "/data")) empty_world =
    (Returns [lit "data"], empty_world).
Proof.
  destruct (init_root data_server [] (lit "/srv/../data//./") empty_world empty_world)
    as (_ & Hcan & _ & _ & Habs).
  - constructor.
  - vm_compute. reflexivity.
  - split; [exact Hcan | exact Habs].
Defined.

(** X4. On an initialised server the absolute path of whatever validation
    returned is, there and then, accepted again and resolves to the same
    place: printing a resolved path and parsing it back is the identity. *)
Theorem accepted_path_revalidates self v w q w' :
  initialised self →
  _validate_path self v w = (Returns q, w') →
  parts (to_str q) = q ∧
  (_validate_path self (VStr (to_str q)) w).1 = Returns q.
Proof.
  intros [Hcan Hroot] H.
  pose proof (validated_canonical _ _ _ _ _ Hcan H) as Hq.
  apply validate_Returns in H as (-> & p & -> & Hres & Hin).
  assert (parts (to_str q) = q) as Hparts by (by apply parts_to_str, canonical_plain).
  split; [done|].
  assert (_validate_path self (VStr (to_str q)) w = (Returns q, w)) as Hagain; [|by rewrite Hagain].
  apply validate_Returns. split; [done|]. exists (to_str q). split; [done|].
  split; [|done].
  unfold candidate, Path. rewrite isabs_to_str, Hparts.
  by apply resolved_idempotent in Hres.
Qed.

Lemma accepted_path_revalidates_witness :
  (_validate_path data_server (VStr (lit "/data/x.txt")) data_world).1 =
    Returns [lit "data"; lit "x.txt"].
Proof.
  refine (proj2 (accepted_path_revalidates data_server (VStr (lit "y/../x.txt")) data_world
                   [lit "data"; lit "x.txt"] data_world _ _)).
  - refine (proj2 (init_initialised [] (lit "/data") empty_world data_server empty_world _ _)).
    + constructor.
    + vm_compute. reflexivity.
  - vm_compute. reflexivity.
Defined.

(** ** The order of a listing *)

Lemma str_lt_irrefl x : ¬ str_lt x x.
Proof. unfold str_lt. by rewrite str_cmp_refl. Qed.

Lemma str_lt_asym x y : str_lt x y → str_lt y x → False.
Proof. unfold str_lt. intros H1. rewrite (str_cmp_opp x y), H1. done. Qed.

Lemma sorted_NoDup (l : list str) : StronglySorted str_lt l → NoDup l.
Proof.
  induction 1 as [|x l Hs IH Hall]; constructor; [|done].
  intros Hin. rewrite Forall_forall in Hall. by apply (str_lt_irrefl x), Hall.
Qed.

Lemma sorted_names_unique (l1 l2 : list str) :
  StronglySorted str_lt l1 → StronglySorted str_lt l2 →
  (∀ x, x ∈ l1 ↔ x ∈ l2) → l1 = l2.
Proof.
  intros H1 H2 Hiff. apply (StronglySorted_unique_strong str_lt); [|done|done|].
  - intros x y _ _ Hxy Hyx. by destruct (str_lt_asym x y).
  - apply NoDup_Permutation; [by apply sorted_NoDup..|done].
Qed.

Lemma sorted_children d (names : list str) :
  NoDup names →
  ∃ l, sorted ((λ x, d ++ [x]) <$> names) = (λ x, d ++ [x]) <$> l ∧
       StronglySorted str_lt l ∧ l ≡ₚ names.
Proof.
  intros Hnd.
  destruct (Permutation_map_inv (λ x : str, d ++ [x])
              (l1 := sorted ((λ x, d ++ [x]) <$> names)) names)
    as (l & Hsorted & Hperm); [apply sorted_perm|].
  exists l. split; [done|]. split; [|done].
  apply (sorted_names d).
  - by rewrite <- Hperm.
  - change (StronglySorted path_le (map (λ x, d ++ [x]) l)).
    rewrite <- Hsorted. apply sorted_strongly.
Qed.

(** X6. The listing does not depend on the order in which the system
    hands out the entries of a directory: of every enumeration of the same
    children [sorted] makes the same list, the one in strictly increasing
    order of name. *)
Theorem enumeration_order_is_irrelevant (d : path) (names names' : list str) :
  NoDup names →
  names ≡ₚ names' →
  sorted ((λ x, d ++ [x]) <$> names) = sorted ((λ x, d ++ [x]) <$> names') ∧
  ∃ l, sorted ((λ x, d ++ [x]) <$> names) = (λ x, d ++ [x]) <$> l ∧
       StronglySorted str_lt l ∧ l ≡ₚ names.
Proof.
  intros Hnd Hperm. split; [|by apply sorted_children].
  destruct (sorted_children d names Hnd) as (l & -> & Hs & Hl).
  destruct (sorted_children d names') as (l' & -> & Hs' & Hl'); [by rewrite <- Hperm|].
  f_equal. apply sorted_names_unique; [done..|].
  intros x. by rewrite Hl, Hl', Hperm.
Qed.

Lemma enumeration_order_is_irrelevant_witness :
  sorted ((λ x, [lit "data"] ++ [x]) <$> [lit "y"; lit "x.txt"]) =
  sorted ((λ x, [lit "data"] ++ [x]) <$> [lit "x.txt"; lit "y"]).
Proof.
  refine (proj1 (enumeration_order_is_irrelevant [lit "data"] [lit "y"; lit "x.txt"]
                   [lit "x.txt"; lit "y"] _ _)).
  - refine (bool_decide_unpack _ _). vm_compute. exact I.
  - apply Permutation_swap.
Defined.

(** ** Nothing happens outside the sandbox *)

Lemma confined_refl root w : confined root w w.
Proof.
  repeat split.
  - exists []. by rewrite app_nil_r.
  - intros r n H. by right.
  - intros r n H. right. by left.
Qed.

Lemma confined_trans root w1 w2 w3 :
  confined root w1 w2 → confined root w2 w3 → confined root w1 w3.
Proof.
  intros ((cs1 & Hc1 & Hok1) & Hk1 & Hn1) ((cs2 & Hc2 & Hok2) & Hk2 & Hn2).
  repeat split.
  - exists (cs1 ++ cs2). rewrite Hc2, Hc1, app_assoc. split; [done|]. by apply Forall_app.
  - intros r n H. destruct (Hk1 r n H) as [?|H2]; [by left|]. by apply Hk2.
  - intros r n H. destruct (Hn2 r n H) as [?|[H2|?]]; [by left| |by right; right].
    by apply Hn1.
Qed.

Lemma confined_logged root w cs : Forall (call_ok root) cs → confined root w (logged w cs).
Proof.
  intros H. repeat split.
  - by exists cs.
  - intros r n Hr. by right.
  - intros r n Hr. right. by left.
Qed.

Section Confined.

Context {A B : Type} (root : path).

Lemma confined_ret (a : A) : stays_confined root (mret a).
Proof. intros w o w' [= _ <-]. apply confined_refl. Qed.

Lemma confined_raise e : stays_confined root (raise e : M A).
Proof. intros w o w' [= _ <-]. apply confined_refl. Qed.

Lemma confined_bind_post (Q : A → Prop) (m : M A) (f : A → M B) :
  (∀ w a w', m w = (Returns a, w') → Q a) →
  stays_confined root m → (∀ a, Q a → stays_confined root (f a)) →
  stays_confined root (m ≫= f).
Proof.
  intros HQ Hm Hf w o w'. rewrite run_bind.
  destruct (m w) as [[a|e] w1] eqn:E.
  - intros H. eapply confined_trans; [eapply Hm, E|]. eapply Hf; [|exact H]. eapply HQ, E.
  - intros [= _ <-]. eapply Hm, E.
Qed.

Lemma confined_bind (m : M A) (f : A → M B) :
  stays_confined root m → (∀ a, stays_confined root (f a)) →
  stays_confined root (m ≫= f).
Proof. intros Hm Hf. apply (confined_bind_post (λ _, True)); auto. Qed.

Lemma confined_select (clauses : list (exn_class * (exn → M A))) e :
  (∀ c h, (c, h) ∈ clauses → stays_confined root (h e)) →
  stays_confined root (select clauses e).
Proof.
  induction clauses as [|[c h] clauses IH]; intros H; simpl.
  - apply confined_raise.
  - destruct (issubclass _ _).
    + apply (H c h). left.
    + apply IH. intros c' h' Hin. apply (H c' h'). by right.
Qed.

Lemma confined_try (body : M A) clauses :
  stays_confined root body →
  (∀ c h e, (c, h) ∈ clauses → stays_confined root (h e)) →
  stays_confined root (try_ body clauses).
Proof.
  intros Hb Hc w o w'. rewrite run_try.
  destruct (body w) as [[a|e] w1] eqn:E.
  - intros [= _ <-]. eapply Hb, E.
  - intros H. eapply confined_trans; [eapply Hb, E|].
    exact (confined_select clauses e (λ c h, Hc c h e) _ _ _ H).
Qed.

End Confined.

Lemma within_near root r : within root r → near root r.
Proof. by left. Qed.

Lemma within_snoc root d x : within root d → within root (d ++ [x]).
Proof. intros [rel ->]. exists (rel ++ [x]). by rewrite app_assoc. Qed.

(** A prefix of a path in the sandbox is in the sandbox or on the way to it. *)
Lemma prefix_near root q r : within root q → r `prefix_of` q → near root r.
Proof.
  intros [rel ->]. revert r. induction root as [|a root IH]; intros r Hr.
  - left. by exists r.
  - destruct r as [|b r]; [right; apply prefix_nil|].
    simpl in Hr. apply prefix_cons_inv_1 in Hr as Hb. subst b.
    apply prefix_cons_inv_2 in Hr.
    destruct (IH r Hr) as [[k ->]|Hp].
    + left. by exists k.
    + right. by apply prefix_cons.
Qed.

Lemma confined_insert root w p n cs :
  Forall (call_ok root) cs →
  within root p ∨ (n = Dir ∧ p `prefix_of` root ∧ files w !! p = None) →
  confined root w (World (<[p := n]> (files w)) (calls w ++ cs)).
Proof.
  intros Hcs Hp. repeat split; simpl.
  - by exists cs.
  - intros r n0 Hr. destruct (decide (r = p)) as [->|Hne].
    + destruct Hp as [?|(_ & _ & Hnone)]; [by left | congruence].
    + right. by rewrite lookup_insert_ne.
  - intros r n0 Hr. destruct (decide (r = p)) as [->|Hne].
    + rewrite lookup_insert_eq in Hr. injection Hr as <-.
      destruct Hp as [?|(-> & ? & _)]; [by left | by right; right].
    + rewrite lookup_insert_ne in Hr by done. right. by left.
Qed.

Lemma node_at_None fs p : node_at fs p = None → p ≠ [] ∧ fs !! p = None.
Proof. destruct p; [done|]. by intros H. Qed.

Lemma confined_stat_test root test p : near root p → stays_confined root (stat_test test p).
Proof.
  intros Hp w o w'. rewrite stat_test_run. intros [= _ <-].
  apply confined_logged. by apply Forall_singleton.
Qed.

Lemma confined_os_stat root p : near root p → stays_confined root (os_stat p).
Proof.
  intros Hp w o w'. rewrite os_stat_run.
  destruct (namei (files w) p); intros [= _ <-]; apply confined_logged; by apply Forall_singleton.
Qed.

Lemma confined_read_text root p : within root p → stays_confined root (read_text p).
Proof.
  intros Hp w o w'. rewrite read_text_run.
  assert (confined root w (logged w [OpenRead p])) as H
    by (apply confined_logged; by apply Forall_singleton).
  destruct (namei (files w) p) as [e|[data|]]; [by intros [= _ <-]| |by intros [= _ <-]].
  destruct (Utf8.decode data); by intros [= _ <-].
Qed.

Lemma iterdir_world p w : (iterdir p w).2 = logged w [Listdir p].
Proof.
  unfold iterdir. rewrite run_log, run_get_files, files_logged.
  by destruct (namei (files w) p) as [e|[data|]].
Qed.

Lemma confined_iterdir root p : within root p → stays_confined root (iterdir p).
Proof.
  intros Hp w o w' H. pose proof (iterdir_world p w) as Hw. rewrite H in Hw.
  simpl in Hw. subst w'. apply confined_logged. by apply Forall_singleton.
Qed.

Lemma iterdir_children p w l w' :
  iterdir p w = (Returns l, w') → Forall (λ item, ∃ x, item = p ++ [x]) l.
Proof.
  unfold iterdir. rewrite run_log, run_get_files, files_logged.
  destruct (namei (files w) p) as [e|[data|]]; try done.
  intros [= <- _]. apply Forall_fmap, Forall_forall. intros x _. by exists x.
Qed.

Lemma confined_os_mkdir root p : near root p → stays_confined root (os_mkdir p).
Proof.
  intros Hp w o w'. rewrite os_mkdir_run.
  assert (Forall (call_ok root) [Mkdir p]) as Hc by (by apply Forall_singleton).
  destruct (lookup_parent (files w) p);
    [intros [= _ <-]; by apply confined_logged|].
  destruct (node_at (files w) p) eqn:E; [intros [= _ <-]; by apply confined_logged|].
  intros [= _ <-]. apply node_at_None in E as [_ E].
  apply confined_insert; [done|]. destruct Hp as [?|?]; [by left | by right].
Qed.

Lemma confined_open_w root p : within root p → stays_confined root (open_w p).
Proof.
  intros Hp w o w'. rewrite open_w_run.
  assert (Forall (call_ok root) [OpenWrite p]) as Hc by (by apply Forall_singleton).
  destruct (lookup_parent (files w) p);
    [intros [= _ <-]; by apply confined_logged|].
  destruct (node_at (files w) p) as [[data|]|]; intros [= _ <-];
    (by apply confined_logged) || (apply confined_insert; [done | by left]).
Qed.

Lemma confined_write root p s : within root p → stays_confined root (write p s).
Proof.
  intros Hp w o w'. unfold write. destruct (Utf8.encode s) as [bytes|].
  - rewrite run_set_node. intros [= _ <-].
    rewrite <- (app_nil_r (calls w)). apply confined_insert; [constructor | by left].
  - destruct (Utf8.bad_run _ _ _) as [[a b]|]; intros [= _ <-]; apply confined_refl.
Qed.

Lemma confined_write_text root p v : within root p → stays_confined root (write_text p v).
Proof.
  intros Hp. destruct v as [s|c s]; simpl; [|apply confined_raise].
  apply confined_bind; [by apply confined_open_w | intros; by apply confined_write].
Qed.

Lemma confined_mkdir_exists root self exist_ok e :
  near root self → stays_confined root (mkdir_exists self exist_ok e).
Proof.
  intros Hp. unfold mkdir_exists, is_dir.
  apply confined_bind; [by apply confined_stat_test|]. intros d.
  destruct (negb exist_ok || negb d); [apply confined_raise | apply confined_ret].
Qed.

Lemma confined_mkdir_rev root rself parents exist_ok :
  (∀ r, r `prefix_of` rev rself → near root r) →
  stays_confined root (mkdir_rev rself parents exist_ok).
Proof.
  revert parents exist_ok. induction rself as [|x rparent IH]; intros parents exist_ok Hp.
  - rewrite mkdir_rev_nil. apply confined_try.
    + apply confined_os_mkdir, Hp. done.
    + intros c h e Hin.
      apply elem_of_cons in Hin as [[= -> ->]|Hin]; [apply confined_raise|].
      apply list_elem_of_singleton in Hin as [= -> ->].
      apply confined_mkdir_exists, Hp. done.
  - rewrite mkdir_rev_cons. cbv zeta.
    assert (near root (rev (x :: rparent))) as Hself by (by apply Hp).
    assert (∀ r, r `prefix_of` rev rparent → near root r) as Hparent.
    { intros r Hr. apply Hp. simpl. by apply prefix_app_r. }
    apply confined_try; [by apply confined_os_mkdir|].
    intros c h e Hin. apply elem_of_cons in Hin as [[= -> ->]|Hin].
    + destruct (negb parents); [apply confined_raise|].
      apply confined_bind; [by apply IH|]. intros _.
      apply confined_try; [by apply confined_os_mkdir|].
      intros c h e' Hin. apply elem_of_cons in Hin as [[= -> ->]|Hin]; [apply confined_raise|].
      apply list_elem_of_singleton in Hin as [= -> ->]. by apply confined_mkdir_exists.
    + apply list_elem_of_singleton in Hin as [= -> ->]. by apply confined_mkdir_exists.
Qed.

Lemma confined_mkdir root d parents exist_ok :
  (∀ r, r `prefix_of` d → near root r) → stays_confined root (mkdir d parents exist_ok).
Proof. intros H. unfold mkdir. apply confined_mkdir_rev. by rewrite rev_involutive. Qed.

Lemma confined_validate self v : stays_confined (allowed_directory self) (_validate_path self v).
Proof.
  intros w o w' H. pose proof (validate_world self v w) as Hw. rewrite H in Hw.
  simpl in Hw. subst. apply confined_refl.
Qed.

Lemma validate_post self v w q w' :
  _validate_path self v w = (Returns q, w') → within (allowed_directory self) q.
Proof. intros H. by apply validate_Returns in H as (_ & p & _ & _ & ?). Qed.

Lemma confined_list_item root item : within root item → stays_confined root (list_item item).
Proof.
  intros Hi. unfold list_item, is_dir, is_file.
  apply confined_bind; [by apply confined_stat_test, within_near|]. intros d.
  apply confined_bind; [by apply confined_stat_test, within_near|]. intros f.
  apply confined_bind; [|intros; apply confined_ret].
  destruct f; [|apply confined_ret].
  apply confined_bind; [by apply confined_os_stat, within_near | intros; apply confined_ret].
Qed.

Lemma confined_for_each {A B} root (body : A → M B) (P : A → Prop) l :
  (∀ x, P x → stays_confined root (body x)) → Forall P l →
  stays_confined root (for_each body l).
Proof.
  intros Hb. induction 1 as [|x l Hx Hl IH]; simpl; [apply confined_ret|].
  apply confined_bind; [by apply Hb|]. intros y.
  apply confined_bind; [apply IH|]. intros ys. apply confined_ret.
Qed.

Lemma confined_read_file self v :
  stays_confined (allowed_directory self) (_read_file self v).
Proof.
  unfold _read_file, exists_, is_file.
  apply (confined_bind_post _ (within (allowed_directory self)));
    [apply validate_post | apply confined_validate|]. intros q Hq.
  apply confined_bind; [by apply confined_stat_test, within_near|]. intros found.
  destruct (negb found); [apply confined_raise|].
  apply confined_bind; [by apply confined_stat_test, within_near|]. intros regular.
  destruct (negb regular); [apply confined_raise|].
  apply confined_try.
  - apply confined_bind; [by apply confined_read_text | intros; apply confined_ret].
  - intros c h e Hin. apply list_elem_of_singleton in Hin as [= -> ->]. apply confined_raise.
Qed.

Lemma confined_list_directory self v :
  stays_confined (allowed_directory self) (_list_directory self v).
Proof.
  unfold _list_directory, exists_, is_dir.
  apply (confined_bind_post _ (within (allowed_directory self)));
    [apply validate_post | apply confined_validate|]. intros q Hq.
  apply confined_bind; [by apply confined_stat_test, within_near|]. intros found.
  destruct (negb found); [apply confined_raise|].
  apply confined_bind; [by apply confined_stat_test, within_near|]. intros d.
  destruct (negb d); [apply confined_raise|].
  apply (confined_bind_post _ (Forall (λ item, ∃ x, item = q ++ [x])));
    [apply iterdir_children | by apply confined_iterdir|]. intros entries Hentries.
  apply confined_bind; [|intros; apply confined_ret].
  apply (confined_for_each _ _ (within (allowed_directory self)));
    [apply confined_list_item|].
  apply Forall_forall. intros item Hin.
  rewrite (sorted_perm entries) in Hin.
  rewrite Forall_forall in Hentries. destruct (Hentries item Hin) as [x ->].
  by apply within_snoc.
Qed.

Lemma confined_len root v : stays_confined root (len v).
Proof. destruct v; [apply confined_ret | apply confined_raise]. Qed.

Lemma confined_write_file self v content :
  stays_confined (allowed_directory self) (_write_file self v content).
Proof.
  unfold _write_file.
  apply (confined_bind_post _ (within (allowed_directory self)));
    [apply validate_post | apply confined_validate|]. intros q Hq.
  apply confined_bind.
  { apply confined_mkdir. intros r Hr. apply (prefix_near _ q); [done|].
    etrans; [exact Hr | apply parent_prefix]. }
  intros _. apply confined_bind; [by apply confined_write_text|]. intros _.
  apply confined_bind; [apply confined_len | intros; apply confined_ret].
Qed.

Lemma confined_call_tool self name arguments :
  stays_confined (allowed_directory self) (call_tool self name arguments).
Proof.
  assert (∀ key, stays_confined (allowed_directory self) (getitem arguments key)) as Hg.
  { intros key. unfold getitem.
    destruct (arguments !! key); [apply confined_ret | apply confined_raise]. }
  unfold call_tool. apply confined_try.
  - unfold dispatch. repeat case_decide.
    + apply confined_bind; [apply Hg | intros; apply confined_read_file].
    + apply confined_bind; [apply Hg | intros; apply confined_list_directory].
    + apply confined_bind; [apply Hg|]. intros p.
      apply confined_bind; [apply Hg | intros; apply confined_write_file].
    + apply confined_raise.
  - intros c h e Hin. apply list_elem_of_singleton in Hin as [= -> ->]. apply confined_ret.
Qed.



(** X8. Whatever a request opens for reading or for writing, and whatever
    it lists, lies inside the sandbox, and so does every directory it
    makes, but for those leading to the root when the root is missing.
    ([stat] only looks at an entry: [Path.resolve] itself does so outside
    the sandbox, before the path is checked.) *)
Theorem calls_stay_in_sandbox self name arguments w :
  ∃ cs, calls (call_tool self name arguments w).2 = calls w ++ cs ∧
        Forall (touches_inside (allowed_directory self)) cs.
Proof.
  destruct (call_tool self name arguments w) as [o w1] eqn:E.
  destruct (confined_call_tool self name arguments _ _ _ E) as ((cs & Hcs & Hok) & _).
  exists cs. split; [done|]. eapply Forall_impl; [exact Hok|].
  by intros [].
Qed.

Lemma calls_stay_in_sandbox_witness :
  ∃ cs,
    calls (call_tool data_server (lit "write_file")
             (write_args (VStr (lit "sub/out.txt")) (VStr (lit "hello"))) data_world).2 =
      calls data_world ++ cs ∧
    Forall (touches_inside (allowed_directory data_server)) cs.
Proof.
  exact (calls_stay_in_sandbox data_server (lit "write_file")
           (write_args (VStr (lit "sub/out.txt")) (VStr (lit "hello"))) data_world).
Defined.

(** ** Writing, then writing or listing *)


(** The directory a successful write leaves above the file. *)
Lemma namei_parent_written fs q n :
  q ≠ [] → lookup_parent fs q = None →
  namei (<[q := n]> fs) (parent q) = inr Dir.
Proof.
  intros Hq Hwalk. pose proof (length_parent q Hq) as Hlen.
  apply lookup_parent_None in Hwalk as [Hname Hwalk].
  assert (∀ r, r `prefix_of` parent q → node_at (<[q := n]> fs) r = Some Dir) as Hdirs.
  { intros r Hr. rewrite node_at_insert_ne; [by apply Hwalk|].
    intros ->. apply prefix_length in Hr. lia. }
  apply namei_inr. split; [|by apply Hdirs].
  apply lookup_parent_None. split; [by apply in_limits_parent|].
  intros r Hr. apply Hdirs. etrans; [exact Hr | apply parent_prefix].
Qed.


Lemma sibling_not_within (q : path) x :
  q ≠ [] → within q (parent q ++ [x]) → parent q ++ [x] = q.
Proof.
  intros Hq [rel Hrel]. pose proof (length_parent q Hq) as Hlen.
  apply (f_equal length) in Hrel as Hl. rewrite !length_app in Hl. simpl in Hl.
  destruct rel; [by rewrite app_nil_r in Hrel | simpl in Hl; lia].
Qed.

Lemma sibling_not_prefix (q : path) x :
  q ≠ [] → parent q ++ [x] `prefix_of` q → parent q ++ [x] = q.
Proof.
  intros Hq [rel Hrel]. pose proof (length_parent q Hq) as Hlen.
  apply (f_equal length) in Hrel as Hl. rewrite !length_app in Hl. simpl in Hl.
  destruct rel; [by rewrite app_nil_r in Hrel | simpl in Hl; lia].
Qed.

(** What [mkdir] on the parent leaves beside [q] was there before. *)
Lemma mkdir_parent_siblings q w o w1 x n :
  q ≠ [] →
  mkdir (parent q) true true w = (o, w1) →
  parent q ++ [x] ≠ q →
  files w1 !! (parent q ++ [x]) = Some n →
  files w !! (parent q ++ [x]) = Some n.
Proof.
  intros Hq Hm Hx Hn.
  assert (stays_confined q (mkdir (parent q) true true)) as Hconf.
  { apply confined_mkdir. intros r Hr. right. etrans; [exact Hr | apply parent_prefix]. }
  destruct (Hconf _ _ _ Hm) as (_ & _ & Hnew).
  destruct (Hnew _ _ Hn) as [Hin|[?|[_ Hpre]]]; [|done|].
  - by apply sibling_not_within in Hin.
  - by apply sibling_not_prefix in Hpre.
Qed.

(** X9. A file that [write_file] has written shows in the listing of its
    directory: where the host accepts the paths of the entries that were
    beside it, [list_directory] on a path that resolves to the parent
    succeeds, and the file's line gives [FILE], the length in bytes of the
    UTF-8 encoding of the text written, and its name. *)
Theorem written_file_is_listed self p d s q r w w' :
  _validate_path self (VStr p) w = (Returns q, w) →
  _validate_path self (VStr d) w = (Returns (parent q), w) →
  (∀ x, is_Some (files w !! (parent q ++ [x])) → in_limits (parent q ++ [x])) →
  _write_file self (VStr p) (VStr s) w = (Returns r, w') →
  ∃ bytes names cs,
    Utf8.encode s = Some bytes ∧
    _list_directory self (VStr d) w' =
      (Returns [mkTextContent (lit "text")
                  (lit "Contents of " ++ to_str (parent q) ++ [58%N; LF] ++
                   join [LF] (entry_line (files w') (parent q) <$> names))],
       logged w' cs) ∧
    PurePath.name q ∈ names ∧
    entry_line (files w') (parent q) (PurePath.name q) =
      lit "FILE  " ++ lit " " ++ rjust 10 (str_of_nat (length bytes)) ++ lit " bytes  " ++
      PurePath.name q.
Proof.
  intros Hq Hd Hsiblings Hw.
  apply write_file_returns_inv in Hw
    as (q' & w1 & bytes & Hv & Hm & Hwalk & Hnode & Henc & -> & _).
  rewrite Hq in Hv. injection Hv as <-.
  assert (q ≠ []) as Hne by (intros ->; by apply Hnode).
  set (w' := World _ _).
  assert (files w' !! (parent q ++ [PurePath.name q]) = Some (File bytes)) as Hfile.
  { rewrite parent_name by done. apply lookup_insert_eq. }
  destruct (list_directory_run self d (parent q) w') as (names & cs & Hrun & _ & Hnames).
  { by apply (validate_transfer _ _ w). }
  { by apply namei_parent_written. }
  { intros x [n Hx]. destruct (decide (parent q ++ [x] = q)) as [->|Hne'].
    - by apply lookup_parent_None in Hwalk as [? _].
    - apply Hsiblings. exists n. apply (mkdir_parent_siblings q w _ w1 x n Hne Hm Hne').
      unfold w' in Hx. cbn [files] in Hx. by rewrite lookup_insert_ne in Hx. }
  exists bytes, names, cs. split; [done|]. split; [exact Hrun|]. split.
  - apply Hnames. by rewrite Hfile.
  - unfold entry_line. by rewrite Hfile.
Qed.

Lemma written_file_is_listed_witness :
  ∃ bytes names cs,
    Utf8.encode (lit "hello") = Some bytes ∧
    _list_directory data_server (VStr (lit "sub")) hello_written.2 =
      (Returns [mkTextContent (lit "text")
                  (lit "Contents of " ++ to_str (parent [lit "data"; lit "sub"; lit "out.txt"]) ++
                   [58%N; LF] ++
                   join [LF] (entry_line (files hello_written.2)
                                (parent [lit "data"; lit "sub"; lit "out.txt"]) <$> names))],
       logged hello_written.2 cs) ∧
    PurePath.name [lit "data"; lit "sub"; lit "out.txt"] ∈ names ∧
    entry_line (files hello_written.2) (parent [lit "data"; lit "sub"; lit "out.txt"])
      (PurePath.name [lit "data"; lit "sub"; lit "out.txt"]) =
      lit "FILE  " ++ lit " " ++ rjust 10 (str_of_nat (length bytes)) ++ lit " bytes  " ++
      PurePath.name [lit "data"; lit "sub"; lit "out.txt"].
Proof.
  apply (written_file_is_listed data_server (lit "sub/out.txt") (lit "sub") (lit "hello")
           [lit "data"; lit "sub"; lit "out.txt"]
           (written (lit "hello") [lit "data"; lit "sub"; lit "out.txt"]) data_world);
    [vm_compute; reflexivity | vm_compute; reflexivity | | vm_compute; reflexivity].
  intros x Hx. apply elem_of_names_in in Hx.
  let l := eval vm_compute in (names_in (files data_world) [lit "data"; lit "sub"]) in
  change (names_in (files data_world) (parent [lit "data"; lit "sub"; lit "out.txt"]))
    with l in Hx.
  by apply elem_of_nil in Hx.
Defined.

(** Without what X9 asks of the entries beside the file, it fails:
    [write_file] puts [f] into [deep_dir], where the entry [0123456789]
    lies beyond [PATH_MAX], and the listing of [deep_dir] then fails on
    that entry. *)
Lemma sibling_out_of_reach :
  Utf8.fs_length (to_str (deep_dir ++ [lit "f"])) = 4092%N ∧
  Utf8.fs_length (to_str (deep_dir ++ [lit "0123456789"])) = 4101%N ∧
  _validate_path data_server (VStr (to_str (deep_dir ++ [lit "f"]))) deep_world =
    (Returns (deep_dir ++ [lit "f"]), deep_world) ∧
  _validate_path data_server (VStr (to_str deep_dir)) deep_world =
    (Returns (parent (deep_dir ++ [lit "f"])), deep_world) ∧
  deep_written.1 = Returns (written (lit "hello") (deep_dir ++ [lit "f"])) ∧
  files deep_written.2 !! (deep_dir ++ [lit "f"]) = Some (File (ascii_bytes "hello")) ∧
  (_list_directory data_server (VStr (to_str deep_dir)) deep_written.2).1 =
    Raises (os_error_of ENAMETOOLONG (deep_dir ++ [lit "0123456789"])).
Proof.
  split; [vm_compute; reflexivity|]. split; [vm_compute; reflexivity|].
  split; [apply (validate_transfer _ _ empty_world); vm_compute; reflexivity|].
  split; [apply (validate_transfer _ _ empty_world); vm_compute; reflexivity|].
  split; [vm_compute; reflexivity|]. split; vm_compute; reflexivity.
Qed.



(** ** The catalogue and the dispatch *)

(** X13. A catalogued operation reads the arguments its entry of the
    catalogue requires and no others: two mappings that agree on them get
    the same answer and leave the same world. *)
Theorem undeclared_arguments_ignored self tool arguments arguments' w :
  tool ∈ list_tools →
  (∀ k, k ∈ required tool → arguments !! k = arguments' !! k) →
  call_tool self (name tool) arguments w = call_tool self (name tool) arguments' w.
Proof.
  intros Htool Hsame.
  assert (∀ k, k ∈ required tool → getitem arguments k = getitem arguments' k) as Hget.
  { intros k Hk. unfold getitem. by rewrite (Hsame k Hk). }
  unfold call_tool. f_equal. unfold list_tools in Htool.
  apply elem_of_cons in Htool as [->|Htool]; [|apply elem_of_cons in Htool as [->|Htool]];
    [| |apply list_elem_of_singleton in Htool as ->]; simpl name; simpl required in Hget.
  - rewrite !dispatch_read_file, (Hget (lit "path")); [done | apply list_elem_of_here].
  - rewrite !dispatch_list_directory, (Hget (lit "path")); [done | apply list_elem_of_here].
  - rewrite !dispatch_write_file, (Hget (lit "path")), (Hget (lit "content"));
      [done | apply list_elem_of_further, list_elem_of_here | apply list_elem_of_here].
Qed.

Lemma undeclared_arguments_ignored_witness :
  call_tool data_server (lit "read_file")
    (<[ lit "encoding" := VStr (lit "latin-1") ]> (path_arg (VStr (lit "x.txt")))) data_world =
  call_tool data_server (lit "read_file") (path_arg (VStr (lit "x.txt"))) data_world.
Proof.
  apply (undeclared_arguments_ignored data_server read_file_tool).
  - apply list_elem_of_here.
  - intros k Hk. apply list_elem_of_singleton in Hk as ->. vm_compute. reflexivity.
Defined.

(** ** The tools of [direct_approach.py] *)

Lemma walk_app reached a b : walk reached (a ++ b) = walk (walk reached a) b.
Proof.
  revert reached. induction a as [|x a IH]; intros reached; simpl; [done|].
  case_decide; apply IH.
Qed.

Lemma visited_app reached a b :
  visited reached (a ++ b) = visited reached a ++ visited (walk reached a) b.
Proof.
  revert reached. induction a as [|x a IH]; intros reached; simpl; [done|].
  case_decide; [apply IH|]. by rewrite IH.
Qed.

Lemma resolved_probes p q :
  resolved p = Returns q →
  omap (λ r, path_arg_error (to_str r)) (visited [] p) = [] ∧ walk [] p = q.
Proof.
  unfold resolved. destruct (omap _ _); [|done]. by intros [= <-].
Qed.

(** Joining onto the unresolved directory and resolving, as the direct
    tools do, is resolving the server's candidate. *)
Lemma resolved_joined docs root ps :
  resolved docs = Returns root → resolved (docs ++ ps) = resolved (root ++ ps).
Proof.
  intros Hdocs. pose proof (resolved_idempotent _ _ Hdocs) as Hroot.
  apply resolved_probes in Hdocs as [Hd1 Hd2].
  apply resolved_probes in Hroot as [Hr1 Hr2].
  unfold resolved. rewrite !visited_app, !omap_app, !walk_app, Hd1, Hd2, Hr1, Hr2. done.
Qed.

Lemma resolved_direct self docs p :
  resolved docs = Returns (allowed_directory self) →
  resolved (if isabs p then Path p else joinpath docs p) = resolved (candidate self p).
Proof.
  intros Hdocs. unfold candidate. destruct (isabs p); [done|].
  unfold joinpath. by apply resolved_joined.
Qed.

Lemma resolved_dot self docs :
  resolved docs = Returns (allowed_directory self) →
  resolved docs = resolved (candidate self (lit ".")).
Proof.
  intros Hdocs. rewrite <- (resolved_direct self docs) by done.
  simpl. unfold joinpath. change (parts (lit ".")) with (@nil str). by rewrite app_nil_r.
Qed.

(** The check both direct tools start with, on the path [c] they resolve. *)
Lemma direct_check c docs root (k : path → M str) w :
  resolved docs = Returns root →
  (dir_path ← resolve c;
   allowed_dir ← resolve docs;
   answer ← try_ (Path_relative_to dir_path allowed_dir;; mret None)
              [(ValueError, λ _, mret (Some Direct.outside))];
   match answer with
   | Some denied => mret denied
   | None => k dir_path
   end) w =
  match resolved c with
  | Raises e => (Raises e, w)
  | Returns q =>
      match relative_to q root with
      | Some _ => k q w
      | None => (Returns Direct.outside, w)
      end
  end.
Proof.
  intros Hdocs. rewrite run_bind, resolve_run.
  destruct (resolved c) as [q|e]; [|done].
  rewrite run_bind, resolve_run, Hdocs, run_bind, run_try, run_bind.
  unfold Path_relative_to. by destruct (relative_to q root).
Qed.

Lemma direct_list_directory_run self docs p w :
  resolved docs = Returns (allowed_directory self) →
  Direct.list_directory docs p w =
    match resolved (candidate self p) with
    | Raises e => (Returns (lit "Error listing directory: " ++ exn_str e), w)
    | Returns q =>
        match relative_to q (allowed_directory self) with
        | None => (Returns Direct.outside, w)
        | Some _ =>
            try_
              (found ← exists_ q;
               if negb found then mret (lit "Error: Directory not found: " ++ p)
               else
                 d ← is_dir q;
                 if negb d then mret (lit "Error: Not a directory: " ++ p)
                 else
                   entries ← iterdir q;
                   items ← for_each list_item (sorted entries);
                   mret (lit "Contents of " ++ to_str q ++ [58%N; LF] ++ join [LF] items))
              [(Exception, λ e, mret (lit "Error listing directory: " ++ exn_str e))] w
        end
    end.
Proof.
  intros Hdocs. unfold Direct.list_directory. cbv zeta.
  rewrite run_try, (direct_check _ _ _ _ _ Hdocs).
  replace (resolved (if decide (p = lit ".") then docs
                     else if isabs p then Path p else joinpath docs p))
    with (resolved (candidate self p)).
  - destruct (resolved (candidate self p)) as [q|e].
    + destruct (relative_to q (allowed_directory self)); [by rewrite run_try | done].
    + simpl. by rewrite issubclass_Exception.
  - case_decide as Hdot.
    + subst p. symmetry. by apply resolved_dot.
    + symmetry. by apply resolved_direct.
Qed.

Lemma direct_write_file_run self docs p s w :
  resolved docs = Returns (allowed_directory self) →
  Direct.write_file docs p s w =
    match resolved (candidate self p) with
    | Raises e => (Returns (lit "Error writing file: " ++ exn_str e), w)
    | Returns q =>
        match relative_to q (allowed_directory self) with
        | None => (Returns Direct.outside, w)
        | Some _ =>
            try_
              (mkdir (parent q) true true;;
               write_text q (VStr s);;
               n ← len (VStr s);
               mret (lit "Successfully wrote " ++ str_of_nat n ++ lit " characters to " ++
                     PurePath.name q))
              [(Exception, λ e, mret (lit "Error writing file: " ++ exn_str e))] w
        end
    end.
Proof.
  intros Hdocs. unfold Direct.write_file. cbv zeta.
  rewrite run_try, (direct_check _ _ _ _ _ Hdocs), (resolved_direct self docs p Hdocs).
  destruct (resolved (candidate self p)) as [q|e].
  - destruct (relative_to q (allowed_directory self)); [by rewrite run_try | done].
  - simpl. by rewrite issubclass_Exception.
Qed.

Lemma accepted_run self p q w :
  _validate_path self (VStr p) w = (Returns q, w) →
  resolved (candidate self p) = Returns q ∧
  ∃ rel, relative_to q (allowed_directory self) = Some rel.
Proof.
  intros H. apply validate_Returns in H as (_ & p' & [= <-] & Hres & rel & Hrel).
  split; [done|]. exists rel. by apply relative_to_Some.
Qed.

Lemma direct_write_file_accepted self docs p s q w :
  resolved docs = Returns (allowed_directory self) →
  _validate_path self (VStr p) w = (Returns q, w) →
  match _write_file self (VStr p) (VStr s) w with
  | (Returns l, w') =>
      ∃ t, l = [mkTextContent (lit "text") t] ∧
           Direct.write_file docs p s w = (Returns t, w')
  | (Raises e, w') =>
      Direct.write_file docs p s w = (Returns (lit "Error writing file: " ++ exn_str e), w')
  end.
Proof.
  intros Hdocs Hv. rewrite (direct_write_file_run self docs p s w Hdocs).
  destruct (accepted_run _ _ _ _ Hv) as (-> & rel & ->).
  unfold _write_file. rewrite (run_bind_returns _ _ _ _ _ Hv), run_try, !run_bind.
  destruct (mkdir (parent q) true true w) as [[[]|e1] w1].
  - rewrite !run_bind.
    destruct (write_text q (VStr s) w1) as [[n|e2] w2].
    + eexists. split; reflexivity.
    + simpl. by rewrite issubclass_Exception.
  - simpl. by rewrite issubclass_Exception.
Qed.

(** X11. The [write_file] tool of [direct_approach.py], on the directory
    the server was started with, does what the server's handler does: an
    accepted path gets the same files and, on success, the same text; what
    the handler raises comes back as [Error writing file: <str(e)>]; a
    path outside gets a fixed text that names neither the path nor the
    directory, and no file is touched. *)
Theorem direct_write_file_agrees self docs p s w :
  resolved docs = Returns (allowed_directory self) →
  (∀ q, _validate_path self (VStr p) w = (Returns q, w) →
     files (Direct.write_file docs p s w).2 =
       files (_write_file self (VStr p) (VStr s) w).2 ∧
     (∀ l, (_write_file self (VStr p) (VStr s) w).1 = Returns l →
        ∃ t, l = [mkTextContent (lit "text") t] ∧
             (Direct.write_file docs p s w).1 = Returns t) ∧
     (∀ e, (_write_file self (VStr p) (VStr s) w).1 = Raises e →
        (Direct.write_file docs p s w).1 =
          Returns (lit "Error writing file: " ++ exn_str e))) ∧
  (∀ q, resolved (candidate self p) = Returns q →
     ¬ within (allowed_directory self) q →
     (Direct.write_file docs p s w).1 =
       Returns (lit "Error: Access denied - path outside allowed directory") ∧
     files (Direct.write_file docs p s w).2 = files w) ∧
  (∀ e, resolved (candidate self p) = Raises e →
     (Direct.write_file docs p s w).1 =
       Returns (lit "Error writing file: " ++ exn_str e) ∧
     files (Direct.write_file docs p s w).2 = files w).
Proof.
  intros Hdocs. split; [|split].
  - intros q Hv. pose proof (direct_write_file_accepted self docs p s q w Hdocs Hv) as H.
    destruct (_write_file self (VStr p) (VStr s) w) as [[l|e] w'].
    + destruct H as (t & -> & ->). split; [done|]. split; [|done].
      intros l [= <-]. by exists t.
    + rewrite H. split; [done|]. split; [done|]. by intros e' [= <-].
  - intros q Hq Hout. rewrite (direct_write_file_run self docs p s w Hdocs), Hq.
    destruct (relative_to q (allowed_directory self)) as [rel|] eqn:E; [|done].
    destruct Hout. exists rel. by apply relative_to_Some.
  - intros e He. by rewrite (direct_write_file_run self docs p s w Hdocs), He.
Qed.

Lemma direct_write_file_agrees_witness :
  (Direct.write_file [lit "data"] (lit "../etc/passwd") (lit "x") data_world).1 =
    Returns (lit "Error: Access denied - path outside allowed directory") ∧
  files (Direct.write_file [lit "data"] (lit "../etc/passwd") (lit "x") data_world).2 =
    files data_world.
Proof.
  refine (proj1 (proj2 (direct_write_file_agrees data_server [lit "data"]
                          (lit "../etc/passwd") (lit "x") data_world _))
            [lit "etc"; lit "passwd"] _ _).
  - vm_compute. reflexivity.
  - vm_compute. reflexivity.
  - intros [rel Hrel]. discriminate Hrel.
Defined.

Lemma keeps_resolve p : keeps_files (resolve p).
Proof. intros w o w'. rewrite resolve_run. by intros [= _ <-]. Qed.

Lemma keeps_direct_list_directory docs p : keeps_files (Direct.list_directory docs p).
Proof.
  unfold Direct.list_directory. cbv zeta. apply keeps_try.
  - apply keeps_bind; [apply keeps_resolve|]. intros dir_path.
    apply keeps_bind; [apply keeps_resolve|]. intros allowed_dir.
    apply keeps_bind.
    { apply keeps_try.
      - apply keeps_bind; [|intros; apply keeps_ret]. unfold Path_relative_to.
        destruct (relative_to dir_path allowed_dir); [apply keeps_ret | apply keeps_raise].
      - intros c h e Hin. apply list_elem_of_singleton in Hin as [= -> ->]. apply keeps_ret. }
    intros [denied|]; [apply keeps_ret|].
    apply keeps_bind; [apply keeps_stat_test|]. intros found.
    destruct (negb found); [apply keeps_ret|].
    apply keeps_bind; [apply keeps_stat_test|]. intros d.
    destruct (negb d); [apply keeps_ret|].
    apply keeps_bind; [apply keeps_iterdir|]. intros entries.
    apply keeps_bind; [|intros; apply keeps_ret].
    apply keeps_for_each. intros item. apply keeps_list_item.
  - intros c h e Hin. apply list_elem_of_singleton in Hin as [= -> ->]. apply keeps_ret.
Qed.

Lemma call_tool_list_directory self p w :
  (call_tool self (lit "list_directory") (path_arg (VStr p)) w).1 =
    match (_list_directory self (VStr p) w).1 with
    | Returns l => Returns l
    | Raises e => Returns (failure (exn_str e))
    end.
Proof.
  assert (dispatch self (lit "list_directory") (path_arg (VStr p)) w =
            _list_directory self (VStr p) w) as Hd.
  { rewrite dispatch_list_directory. unfold path_arg.
    by rewrite (run_bind_returns _ _ _ _ _
                  (getitem_Some _ _ _ w (lookup_singleton_eq _ _))). }
  destruct (_list_directory self (VStr p) w) as [[l|e] w'] eqn:E.
  - by rewrite (call_tool_returns _ _ _ _ _ _ Hd).
  - by rewrite (call_tool_raises _ _ _ _ _ _ Hd).
Qed.

(** X12. The [list_directory] tool of [direct_approach.py], on the
    directory the server was started with, changes no file and answers an
    accepted path with the very text the server's [call_tool] gives for it,
    [Directory not found] and [Not a directory] included; its special case
    for [.] changes nothing. Only where the system raises do the texts
    part: the tool's begins [Error listing directory: ], the server's
    [Error: ]. A path outside gets the fixed text, and what resolving raises
    comes back as [Error listing directory: <str(e)>]. *)
Theorem direct_list_directory_agrees self docs p w :
  resolved docs = Returns (allowed_directory self) →
  files (Direct.list_directory docs p w).2 = files w ∧
  (∀ q, _validate_path self (VStr p) w = (Returns q, w) →
     match namei (files w) q with
     | inl e =>
         if bool_decide (e ∈ _IGNORED_ERRNOS)
         then same_answer (Direct.list_directory docs p w)
                (call_tool self (lit "list_directory") (path_arg (VStr p)) w)
         else (Direct.list_directory docs p w).1 =
                Returns (lit "Error listing directory: " ++ exn_str (os_error_of e q))
     | inr (File _) =>
         same_answer (Direct.list_directory docs p w)
           (call_tool self (lit "list_directory") (path_arg (VStr p)) w)
     | inr Dir =>
         match (_list_directory self (VStr p) w).1 with
         | Returns _ =>
             same_answer (Direct.list_directory docs p w)
               (call_tool self (lit "list_directory") (path_arg (VStr p)) w)
         | Raises e =>
             (Direct.list_directory docs p w).1 =
               Returns (lit "Error listing directory: " ++ exn_str e)
         end
     end) ∧
  (∀ q, resolved (candidate self p) = Returns q →
     ¬ within (allowed_directory self) q →
     (Direct.list_directory docs p w).1 =
       Returns (lit "Error: Access denied - path outside allowed directory")) ∧
  (∀ e, resolved (candidate self p) = Raises e →
     (Direct.list_directory docs p w).1 =
       Returns (lit "Error listing directory: " ++ exn_str e)).
Proof.
  intros Hdocs. split.
  { destruct (Direct.list_directory docs p w) as [o w'] eqn:E.
    exact (keeps_direct_list_directory docs p _ _ _ E). }
  rewrite (direct_list_directory_run self docs p w Hdocs).
  split; [|split].
  - intros q Hv. destruct (accepted_run _ _ _ _ Hv) as (-> & rel & ->).
    unfold same_answer. rewrite call_tool_list_directory.
    destruct (list_directory_errors self p q w Hv) as [Hmissing Hfile].
    rewrite run_try. unfold exists_, is_dir.
    rewrite run_bind, stat_test_run.
    destruct (namei (files w) q) as [e|[data|]] eqn:E.
    + rewrite (Hmissing e eq_refl).
      destruct (bool_decide (e ∈ _IGNORED_ERRNOS)).
      * eexists. split; reflexivity.
      * simpl. by rewrite issubclass_Exception.
    + cbn [negb].
      rewrite run_bind, stat_test_run, files_logged, E, logged_logged. cbn [negb].
      rewrite (Hfile data eq_refl). eexists. split; reflexivity.
    + unfold _list_directory.
      rewrite (run_bind_returns _ _ _ _ _ Hv). unfold exists_, is_dir.
      rewrite run_bind, stat_test_run, E. cbn [negb].
      rewrite !run_bind, !stat_test_run, !files_logged, E. cbn [negb].
      rewrite !run_bind.
      destruct (iterdir q _) as [[entries|e1] w1].
      * rewrite !run_bind.
        destruct (for_each list_item (sorted entries) w1) as [[items|e2] w2].
        -- eexists. split; reflexivity.
        -- simpl. by rewrite issubclass_Exception.
      * simpl. by rewrite issubclass_Exception.
  - intros q -> Hout.
    destruct (relative_to q (allowed_directory self)) as [rel|] eqn:E; [|done].
    destruct Hout. exists rel. by apply relative_to_Some.
  - by intros e ->.
Qed.

Lemma direct_list_directory_agrees_witness :
  same_answer (Direct.list_directory [lit "data"] (lit ".") data_world)
    (call_tool data_server (lit "list_directory") (path_arg (VStr (lit "."))) data_world).
Proof.
  pose proof (proj1 (proj2 (direct_list_directory_agrees data_server [lit "data"] (lit ".")
                              data_world eq_refl)) [lit "data"] eq_refl) as H.
  exact H.
Defined.

(** ** The limits of the host *)

Lemma not_in_limits_long_name d : ¬ in_limits (d ++ [long_name]).
Proof.
  intros [_ H]. apply Forall_app in H as [_ H]. apply Forall_inv in H.
  vm_compute in H. discriminate H.
Qed.

(** X14. A request on a path over the limits of the host never succeeds:
    for a path the sandbox accepts, with a name of more than [NAME_MAX]
    bytes or [PATH_MAX] bytes or more in all, reading, listing and writing
    all fail, whatever the tree holds. *)
Theorem beyond_limits_fails self p q w :
  _validate_path self (VStr p) w = (Returns q, w) →
  ¬ in_limits q →
  (∃ e, (_read_file self (VStr p) w).1 = Raises e) ∧
  (∃ e, (_list_directory self (VStr p) w).1 = Raises e) ∧
  (∀ s, ∃ e, (_write_file self (VStr p) (VStr s) w).1 = Raises e).
Proof.
  intros Hv Hq.
  assert (∃ e, namei (files w) q = inl e) as [e He].
  { destruct (namei (files w) q) as [e|n] eqn:E; [by exists e|].
    by apply namei_in_limits in E. }
  split; [|split].
  - rewrite (read_file_run self p q w Hv), He. by eexists.
  - destruct (list_directory_errors self p q w Hv) as [H _].
    rewrite (H e He). by eexists.
  - intros s. destruct (_write_file self (VStr p) (VStr s) w) as [[r|e'] w'] eqn:E;
      [|by eexists].
    apply write_file_returns_inv in E as (q' & w1 & bytes & Hv' & _ & Hl & _).
    rewrite Hv in Hv'. injection Hv' as <-.
    by apply lookup_parent_None in Hl as [? _].
Qed.

Lemma beyond_limits_fails_witness :
  ∃ e, (_write_file data_server (VStr long_name) (VStr (lit "x")) data_world).1 = Raises e.
Proof.
  refine (proj2 (proj2 (beyond_limits_fails data_server long_name [lit "data"; long_name]
                          data_world _ _)) (lit "x")).
  - vm_compute. reflexivity.
  - apply (not_in_limits_long_name [lit "data"]).
Defined.

Section KeepsInLimits.

Context {A B : Type}.

Lemma keeps_in_limits_ret (a : A) : keeps_in_limits (mret a).
Proof. by intros w o w' [= _ <-]. Qed.

Lemma keeps_in_limits_raise e : keeps_in_limits (raise (A := A) e).
Proof. by intros w o w' [= _ <-]. Qed.

Lemma keeps_in_limits_keeps (m : M A) : keeps_files m → keeps_in_limits m.
Proof. intros Hm w o w' H Hw. by rewrite (Hm _ _ _ H). Qed.

Lemma keeps_in_limits_bind (m : M A) (f : A → M B) :
  keeps_in_limits m → (∀ a, keeps_in_limits (f a)) → keeps_in_limits (m ≫= f).
Proof.
  intros Hm Hf w o w'. rewrite run_bind.
  destruct (m w) as [[a|e] w1] eqn:E.
  - intros H Hw. eapply Hf; [exact H|]. eapply Hm; [exact E | exact Hw].
  - intros [= _ <-]. eapply Hm, E.
Qed.

Lemma keeps_in_limits_select (clauses : list (exn_class * (exn → M A))) e :
  (∀ c h, (c, h) ∈ clauses → keeps_in_limits (h e)) → keeps_in_limits (select clauses e).
Proof.
  induction clauses as [|[c h] clauses IH]; intros H; simpl.
  - apply keeps_in_limits_raise.
  - destruct (issubclass _ _).
    + apply (H c h). left.
    + apply IH. intros c' h' Hin. apply (H c' h'). by right.
Qed.

Lemma keeps_in_limits_try (body : M A) clauses :
  keeps_in_limits body →
  (∀ c h e, (c, h) ∈ clauses → keeps_in_limits (h e)) →
  keeps_in_limits (try_ body clauses).
Proof.
  intros Hb Hc w o w'. rewrite run_try.
  destruct (body w) as [[a|e] w1] eqn:E.
  - intros [= _ <-]. eapply Hb, E.
  - intros H Hw. eapply (keeps_in_limits_select clauses e (λ c h, Hc c h e)); [exact H|].
    eapply Hb; [exact E | exact Hw].
Qed.

End KeepsInLimits.

Lemma all_in_limits_insert fs p n :
  in_limits p → all_in_limits fs → all_in_limits (<[p := n]> fs).
Proof.
  intros Hp Hfs r m Hr. destruct (decide (r = p)) as [->|Hne]; [done|].
  rewrite lookup_insert_ne in Hr by done. by apply (Hfs r m).
Qed.

Lemma keeps_in_limits_os_mkdir p : keeps_in_limits (os_mkdir p).
Proof.
  intros w o w'. rewrite os_mkdir_run.
  destruct (lookup_parent (files w) p) eqn:E; [by intros [= _ <-]|].
  destruct (node_at (files w) p); intros [= _ <-]; [done|].
  intros Hw. apply all_in_limits_insert; [|done].
  by apply lookup_parent_None in E as [? _].
Qed.

Lemma keeps_in_limits_write_text p v : keeps_in_limits (write_text p v).
Proof.
  destruct v as [s|c s]; [|apply keeps_in_limits_raise].
  intros w o w'. unfold write_text. rewrite run_bind, open_w_run.
  destruct (lookup_parent (files w) p) eqn:E; [by intros [= _ <-]|].
  apply lookup_parent_None in E as [Hp _].
  assert (∀ w1 : world, all_in_limits (files w1) → write p s w1 = (o, w') →
            all_in_limits (files w')) as Hwrite.
  { intros w1 Hw1. unfold write. destruct (Utf8.encode s) as [bytes|].
    - rewrite run_set_node. intros [= _ <-]. by apply all_in_limits_insert.
    - by destruct (Utf8.bad_run _ _ _) as [[a b]|]; intros [= _ <-]. }
  destruct (node_at (files w) p) as [[data|]|]; [|by intros [= _ <-]|];
    intros H Hw; refine (Hwrite _ _ H); by apply all_in_limits_insert.
Qed.

Lemma keeps_in_limits_mkdir_exists self exist_ok e : keeps_in_limits (mkdir_exists self exist_ok e).
Proof.
  unfold mkdir_exists, is_dir.
  apply keeps_in_limits_bind; [apply keeps_in_limits_keeps, keeps_stat_test|]. intros d.
  destruct (negb exist_ok || negb d); [apply keeps_in_limits_raise | apply keeps_in_limits_ret].
Qed.

Lemma keeps_in_limits_mkdir_rev rself parents exist_ok :
  keeps_in_limits (mkdir_rev rself parents exist_ok).
Proof.
  revert parents exist_ok. induction rself as [|x rparent IH]; intros parents exist_ok.
  - rewrite mkdir_rev_nil. apply keeps_in_limits_try; [apply keeps_in_limits_os_mkdir|].
    intros c h e Hin.
    apply elem_of_cons in Hin as [[= -> ->]|Hin]; [apply keeps_in_limits_raise|].
    apply list_elem_of_singleton in Hin as [= -> ->]. apply keeps_in_limits_mkdir_exists.
  - rewrite mkdir_rev_cons. cbv zeta. apply keeps_in_limits_try; [apply keeps_in_limits_os_mkdir|].
    intros c h e Hin.
    apply elem_of_cons in Hin as [[= -> ->]|Hin].
    + destruct (negb parents); [apply keeps_in_limits_raise|].
      apply keeps_in_limits_bind; [apply IH|]. intros _.
      apply keeps_in_limits_try; [apply keeps_in_limits_os_mkdir|].
      intros c h e' Hin.
      apply elem_of_cons in Hin as [[= -> ->]|Hin]; [apply keeps_in_limits_raise|].
      apply list_elem_of_singleton in Hin as [= -> ->]. apply keeps_in_limits_mkdir_exists.
    + apply list_elem_of_singleton in Hin as [= -> ->]. apply keeps_in_limits_mkdir_exists.
Qed.

Lemma keeps_in_limits_write_file self v content : keeps_in_limits (_write_file self v content).
Proof.
  unfold _write_file.
  apply keeps_in_limits_bind; [apply keeps_in_limits_keeps, keeps_validate|]. intros q.
  apply keeps_in_limits_bind; [apply keeps_in_limits_mkdir_rev|]. intros _.
  apply keeps_in_limits_bind; [apply keeps_in_limits_write_text|]. intros _.
  apply keeps_in_limits_bind; [|intros; apply keeps_in_limits_ret].
  destruct content; [apply keeps_in_limits_ret | apply keeps_in_limits_raise].
Qed.

Lemma keeps_in_limits_call_tool self name arguments :
  keeps_in_limits (call_tool self name arguments).
Proof.
  unfold call_tool. apply keeps_in_limits_try.
  - unfold dispatch. repeat case_decide.
    + apply keeps_in_limits_keeps, keeps_bind; [apply keeps_getitem | intros; apply keeps_read_file].
    + apply keeps_in_limits_keeps, keeps_bind;
        [apply keeps_getitem | intros; apply keeps_list_directory].
    + apply keeps_in_limits_bind; [apply keeps_in_limits_keeps, keeps_getitem|]. intros p.
      apply keeps_in_limits_bind; [apply keeps_in_limits_keeps, keeps_getitem|]. intros c.
      apply keeps_in_limits_write_file.
    + apply keeps_in_limits_raise.
  - intros c h e Hin. apply list_elem_of_singleton in Hin as [= -> ->]. apply keeps_in_limits_ret.
Qed.

(** X15. The server makes no entry the host could not name: where every
    entry has an absolute path within the limits of the host, so has every
    entry after any request. On a tree that the server alone has filled,
    what the listing asks of the entries of a directory therefore holds. *)
Theorem entries_stay_in_limits self name arguments w :
  all_in_limits (files w) →
  all_in_limits (files (call_tool self name arguments w).2).
Proof.
  intros Hw. destruct (call_tool self name arguments w) as [o w'] eqn:E.
  exact (keeps_in_limits_call_tool self name arguments _ _ _ E Hw).
Qed.

Lemma entries_stay_in_limits_witness :
  all_in_limits (files (call_tool data_server (lit "write_file")
                          (write_args (VStr (lit "sub/out.txt")) (VStr (lit "hello")))
                          data_world).2).
Proof.
  apply (entries_stay_in_limits data_server (lit "write_file")
           (write_args (VStr (lit "sub/out.txt")) (VStr (lit "hello"))) data_world).
  intros r n Hr. apply elem_of_map_to_list in Hr.
  let l := eval vm_compute in (map_to_list (files data_world)) in
  change (map_to_list (files data_world)) with l in Hr.
  repeat (apply elem_of_cons in Hr as [[= -> _]|Hr]);
    [split; [vm_compute; reflexivity | repeat constructor]..|].
  by apply elem_of_nil in Hr.
Defined.

(** ** Entries beyond the limits of the host *)

Lemma namei_child_beyond fs d x :
  namei fs d = inr Dir → ¬ in_limits (d ++ [x]) → namei fs (d ++ [x]) = inl ENAMETOOLONG.
Proof.
  intros Hd Hx. unfold namei, lookup_parent.
  destruct (path_too_long (d ++ [x])) eqn:Hp; [done|].
  rewrite parent_snoc, (namei_dir_walk _ _ Hd), name_snoc.
  destruct (name_too_long x) eqn:Hn; [done|]. destruct Hx. split; [done|].
  apply Forall_app. split; [|by repeat constructor].
  by destruct (namei_in_limits _ _ _ Hd).
Qed.

Lemma list_item_beyond d x w :
  namei (files w) d = inr Dir → ¬ in_limits (d ++ [x]) →
  (list_item (d ++ [x]) w).1 = Raises (os_error_of ENAMETOOLONG (d ++ [x])).
Proof.
  intros Hd Hx. unfold list_item, is_dir.
  by rewrite run_bind, stat_test_run, (namei_child_beyond _ _ _ Hd Hx).
Qed.

Lemma for_each_list_item_beyond d names w :
  namei (files w) d = inr Dir →
  ¬ Forall (λ x, in_limits (d ++ [x])) names →
  ∃ x, x ∈ names ∧ ¬ in_limits (d ++ [x]) ∧
       (for_each list_item ((λ x, d ++ [x]) <$> names) w).1 =
         Raises (os_error_of ENAMETOOLONG (d ++ [x])).
Proof.
  revert w. induction names as [|x names IH]; intros w Hd Hnames.
  - destruct Hnames. constructor.
  - rewrite fmap_cons. cbn [for_each]. rewrite run_bind.
    destruct (decide (in_limits (d ++ [x]))) as [Hx|Hx].
    + destruct (list_item_run d x w (namei_dir_walk _ _ Hd) Hx) as (cs & ->).
      destruct (IH (logged w cs)) as (y & Hy & Hbad & Hrun).
      { by rewrite files_logged. }
      { intros H. apply Hnames. by constructor. }
      exists y. split; [by right|]. split; [done|].
      rewrite run_bind.
      destruct (for_each list_item ((λ x, d ++ [x]) <$> names) (logged w cs)) as [[ys|e] w1];
        cbn [fst] in Hrun; [discriminate|]; injection Hrun as ->; reflexivity.
    + exists x. split; [left|]. split; [done|].
      pose proof (list_item_beyond d x w Hd Hx) as H.
      destruct (list_item (d ++ [x]) w) as [[y|e] w1]; cbn [fst] in H; [discriminate|]; injection H as ->; reflexivity.
Qed.

Lemma list_directory_beyond self p q w :
  _validate_path self (VStr p) w = (Returns q, w) →
  namei (files w) q = inr Dir →
  ¬ (∀ x, is_Some (files w !! (q ++ [x])) → in_limits (q ++ [x])) →
  ∃ x, is_Some (files w !! (q ++ [x])) ∧ ¬ in_limits (q ++ [x]) ∧
       (_list_directory self (VStr p) w).1 = Raises (os_error_of ENAMETOOLONG (q ++ [x])).
Proof.
  intros Hv Hdir Hchildren. unfold _list_directory.
  rewrite (run_bind_returns _ _ _ _ _ Hv).
  unfold exists_, is_dir. rewrite run_bind, stat_test_run, Hdir. cbn [negb].
  rewrite run_bind, stat_test_run, files_logged, Hdir. cbn [negb].
  rewrite run_bind, iterdir_run by (by rewrite !files_logged).
  rewrite !files_logged, !logged_logged.
  set (paths := (λ x, q ++ [x]) <$> names_in (files w) q).
  destruct (Permutation_map_inv (λ x : str, q ++ [x]) (l1 := sorted paths)
              (names_in (files w) q))
    as (names & Hsorted & Hperm).
  { apply sorted_perm. }
  rewrite Hsorted.
  assert (∀ x, x ∈ names ↔ is_Some (files w !! (q ++ [x]))) as Hnames.
  { intros x. rewrite <- Hperm. apply elem_of_names_in. }
  destruct (for_each_list_item_beyond q names (logged w [Stat q; Stat q; Listdir q]))
    as (x & Hx & Hbad & Hrun).
  { by rewrite files_logged. }
  { intros H. apply Hchildren. intros x Hx. apply Hnames in Hx.
    by apply (proj1 (Forall_forall _ _) H). }
  exists x. split; [by apply Hnames|]. split; [done|].
  rewrite run_bind.
  match goal with |- context [for_each list_item ?l ?w0] =>
    destruct (for_each list_item l w0) as [[ys|e] w1] eqn:E end;
    pose proof (eq_trans (eq_sym (f_equal fst E)) Hrun) as H;
    [discriminate H | injection H as ->; reflexivity].
Qed.

(** X16. The listing of a directory succeeds exactly when the host accepts
    the absolute path of every entry of the directory; when it fails, it
    fails with the [OSError] of the host, [File name too long], on an entry
    whose path the host does not accept. *)
Theorem listing_needs_entries_in_limits self p q w :
  _validate_path self (VStr p) w = (Returns q, w) →
  namei (files w) q = inr Dir →
  ((∃ r, (_list_directory self (VStr p) w).1 = Returns r) ↔
   (∀ x, is_Some (files w !! (q ++ [x])) → in_limits (q ++ [x]))) ∧
  (∀ e, (_list_directory self (VStr p) w).1 = Raises e →
     ∃ x, is_Some (files w !! (q ++ [x])) ∧ ¬ in_limits (q ++ [x]) ∧
          e = os_error_of ENAMETOOLONG (q ++ [x])).
Proof.
  intros Hv Hd.
  destruct (decide (Forall (λ x, in_limits (q ++ [x])) (names_in (files w) q)))
    as [Hall|Hnot].
  - assert (∀ x, is_Some (files w !! (q ++ [x])) → in_limits (q ++ [x])) as Hc.
    { intros x Hx. apply elem_of_names_in in Hx.
      by apply (proj1 (Forall_forall _ _) Hall). }
    destruct (list_directory_run self p q w Hv Hd Hc) as (names & cs & -> & _).
    split; [|discriminate]. split; [done|]. by eexists.
  - destruct (list_directory_beyond self p q w Hv Hd) as (x & Hx & Hbad & ->).
    { intros Hc. apply Hnot, Forall_forall. intros x Hx. by apply Hc, elem_of_names_in. }
    split.
    + split; [by intros [r Hr]|]. intros Hc. by destruct (Hbad (Hc x Hx)).
    + intros e [= <-]. by exists x.
Qed.

Lemma listing_needs_entries_in_limits_witness :
  ¬ ∃ r, (_list_directory data_server (VStr (to_str deep_dir)) deep_world).1 = Returns r.
Proof.
  destruct (listing_needs_entries_in_limits data_server (to_str deep_dir) deep_dir deep_world)
    as [[H _] _].
  - apply (validate_transfer _ _ empty_world). vm_compute. reflexivity.
  - vm_compute. reflexivity.
  - intros Hr. destruct (H Hr (lit "0123456789")) as [Hlen _].
    + exists (File (ascii_bytes "sib")). vm_compute. reflexivity.
    + vm_compute in Hlen. discriminate Hlen.
Defined.
